(** * dice_parser: a shallow embedding of the dice-expression evaluator

    The development follows [src/dice_parser/__init__.py] (the grammar, the
    semantic actions of [DiceTransformer], [_ParseResult] and the
    [DiceParser] facade) and [src/dice_parser/transformer.py] (the keep
    modifiers).  [transformer.py] and [parser_result.py] repeat the
    transformer and the result class of [__init__.py] under the name
    [InternalParseResult], with the same code.

    - Python objects of class [_ParseResult] live in a store and are handled
      through references, because [var] hands out the very object kept in
      [self.vars] and [dice_size] assigns to [result.value] in place.
    - The actions run in a state-and-exception monad over that store.
    - The LALR(1) engine is the Lark library; the grammar of [GRAMMAR] is
      embedded as a deterministic parser over tokens that calls the actions
      in the order of the bottom-up reductions (children left to right, then
      the production itself).
    - Strings are ASCII strings; Python's unbounded [int] is [Z]. *)

From Stdlib Require Import ZArith Ascii String List Lia.
From stdpp Require Import base tactics option list numbers strings pretty gmap sorting.

Open Scope string_scope.
Open Scope Z_scope.

(** ** Characters and integer literals *)

Definition is_digit (a : ascii) : bool :=
  let n := nat_of_ascii a in (48 <=? n)%nat && (n <=? 57)%nat.

(** The character class of [NAME: /[a-z_]+/]. *)
Definition is_name_char (a : ascii) : bool :=
  let n := nat_of_ascii a in
  ((97 <=? n)%nat && (n <=? 122)%nat) || (n =? 95)%nat.

(** [WS_INLINE] of Lark's common grammar: blanks and tabs. *)
Definition is_ws (a : ascii) : bool :=
  let n := nat_of_ascii a in (n =? 32)%nat || (n =? 9)%nat.

Definition digit_value (a : ascii) : Z := Z.of_nat (nat_of_ascii a) - 48.

Fixpoint int_digits (acc : Z) (s : string) : Z :=
  match s with
  | EmptyString => acc
  | String a s' => int_digits (10 * acc + digit_value a) s'
  end.

(** Python's [int(value)] on a lexeme of [NUMBER: /\d+/]. *)
Definition int_of_str (s : string) : Z := int_digits 0 s.

(** Python's [str(n)] for an [int] is stdpp's [pretty] on [Z]. *)
Definition str (n : Z) : string := pretty n.

(** [', '.join(l)] *)
Fixpoint join (sep : string) (l : list string) : string :=
  match l with
  | [] => EmptyString
  | [x] => x
  | x :: l' => x +:+ sep +:+ join sep l'
  end.

(** ** Tokens and the lexer

    Lark's contextual lexer only tries the terminals that the parser state
    accepts.  Where [NAME] and a one-letter literal are both acceptable the
    regular expression of [NAME] matches first and the lexeme becomes the
    literal only when it is exactly that letter; where [NAME] is not
    acceptable a letter is a literal on its own. *)

Inductive token : Type :=
  | NUMBER (lexeme : string)
  | NAME (lexeme : string)
  | PLUS | MINUS | STAR | SLASH | LPAR | RPAR | EQUAL
  | KW_D      (* "d" | "D" *)
  | KW_H      (* "h" | "H" *)
  | KW_L      (* "l" | "L" *)
  | BAD.      (* no terminal matches here *)

Inductive lexctx : Type :=
  | CtxDice   (* a [dice] may start: NAME, "d", "D" compete *)
  | CtxAtom   (* only an [atom] may start (after unary "-", "h", "l") *)
  | CtxSize   (* just after "d": NAME, "h", "H", "l", "L" compete *)
  | CtxAfter. (* after an atom: no NAME, letters are literals *)

Inductive lexmode : Type :=
  | Idle (c : lexctx)
  | InNumber (lexeme : string)
  | InName (c : lexctx) (lexeme : string)
  | Failed.

Definition classify (c : lexctx) (w : string) : token :=
  match c with
  | CtxDice => if String.eqb w "d" then KW_D else NAME w
  | CtxSize =>
      if String.eqb w "h" then KW_H
      else if String.eqb w "l" then KW_L else NAME w
  | _ => NAME w
  end.

Definition ctx_after (t : token) : lexctx :=
  match t with
  | KW_D => CtxSize
  | KW_H | KW_L => CtxAtom
  | _ => CtxAfter
  end.

Definition snoc (w : string) (a : ascii) : string := w +:+ String a EmptyString.

Definition step_idle (c : lexctx) (a : ascii) : list token * lexmode :=
  if is_ws a then ([], Idle c)
  else if is_digit a then ([], InNumber (String a EmptyString))
  else if is_name_char a then
    match c with
    | CtxAfter =>
        if Ascii.eqb a "d" then ([KW_D], Idle CtxSize)
        else if Ascii.eqb a "h" then ([KW_H], Idle CtxAtom)
        else if Ascii.eqb a "l" then ([KW_L], Idle CtxAtom)
        else ([BAD], Failed)
    | _ => ([], InName c (String a EmptyString))
    end
  else if Ascii.eqb a "+" then ([PLUS], Idle CtxDice)
  else if Ascii.eqb a "-" then
    ([MINUS], Idle match c with CtxAfter => CtxDice | _ => CtxAtom end)
  else if Ascii.eqb a "*" then ([STAR], Idle CtxDice)
  else if Ascii.eqb a "/" then ([SLASH], Idle CtxDice)
  else if Ascii.eqb a "(" then ([LPAR], Idle CtxDice)
  else if Ascii.eqb a ")" then ([RPAR], Idle CtxAfter)
  else if Ascii.eqb a "=" then ([EQUAL], Idle CtxDice)
  else if Ascii.eqb a "D" then ([KW_D], Idle CtxSize)
  else if Ascii.eqb a "H" then ([KW_H], Idle CtxAtom)
  else if Ascii.eqb a "L" then ([KW_L], Idle CtxAtom)
  else ([BAD], Failed).

Definition lex_step (m : lexmode) (a : ascii) : list token * lexmode :=
  match m with
  | Idle c => step_idle c a
  | InNumber w =>
      if is_digit a then ([], InNumber (snoc w a))
      else let '(o, m') := step_idle CtxAfter a in (NUMBER w :: o, m')
  | InName c w =>
      if is_name_char a then ([], InName c (snoc w a))
      else
        let t := classify c w in
        let '(o, m') := step_idle (ctx_after t) a in (t :: o, m')
  | Failed => ([], Failed)
  end.

Definition lex_flush (m : lexmode) : list token :=
  match m with
  | Idle _ | Failed => []
  | InNumber w => [NUMBER w]
  | InName c w => [classify c w]
  end.

Fixpoint lex_from (m : lexmode) (s : string) : list token :=
  match s with
  | EmptyString => lex_flush m
  | String a s' => let '(o, m') := lex_step m a in o ++ lex_from m' s'
  end.

Definition tokenize (s : string) : list token := lex_from (Idle CtxDice) s.

(** ** Keep modifiers ([transformer.py]) *)

Inductive DiceModifier : Type :=
  | NullDiceModifier
  | HighestDiceModifier (count : Z)
  | LowestDiceModifier (count : Z).

Definition len {A} (l : list A) : Z := Z.of_nat (length l).

(** Python's slice bounds: a negative index counts from the end, and the
    result is clipped to the list. *)
Definition slice_index {A} (i : Z) (l : list A) : nat :=
  Z.to_nat (if i <? 0 then Z.max 0 (len l + i) else Z.min i (len l)).

(** [l[i:]] and [l[:i]] *)
Definition slice_from {A} (i : Z) (l : list A) : list A := drop (slice_index i l) l.
Definition slice_to {A} (i : Z) (l : list A) : list A := take (slice_index i l) l.

(** [sorted(dice)] on integers. *)
Definition sorted (dice : list Z) : list Z := merge_sort Z.le dice.

(** Modelled from the spec: [DiceModifier._safe_count] of
    [dice_parser/modifier.py], which is not among the sources; the count of
    the modifier "is clamped to [0, len(outcomes)] before use". *)
Definition _safe_count (count : Z) (dice : list Z) : Z :=
  Z.max 0 (Z.min count (len dice)).

Definition get_actual_dice (m : DiceModifier) (dice : list Z) : list Z * list Z :=
  match m with
  | NullDiceModifier => (dice, [])
  | HighestDiceModifier c =>
      let sorted_dice := sorted dice in
      let count := _safe_count c dice in
      let n := len sorted_dice in
      (slice_from (n - count) sorted_dice, slice_to (n - count) sorted_dice)
  | LowestDiceModifier c =>
      let sorted_dice := sorted dice in
      let count := _safe_count c dice in
      (slice_to count sorted_dice, slice_from count sorted_dice)
  end.

Definition sum_list (l : list Z) : Z := foldr Z.add 0 l.

(** ** Objects, store and the evaluation monad *)

Inductive pyvalue : Type :=
  | VInt (n : Z)
  | VModifier (m : DiceModifier).

(** [_ParseResult]: [value: int | DiceModifier], [string: str | None],
    [flag: str | None]. *)
Record _ParseResult : Type := mkResult {
  value : pyvalue;
  string_ : option string;
  flag : option string;
}.

(** The public [ParseResult] dataclass. *)
Record ParseResult : Type := mkPublic {
  pvalue : Z;
  pstring : string;
}.

(** What a [DiceParser] can reach: the objects allocated so far, the
    [vars] dictionary of its [DiceTransformer], and the random source.  The
    random source is a tape of raw draws and the number of draws consumed. *)
Record state : Type := mkState {
  heap : list _ParseResult;
  vars : gmap string nat;
  tape : nat -> Z;
  drawn : nat;
}.

Inductive exn : Type :=
  | SyntaxError                 (* Lark's UnexpectedInput family *)
  | KeyError (key : string)
  | ZeroDivisionError
  | TypeError
  | AssertionError
  | OutOfFuel.                  (* never the result of [parse], see [parse_fueled] *)

Inductive result (A : Type) : Type :=
  | Ok (a : A)
  | Raise (e : exn).
Arguments Ok {A} a.
Arguments Raise {A} e.

Definition M (A : Type) : Type := state -> result A * state.

Definition ret {A} (a : A) : M A := fun st => (Ok a, st).
Definition raise {A} (e : exn) : M A := fun st => (Raise e, st).
Definition bind {A B} (m : M A) (k : A -> M B) : M B :=
  fun st =>
    match m st with
    | (Ok a, st') => k a st'
    | (Raise e, st') => (Raise e, st')
    end.

#[global] Instance M_ret : MRet M := @ret.
#[global] Instance M_bind : MBind M := fun A B k m => bind m k.

#[global] Instance _ParseResult_inhabited : Inhabited _ParseResult :=
  populate (mkResult (VInt 0) None None).

(** Allocation of a new object; the reference is its index in the store. *)
Definition new (v : pyvalue) (s : option string) (f : option string) : M nat :=
  fun st =>
    (Ok (length (heap st)),
     mkState (heap st ++ [mkResult v s f]) (vars st) (tape st) (drawn st)).

Definition deref (r : nat) : M _ParseResult :=
  fun st => (Ok (heap st !!! r), st).

(** [result.value = v] *)
Definition set_value (r : nat) (v : pyvalue) : M unit :=
  fun st =>
    let o := heap st !!! r in
    (Ok tt,
     mkState (<[r := mkResult v (string_ o) (flag o)]> (heap st))
             (vars st) (tape st) (drawn st)).

(** [self.vars[name] = r] *)
Definition set_var (name : string) (r : nat) : M unit :=
  fun st => (Ok tt, mkState (heap st) (<[name := r]> (vars st)) (tape st) (drawn st)).

(** [random.randint(1, size)] for [size >= 1]: the next raw draw of the
    tape, reduced to the range, so every value of [1..size] can come out. *)
Definition randint (size : Z) : M Z :=
  fun st =>
    (Ok (1 + tape st (drawn st) mod size),
     mkState (heap st) (vars st) (tape st) (S (drawn st))).

(** [assert isinstance(v, int)] *)
Definition as_int (v : pyvalue) : M Z :=
  match v with
  | VInt n => ret n
  | VModifier _ => raise AssertionError
  end.

(** The text a [{}] field of [str.format] shows for [str | None]. *)
Definition fmt (s : option string) : string :=
  match s with
  | Some x => x
  | None => "None"
  end.

(** ** The dice roller *)

(** Modelled from the spec: the [n] draws of [DiceRoller.roll], one
    [randint] each, in the order of generation. *)
Fixpoint roll_dice (n : nat) (size : Z) : M (list Z) :=
  match n with
  | O => ret []
  | S n' => d ← randint size; ds ← roll_dice n' size; ret (d :: ds)
  end.

(** Modelled from the spec: [DiceRoller(count, size, modifier).roll()] of
    [dice_parser/dice_roller.py], which is not among the sources.  It
    generates [count] outcomes, each drawn from [1..size] when [size >= 1];
    when the size is 0 every outcome is 0 and no randomness is consumed.  The
    modifier selects the kept outcomes, the total is their sum, and the full
    roll is returned with it.  A negative count yields no outcome (the spec
    leaves that case open). *)
Definition DiceRoller_roll (count size : Z) (modifier : DiceModifier)
  : M (Z * list Z) :=
  dice ← (if 1 <=? size then roll_dice (Z.to_nat count) size
          else ret (replicate (Z.to_nat count) 0));
  let '(kept, dropped) := get_actual_dice modifier dice in
  ret (sum_list kept, dice).

(** ** Semantic actions of [DiceTransformer] *)

(** [_ParseResult.operator] at two arguments and at one argument: the new
    node holds the callable applied to the values of the arguments and the
    template filled with their strings. *)
Definition operator2 (operator_callable : Z -> Z -> M Z)
    (template : string -> string -> string) (a b : nat) : M nat :=
  x ← deref a; y ← deref b;
  match value x, value y with
  | VInt m, VInt n =>
      v ← operator_callable m n;
      new (VInt v) (Some (template (fmt (string_ x)) (fmt (string_ y)))) None
  | _, _ => raise TypeError
  end.

Definition operator1 (operator_callable : Z -> M Z)
    (template : string -> string) (a : nat) : M nat :=
  x ← deref a;
  match value x with
  | VInt m =>
      v ← operator_callable m;
      new (VInt v) (Some (template (fmt (string_ x)))) None
  | _ => raise TypeError
  end.

(** [operator.floordiv] on integers: the quotient rounded toward minus
    infinity, [ZeroDivisionError] on a zero divisor. *)
Definition floordiv (m n : Z) : M Z :=
  if n =? 0 then raise ZeroDivisionError else ret (m / n).

Definition add := operator2 (fun m n => ret (m + n)) (fun a b => a +:+ " + " +:+ b).
Definition sub := operator2 (fun m n => ret (m - n)) (fun a b => a +:+ " - " +:+ b).
Definition mul := operator2 (fun m n => ret (m * n)) (fun a b => a +:+ " * " +:+ b).
Definition div := operator2 floordiv (fun a b => a +:+ " / " +:+ b).
Definition neg := operator1 (fun m => ret (- m)) (fun a => "-" +:+ a).

Definition number (lexeme : string) : M nat :=
  new (VInt (int_of_str lexeme)) (Some (str (int_of_str lexeme))) None.

Definition _add_flag (r : nat) (f : string) : M nat :=
  x ← deref r; new (value x) (string_ x) (Some f).

Definition dice_count (r : nat) : M nat := _add_flag r "dice_count".

Definition dice_size (r : nat) : M nat :=
  x ← deref r;
  n ← as_int (value x);
  _ ← (if n <? 1 then set_value r (VInt 0) else ret tt);
  _add_flag r "dice_size".

Definition dice_highest (r : nat) : M nat :=
  x ← deref r;
  n ← as_int (value x);
  new (VModifier (HighestDiceModifier n)) None (Some "dice_modifier").

Definition dice_lowest (r : nat) : M nat :=
  x ← deref r;
  n ← as_int (value x);
  new (VModifier (LowestDiceModifier n)) None (Some "dice_modifier").

Definition brackets (r : nat) : M nat :=
  x ← deref r;
  new (value x) (Some ("(" +:+ fmt (string_ x) +:+ ")")) None.

Definition flag_is (x : _ParseResult) (f : string) : bool :=
  match flag x with
  | Some g => String.eqb g f
  | None => false
  end.

Definition as_modifier (v : pyvalue) : M DiceModifier :=
  match v with
  | VModifier m => ret m
  | VInt _ => raise AssertionError
  end.

(** One turn of the loop [for arg in args] of [roll]. *)
Definition roll_arg (acc : Z * Z * DiceModifier) (arg : _ParseResult)
  : M (Z * Z * DiceModifier) :=
  let '(count, size, modifier) := acc in
  count ← (if flag_is arg "dice_count" then as_int (value arg) else ret count);
  size ← (if flag_is arg "dice_size" then as_int (value arg) else ret size);
  modifier ← (if flag_is arg "dice_modifier" then as_modifier (value arg)
              else ret modifier);
  ret (count, size, modifier).

Fixpoint roll_args (acc : Z * Z * DiceModifier) (args : list nat)
  : M (Z * Z * DiceModifier) :=
  match args with
  | [] => ret acc
  | r :: args' => x ← deref r; acc' ← roll_arg acc x; roll_args acc' args'
  end.

Definition roll (args : list nat) : M nat :=
  '(count, size, modifier) ← roll_args (1, 20, NullDiceModifier) args;
  '(rolled_result, rolled_dice) ← DiceRoller_roll count size modifier;
  new (VInt rolled_result)
      (Some ("[" +:+ join ", " (map str rolled_dice) +:+ "]")) None.

Definition assign_var (name : string) (r : nat) : M nat :=
  x ← deref r;
  b ← new (value x) (Some name) None;
  _ ← set_var name b;
  new (value x) (Some (name +:+ " = " +:+ fmt (string_ x))) None.

Definition var (name : string) : M nat :=
  fun st =>
    match vars st !! name with
    | Some r => (Ok r, st)
    | None => (Raise (KeyError name), st)
    end.

(** ** The grammar

    [start], [sum], [product], [dice] and [atom] follow the productions of
    [DiceParser.GRAMMAR].  Each parser takes the remaining tokens and returns
    the reference of the evaluated node with the tokens left.  [atom] is the
    only production that recurses into itself or into [sum], so it carries
    the fuel; the two left-recursive productions are loops, each started with
    a counter that exceeds the number of tokens left.

    An action runs as soon as its children are read.  Lark runs it when the
    next token allows the reduction, so on an input that has a syntax error
    just after a complete phrase the embedding has run the action of that
    phrase, in the order of the source, where Lark raises before it.  On the
    inputs that parse, both run the same actions in the same order. *)

Definition starts_atom (ts : list token) : bool :=
  match ts with
  | NUMBER _ :: _ | MINUS :: _ | NAME _ :: _ | LPAR :: _ => true
  | _ => false
  end.

(** The lookahead on which a completed [atom] is reduced. *)
Definition follows_atom (ts : list token) : bool :=
  match ts with
  | [] => true
  | (PLUS | MINUS | STAR | SLASH | RPAR | KW_D | KW_H | KW_L) :: _ => true
  | _ => false
  end.

Section Productions.
Variable atom : list token -> M (nat * list token).
Variable fuel : nat.

(** [dice_size?]: on "-" the conflict between the size atom and the end
    of the roll is resolved as a shift, so a size is read. *)
Definition dice_size_opt (ts : list token) : M (list nat * list token) :=
  if starts_atom ts then
    '(a, ts1) ← atom ts; s ← dice_size a; ret ([s], ts1)
  else ret ([], ts).

Definition dice_modifier_opt (ts : list token) : M (list nat * list token) :=
  match ts with
  | KW_H :: ts1 => '(a, ts2) ← atom ts1; m ← dice_highest a; ret ([m], ts2)
  | KW_L :: ts1 => '(a, ts2) ← atom ts1; m ← dice_lowest a; ret ([m], ts2)
  | _ => ret ([], ts)
  end.

(** What follows ("d" | "D") in the [roll] production. *)
Definition roll_tail (count : list nat) (ts : list token)
  : M (nat * list token) :=
  '(size, ts1) ← dice_size_opt ts;
  '(modifier, ts2) ← dice_modifier_opt ts1;
  r ← roll (count ++ size ++ modifier);
  ret (r, ts2).

Definition dice (ts : list token) : M (nat * list token) :=
  match ts with
  | KW_D :: ts1 => roll_tail [] ts1
  | _ =>
      '(a, ts1) ← atom ts;
      match ts1 with
      | KW_D :: ts2 => c ← dice_count a; roll_tail [c] ts2
      | _ => ret (a, ts1)
      end
  end.

(** [product "*" dice | product "/" dice], as a loop over the operands
    that follow the first one. *)
Fixpoint product_loop (n : nat) (acc : nat) (ts : list token)
  : M (nat * list token) :=
  match n with
  | O => raise OutOfFuel
  | S n' =>
      match ts with
      | STAR :: ts1 =>
          '(d, ts2) ← dice ts1; acc' ← mul acc d; product_loop n' acc' ts2
      | SLASH :: ts1 =>
          '(d, ts2) ← dice ts1; acc' ← div acc d; product_loop n' acc' ts2
      | _ => ret (acc, ts)
      end
  end.

Definition product (ts : list token) : M (nat * list token) :=
  '(d, ts1) ← dice ts; product_loop fuel d ts1.

(** [sum "+" product | sum "-" product] *)
Fixpoint sum_loop (n : nat) (acc : nat) (ts : list token)
  : M (nat * list token) :=
  match n with
  | O => raise OutOfFuel
  | S n' =>
      match ts with
      | PLUS :: ts1 =>
          '(p, ts2) ← product ts1; acc' ← add acc p; sum_loop n' acc' ts2
      | MINUS :: ts1 =>
          '(p, ts2) ← product ts1; acc' ← sub acc p; sum_loop n' acc' ts2
      | _ => ret (acc, ts)
      end
  end.

Definition sum (ts : list token) : M (nat * list token) :=
  '(p, ts1) ← product ts; sum_loop fuel p ts1.
End Productions.

Fixpoint atom (fuel : nat) (ts : list token) : M (nat * list token) :=
  match fuel with
  | O => raise OutOfFuel
  | S fuel' =>
      match ts with
      | NUMBER w :: ts1 => r ← number w; ret (r, ts1)
      | MINUS :: ts1 => '(a, ts2) ← atom fuel' ts1; r ← neg a; ret (r, ts2)
      | NAME x :: ts1 =>
          if follows_atom ts1 then r ← var x; ret (r, ts1)
          else raise SyntaxError
      | LPAR :: ts1 =>
          '(s, ts2) ← sum (atom fuel') fuel' ts1;
          match ts2 with
          | RPAR :: ts3 => r ← brackets s; ret (r, ts3)
          | _ => raise SyntaxError
          end
      | _ => raise SyntaxError
      end
  end.

(** [?start: sum | NAME "=" sum -> assign_var], followed by the end of the
    input. *)
Definition start (fuel : nat) (ts : list token) : M nat :=
  match ts with
  | NAME x :: EQUAL :: ts1 =>
      '(s, rest) ← sum (atom fuel) fuel ts1;
      match rest with
      | [] => assign_var x s
      | _ => raise SyntaxError
      end
  | _ =>
      '(s, rest) ← sum (atom fuel) fuel ts;
      match rest with
      | [] => ret s
      | _ => raise SyntaxError
      end
  end.

(** ** The facade *)

Definition to_public_result (r : nat) : M ParseResult :=
  x ← deref r;
  match value x, string_ x with
  | VInt n, Some s => ret (mkPublic n s)
  | _, _ => raise AssertionError
  end.

(** Every token list is parsed with more fuel than it has tokens. *)
Definition parse_fuel (ts : list token) : nat := S (length ts).

(** [DiceParser.parse] *)
Definition parse (s : string) : M ParseResult :=
  let ts := tokenize s in
  r ← start (parse_fuel ts) ts;
  to_public_result r.

(** [DiceParser.__init__]: the one [DiceTransformer()] of the parser, with
    [self.vars = {}]. *)
Definition DiceParser_init (random : nat -> Z) : state :=
  mkState [] ∅ random 0.

(** ** Predicates used in the statements *)

(** The lexeme is made of decimal digits. *)
Fixpoint all_digits (s : string) : bool :=
  match s with
  | EmptyString => true
  | String a s' => is_digit a && all_digits s'
  end.

Definition head_is_digit (s : string) : bool :=
  match s with
  | EmptyString => false
  | String a _ => is_digit a
  end.

(** No child in [args] carries the role tag [f]. *)
Definition no_role (st : state) (args : list nat) (f : string) : Prop :=
  Forall (fun r => flag_is (heap st !!! r) f = false) args.

(** The outcomes that [n] draws of size [size] produce from state [st]. *)
Definition rolled (st : state) (n : nat) (size : Z) : list Z :=
  map (fun i => 1 + tape st (drawn st + i)%nat mod size) (seq 0 n).

(** [sel = (kept, dropped)] splits [dice] into the [k] largest outcomes and
    the rest: together they are the roll, [k] are kept, and no dropped
    outcome exceeds a kept one.  The sum of [kept] is then the sum of the
    [k] largest outcomes. *)
Definition keeps_highest (k : Z) (dice : list Z) (sel : list Z * list Z) : Prop :=
  sel.1 ++ sel.2 ≡ₚ dice /\
  len sel.1 = k /\
  forall x y, x ∈ sel.1 -> y ∈ sel.2 -> y <= x.

(** The same for the [k] smallest outcomes. *)
Definition keeps_lowest (k : Z) (dice : list Z) (sel : list Z * list Z) : Prop :=
  sel.1 ++ sel.2 ≡ₚ dice /\
  len sel.1 = k /\
  forall x y, x ∈ sel.1 -> y ∈ sel.2 -> x <= y.

(** ** Pure arithmetic

    Expressions without dice and variables, in the shape the grammar gives
    them: sums of products of atoms, both left-nested.  A number is kept as
    the integer it denotes. *)

Inductive atomE : Type :=
  | ENum (n : Z)
  | ENeg (a : atomE)
  | EParen (s : sumE)
with prodE : Type :=
  | PAtom (a : atomE)
  | PMul (p : prodE) (a : atomE)
  | PDiv (p : prodE) (a : atomE)
with sumE : Type :=
  | SProd (p : prodE)
  | SAdd (s : sumE) (p : prodE)
  | SSub (s : sumE) (p : prodE).

Scheme atomE_mut := Induction for atomE Sort Prop
  with prodE_mut := Induction for prodE Sort Prop
  with sumE_mut := Induction for sumE Sort Prop.
Combined Scheme arith_mutind from atomE_mut, prodE_mut, sumE_mut.

(** The text that the actions build for an expression. *)
Fixpoint text_atom (a : atomE) : string :=
  match a with
  | ENum n => str n
  | ENeg a => "-" +:+ text_atom a
  | EParen s => "(" +:+ text_sum s +:+ ")"
  end
with text_prod (p : prodE) : string :=
  match p with
  | PAtom a => text_atom a
  | PMul p a => text_prod p +:+ " * " +:+ text_atom a
  | PDiv p a => text_prod p +:+ " / " +:+ text_atom a
  end
with text_sum (s : sumE) : string :=
  match s with
  | SProd p => text_prod p
  | SAdd s p => text_sum s +:+ " + " +:+ text_prod p
  | SSub s p => text_sum s +:+ " - " +:+ text_prod p
  end.

(** The tokens of that text. *)
Fixpoint toks_atom (a : atomE) : list token :=
  match a with
  | ENum n => [NUMBER (str n)]
  | ENeg a => MINUS :: toks_atom a
  | EParen s => LPAR :: toks_sum s ++ [RPAR]
  end
with toks_prod (p : prodE) : list token :=
  match p with
  | PAtom a => toks_atom a
  | PMul p a => toks_prod p ++ STAR :: toks_atom a
  | PDiv p a => toks_prod p ++ SLASH :: toks_atom a
  end
with toks_sum (s : sumE) : list token :=
  match s with
  | SProd p => toks_prod p
  | SAdd s p => toks_sum s ++ PLUS :: toks_prod p
  | SSub s p => toks_sum s ++ MINUS :: toks_prod p
  end.

(** The value of an expression, [None] when it divides by zero. *)
Fixpoint val_atom (a : atomE) : option Z :=
  match a with
  | ENum n => Some n
  | ENeg a => x ← val_atom a; Some (- x)
  | EParen s => val_sum s
  end
with val_prod (p : prodE) : option Z :=
  match p with
  | PAtom a => val_atom a
  | PMul p a => x ← val_prod p; y ← val_atom a; Some (x * y)
  | PDiv p a =>
      x ← val_prod p; y ← val_atom a;
      if y =? 0 then None else Some (x / y)
  end
with val_sum (s : sumE) : option Z :=
  match s with
  | SProd p => val_prod p
  | SAdd s p => x ← val_sum s; y ← val_prod p; Some (x + y)
  | SSub s p => x ← val_sum s; y ← val_prod p; Some (x - y)
  end.

(** The actions that the parser runs for an expression, in its order. *)
Fixpoint exec_atom (a : atomE) : M nat :=
  match a with
  | ENum n => number (str n)
  | ENeg a => x ← exec_atom a; neg x
  | EParen s => x ← exec_sum s; brackets x
  end
with exec_prod (p : prodE) : M nat :=
  match p with
  | PAtom a => exec_atom a
  | PMul p a => x ← exec_prod p; y ← exec_atom a; mul x y
  | PDiv p a => x ← exec_prod p; y ← exec_atom a; div x y
  end
with exec_sum (s : sumE) : M nat :=
  match s with
  | SProd p => exec_prod p
  | SAdd s p => x ← exec_sum s; y ← exec_prod p; add x y
  | SSub s p => x ← exec_sum s; y ← exec_prod p; sub x y
  end.

(** All numbers of the expression are non-negative, as literals are. *)
Fixpoint wf_atom (a : atomE) : Prop :=
  match a with
  | ENum n => 0 <= n
  | ENeg a => wf_atom a
  | EParen s => wf_sum s
  end
with wf_prod (p : prodE) : Prop :=
  match p with
  | PAtom a => wf_atom a
  | PMul p a | PDiv p a => wf_prod p /\ wf_atom a
  end
with wf_sum (s : sumE) : Prop :=
  match s with
  | SProd p => wf_prod p
  | SAdd s p | SSub s p => wf_sum s /\ wf_prod p
  end.

(** A token of pure arithmetic: no dice keyword, no name, no "=". *)
Definition arith_token (t : token) : bool :=
  match t with
  | NUMBER _ | PLUS | MINUS | STAR | SLASH | LPAR | RPAR => true
  | _ => false
  end.

(** The lexeme of a number token is made of digits. *)
Definition number_ok (t : token) : Prop :=
  match t with
  | NUMBER w => all_digits w = true
  | _ => True
  end.

(** Number of operators at the top level of a product or a sum. *)
Fixpoint ops_prod (p : prodE) : nat :=
  match p with
  | PAtom _ => 0
  | PMul p _ | PDiv p _ => S (ops_prod p)
  end.

Fixpoint ops_sum (s : sumE) : nat :=
  match s with
  | SProd _ => 0
  | SAdd s _ | SSub s _ => S (ops_sum s)
  end.

(** The next token does not turn the atom before it into a dice count. *)
Definition not_kw_d (ts : list token) : bool :=
  match ts with
  | KW_D :: _ => false
  | _ => true
  end.

(** The next token does not continue a product. *)
Definition ends_product (ts : list token) : bool :=
  match ts with
  | KW_D :: _ | STAR :: _ | SLASH :: _ => false
  | _ => true
  end.

(** [m], run from [st], only allocates, and returns a node of value [v]
    and text [t]. *)
Definition yields (m : M nat) (st : state) (v : Z) (t : string) : Prop :=
  exists x l,
    m st = (Ok x, mkState (heap st ++ l)%list (vars st) (tape st) (drawn st)) /\
    (x < length (heap st ++ l)%list)%nat /\
    (heap st ++ l)%list !!! x = mkResult (VInt v) (Some t) None.

(** Tokens of pure arithmetic whose number lexemes are digits. *)
Definition pure_tokens (ts : list token) : Prop :=
  Forall (fun t => arith_token t = true /\ number_ok t) ts.

(** A number being read by the lexer is made of digits. *)
Definition mode_ok (m : lexmode) : Prop :=
  match m with
  | InNumber w => all_digits w = true
  | _ => True
  end.

(** [m] never runs out of fuel. *)
Definition fueled {A} (m : M A) : Prop :=
  forall st, (m st).1 <> Raise OutOfFuel.

(** [m] never runs out of fuel, and leaves fewer than [k] tokens when it
    succeeds. *)
Definition bounded {A} (m : M (A * list token)) (k : nat) : Prop :=
  forall st,
    match (m st).1 with
    | Ok (_, rest) => (length rest < k)%nat
    | Raise e => e <> OutOfFuel
    end.

(** The tokens of the decimal text of an integer. *)
Definition int_tokens (k : Z) : list token :=
  if k <? 0 then [MINUS; NUMBER (str (- k))] else [NUMBER (str k)].

(** The expression that the decimal text of an integer denotes: negative
    integers are written with a unary minus. *)
Definition lit (a : Z) : atomE :=
  if a <? 0 then ENeg (ENum (- a)) else ENum a.

(** [m] only allocates: whatever it returns, the state it leaves has the
    old store with new objects appended, and the same bindings and random
    source. *)
Definition alloc_only {A} (m : M A) : Prop :=
  forall st, exists l,
    (m st).2 = mkState (heap st ++ l)%list (vars st) (tape st) (drawn st).

(** Parsing [s] in [st] yields the value [v] with [s] itself as text, and
    leaves the state as it was, apart from objects newly allocated. *)
Definition parses_to (s : string) (st : state) (v : Z) : Prop :=
  exists l,
    parse s st
    = (Ok (mkPublic v s), mkState (heap st ++ l)%list (vars st) (tape st) (drawn st)).

(** Parsing [s] in [st] raises [e], and leaves the state as it was, apart
    from objects newly allocated. *)
Definition parse_raises (s : string) (st : state) (e : exn) : Prop :=
  exists l,
    parse s st
    = (Raise e, mkState (heap st ++ l)%list (vars st) (tape st) (drawn st)).

(** ** The states of a parser

    What holds of the store and of the bindings in every state that parse
    calls can produce, and how a parse call may change a state. *)

(** A node that [roll] can take as an argument whatever its tag is: an
    integer is not tagged as a modifier, and a modifier is tagged neither as
    a count nor as a size. *)
Definition well_tagged (o : _ParseResult) : Prop :=
  match value o with
  | VInt _ => flag_is o "dice_modifier" = false
  | VModifier _ =>
      flag_is o "dice_count" = false /\ flag_is o "dice_size" = false
  end.

(** The reference [r] is allocated and leads to a node that holds an
    integer and a text. *)
Definition is_int_node (st : state) (r : nat) : Prop :=
  (r < length (heap st))%nat /\
  exists n s, value (heap st !!! r) = VInt n /\ string_ (heap st !!! r) = Some s.

(** The invariant: every node is well tagged, and every binding has a name
    that the lexer reads as one [NAME] and refers to an allocated node that
    holds an integer, the name as text, and no tag. *)
Definition Inv (st : state) : Prop :=
  (forall r, well_tagged (heap st !!! r)) /\
  (forall x r, vars st !! x = Some r ->
     tokenize x = [NAME x] /\ (r < length (heap st))%nat /\
     exists n, heap st !!! r = mkResult (VInt n) (Some x) None).

(** What can happen to an object: text and tag stay, and the value stays
    or, being an integer below 1, becomes 0. *)
Definition node_le (o o' : _ParseResult) : Prop :=
  string_ o' = string_ o /\ flag o' = flag o /\
  (value o' = value o \/
   exists n, value o = VInt n /\ n < 1 /\ value o' = VInt 0).

(** What can happen to the store and the random source: objects are added,
    well tagged, the objects that were there change as [node_le] allows, the
    tape stays and draws are only consumed; none is when [q] is set. *)
Definition store_grows (q : bool) (st st' : state) : Prop :=
  tape st' = tape st /\
  (drawn st <= drawn st')%nat /\
  (q = true -> drawn st' = drawn st) /\
  (length (heap st) <= length (heap st'))%nat /\
  (forall r, (r < length (heap st))%nat ->
     node_le (heap st !!! r) (heap st' !!! r)) /\
  (forall r, (length (heap st) <= r)%nat -> well_tagged (heap st' !!! r)).

(** The same with the bindings left as they were. *)
Definition evolves (q : bool) (st st' : state) : Prop :=
  vars st' = vars st /\ store_grows q st st'.

(** The exceptions of a parse call: a syntax error, a division by zero, or
    a [KeyError] for a name that has no binding. *)
Definition allowed (st : state) (e : exn) : Prop :=
  match e with
  | SyntaxError | ZeroDivisionError | OutOfFuel => True
  | KeyError k => vars st !! k = None
  | TypeError | AssertionError => False
  end.

(** [m], run from [st], changes the state as [evolves q] allows, and
    returns a result for which [Q] holds or raises an allowed exception. *)
Definition good {A} (q : bool) (m : M A) (st : state)
    (Q : A -> state -> Prop) : Prop :=
  evolves q st (m st).2 /\
  match (m st).1 with
  | Ok a => Q a (m st).2
  | Raise e => allowed st e
  end.

(** No token of [ts] is the dice keyword. *)
Definition no_dice (ts : list token) : bool :=
  forallb (fun t => match t with KW_D => false | _ => true end) ts.

(** What a production returns on the tokens [ts]: an integer node, and
    tokens without a dice keyword if [ts] had none. *)
Definition parsed (ts : list token) (a : nat * list token) (st : state) : Prop :=
  is_int_node st a.1 /\ (no_dice ts = true -> no_dice a.2 = true).

(** The states of a parser: the one it is constructed with, and those
    that its parse calls leave, whether they return or raise. *)
Inductive reachable : state -> Prop :=
  | reachable_init (random : nat -> Z) : reachable (DiceParser_init random)
  | reachable_parse (s : string) (st : state) :
      reachable st -> reachable (parse s st).2.

(** The name that the input assigns to, when it has the form
    [NAME "=" sum]. *)
Definition assigned (ts : list token) : option string :=
  match ts with
  | NAME x :: EQUAL :: _ => Some x
  | _ => None
  end.

(** The lexeme is made of characters of [NAME]. *)
Fixpoint all_name_chars (s : string) : bool :=
  match s with
  | EmptyString => true
  | String a s' => is_name_char a && all_name_chars s'
  end.

(** The lexeme is made of blanks and tabs. *)
Fixpoint all_ws (s : string) : bool :=
  match s with
  | EmptyString => true
  | String a s' => is_ws a && all_ws s'
  end.

(** ** Blanks between lexemes *)

Fixpoint last_char (s : string) : option ascii :=
  match s with
  | EmptyString => None
  | String a EmptyString => Some a
  | String _ s' => last_char s'
  end.

Definition head_char (s : string) : option ascii :=
  match s with
  | EmptyString => None
  | String a _ => Some a
  end.

(** Written without a blank between them, the end of [s1] and the start of
    [s2] would be read as one number or one name. *)
Definition glued (s1 s2 : string) : bool :=
  match last_char s1, head_char s2 with
  | Some a, Some b =>
      (is_digit a && is_digit b) || (is_name_char a && is_name_char b)
  | _, _ => false
  end.

(** The text [s] starts with a character that extends the lexeme which the
    lexer is reading in mode [m]. *)
Definition continues (m : lexmode) (s : string) : bool :=
  match m, s with
  | InNumber _, String b _ => is_digit b
  | InName _ _, String b _ => is_name_char b
  | _, _ => false
  end.

(** [m'] does what [m] does wherever [m] does not run out of fuel. *)
Definition agrees {A} (m m' : M A) : Prop :=
  forall st, (m st).1 <> Raise OutOfFuel -> m' st = m st.

(** ** What the productions consume *)

(** A token that some production consumes: every token but "=" and the
    token of a character that no terminal matches. *)
Definition consumable (t : token) : bool :=
  match t with
  | EQUAL | BAD => false
  | _ => true
  end.

(** The tokens of the expression of an input: all of them, or those after
    [NAME "="] when the input is an assignment. *)
Definition expression_tokens (ts : list token) : list token :=
  match ts with
  | NAME _ :: EQUAL :: ts1 => ts1
  | _ => ts
  end.

(** When [m] returns, the tokens of [ts] that it has taken are consumable:
    if those it leaves are, all of [ts] are. *)
Definition consumes {A} (m : M (A * list token)) (ts : list token) : Prop :=
  forall st a rest st',
    m st = (Ok (a, rest), st') ->
    forallb consumable rest = true -> forallb consumable ts = true.

(** ** Later parse calls *)

(** The parse call of [s] from [st] assigns to [name]: the input is an
    assignment to it and the call returns. *)
Definition assigns (name s : string) (st : state) : Prop :=
  assigned (tokenize s) = Some name /\ exists p, (parse s st).1 = Ok p.

(** [st'] is the state of the parser after some parse calls made from
    [st], returning or raising, none of them on an input that is an
    assignment to [name]. *)
Inductive later_calls (name : string) (st : state) : state -> Prop :=
  | later_now : later_calls name st st
  | later_call (s : string) (st' : state) :
      later_calls name st st' -> assigned (tokenize s) <> Some name ->
      later_calls name st (parse s st').2.

(** * Verification *)

(** ** Symbolic execution of the monad

    A run starts in a state whose store is [h ++ l], with [h] the objects
    that existed before and [l] the objects allocated since; references to
    new objects have the form [length h + j]. *)

Arguments atom !fuel !ts : simpl nomatch.
Arguments sum atom fuel !ts /.
Arguments product atom fuel !ts /.
Arguments dice atom !ts /.
Arguments sum_loop atom fuel !n acc !ts : simpl nomatch.
Arguments product_loop atom !n acc !ts : simpl nomatch.
Arguments str : simpl never.
Arguments int_of_str : simpl never.

Lemma lookup_total_fresh (h l : list _ParseResult) (j : nat) :
  (h ++ l)%list !!! (length h + j)%nat = l !!! j.
Proof.
  rewrite !list_lookup_total_alt, lookup_app_r by lia.
  by replace (length h + j - length h)%nat with j by lia.
Qed.

Lemma lookup_total_fresh0 (h l : list _ParseResult) :
  (h ++ l)%list !!! length h = l !!! 0%nat.
Proof. by rewrite <- (lookup_total_fresh h l 0), Nat.add_0_r. Qed.

Lemma lookup_total_old (h l : list _ParseResult) (r : nat) :
  (r < length h)%nat -> (h ++ l)%list !!! r = h !!! r.
Proof. intros Hr. by rewrite !list_lookup_total_alt, lookup_app_l. Qed.

Lemma heap_nil_r (h : list _ParseResult) vs t d :
  mkState h vs t d = mkState (h ++ []) vs t d.
Proof. by rewrite app_nil_r. Qed.

Ltac zconst a :=
  lazymatch a with
  | Z0 => idtac
  | Zpos ?p => lazymatch p with xH => idtac | xO _ => idtac | xI _ => idtac end
  | Zneg ?p => lazymatch p with xH => idtac | xO _ => idtac | xI _ => idtac end
  end.

Ltac exec_step :=
  first
    [ progress (unfold mbind, M_bind, bind, mret, M_ret, ret, raise,
                  add, sub, mul, div, neg,
                  operator2, operator1, floordiv, _add_flag, dice_count, dice_size,
                  dice_highest, dice_lowest, brackets, roll, roll_arg, assign_var,
                  to_public_result, roll_tail, dice_size_opt, dice_modifier_opt,
                  DiceRoller_roll, as_int, as_modifier, var,
                  number, new, deref, set_value, set_var, randint)
    | progress (cbn [parse_fuel start sum product dice atom sum_loop product_loop
                     starts_atom follows_atom
                     roll_args roll_dice flag_is
                     heap vars tape drawn value string_ flag fmt
                     get_actual_dice sum_list foldr map join replicate
                     length app fst snd Nat.add
                     String.eqb Ascii.eqb Bool.eqb])
    | rewrite length_app
    | rewrite <- app_assoc
    | rewrite <- Nat.add_assoc
    | rewrite lookup_total_fresh
    | rewrite insert_app_r
    | progress (cbn [insert list_insert])
    | rewrite lookup_insert_eq
    | match goal with
      | H : ?m !! ?k = _ |- context [?m !! ?k] => rewrite H
      end
    | progress (cbn [lookup_total list_lookup_total])
    | match goal with
      | |- context [int_of_str ?w] =>
          lazymatch w with
          | String _ _ =>
              let v := eval vm_compute in (int_of_str w) in
              change (int_of_str w) with v
          end
      | |- context [Z.opp ?a] => zconst a;
          let v := eval vm_compute in (Z.opp a) in change (Z.opp a) with v
      | |- context [Z.add ?a ?b] => zconst a; zconst b;
          let v := eval vm_compute in (Z.add a b) in change (Z.add a b) with v
      | |- context [Z.sub ?a ?b] => zconst a; zconst b;
          let v := eval vm_compute in (Z.sub a b) in change (Z.sub a b) with v
      | |- context [Z.mul ?a ?b] => zconst a; zconst b;
          let v := eval vm_compute in (Z.mul a b) in change (Z.mul a b) with v
      | |- context [Z.div ?a ?b] => zconst a; zconst b;
          let v := eval vm_compute in (Z.div a b) in change (Z.div a b) with v
      | |- context [Z.to_nat ?a] => zconst a;
          let v := eval vm_compute in (Z.to_nat a) in change (Z.to_nat a) with v
      | |- context [Z.eqb ?a ?b] => zconst a; zconst b;
          let v := eval vm_compute in (Z.eqb a b) in change (Z.eqb a b) with v
      | |- context [Z.ltb ?a ?b] => zconst a; zconst b;
          let v := eval vm_compute in (Z.ltb a b) in change (Z.ltb a b) with v
      | |- context [Z.leb ?a ?b] => zconst a; zconst b;
          let v := eval vm_compute in (Z.leb a b) in change (Z.leb a b) with v
      end ].

Ltac exec := repeat exec_step.

(** Replace [tokenize "..."] on a literal by its tokens. *)
Ltac lex_literal :=
  repeat match goal with
  | |- context [tokenize ?s] =>
      let ts := eval vm_compute in (tokenize s) in change (tokenize s) with ts
  end.

Ltac run_parse := unfold parse; lex_literal; exec.

(** *** Laws of the monad, at a state *)

Lemma bind_ext {A B} (m : M A) (k1 k2 : A -> M B) st :
  (forall a st', k1 a st' = k2 a st') -> (m ≫= k1) st = (m ≫= k2) st.
Proof.
  intros Hk. unfold mbind, M_bind, bind. destruct (m st) as [[a|e] st']; auto.
Qed.

Lemma bind_assoc {A B C} (m : M A) (f : A -> M B) (g : B -> M C) st :
  ((m ≫= f) ≫= g) st = (m ≫= fun a => f a ≫= g) st.
Proof.
  unfold mbind, M_bind, bind. by destruct (m st) as [[a|e] st'].
Qed.

Lemma bind_ret_l {A B} (a : A) (k : A -> M B) st : (mret a ≫= k) st = k a st.
Proof. reflexivity. Qed.

Lemma bind_run {A B} (m m' : M A) (k : A -> M B) st :
  m st = m' st -> (m ≫= k) st = (m' ≫= k) st.
Proof. intros H. unfold mbind, M_bind, bind. by rewrite H. Qed.

Lemma bind_raise {A B} (m : M A) (k : A -> M B) st e st' :
  m st = (Raise e, st') -> (m ≫= k) st = (Raise e, st').
Proof. intros H. unfold mbind, M_bind, bind. by rewrite H. Qed.

Lemma bind_Ok_inv {A B} (m : M A) (k : A -> M B) st b st' :
  (m ≫= k) st = (Ok b, st') ->
  exists a st1, m st = (Ok a, st1) /\ k a st1 = (Ok b, st').
Proof.
  unfold mbind, M_bind, bind. destruct (m st) as [[a|e] st1]; [eauto|done].
Qed.

Lemma bind_Ok {A B} (m : M A) (k : A -> M B) st a st1 :
  m st = (Ok a, st1) -> (m ≫= k) st = k a st1.
Proof. intros H. unfold mbind, M_bind, bind. by rewrite H. Qed.

(** ** Two actions in general *)

Lemma assign_var_binds st name r :
  exists st',
    let n := length (heap st) in
    assign_var name r st = (Ok (S n), st') /\
    vars st' !! name = Some n /\
    heap st' !!! n = mkResult (value (heap st !!! r)) (Some name) None /\
    heap st' !!! S n =
      mkResult (value (heap st !!! r))
               (Some (name +:+ " = " +:+ fmt (string_ (heap st !!! r)))) None /\
    var name st' = (Ok n, st').
Proof.
  destruct st as [h vs t d]. eexists. cbn zeta. cbn [heap].
  split; [|split; [|split; [|split]]].
  + exec. rewrite Nat.add_1_r. reflexivity.
  + cbn [vars]. apply lookup_insert_eq.
  + cbn [heap]. by rewrite lookup_total_fresh0.
  + cbn [heap]. rewrite <- Nat.add_1_r. by rewrite lookup_total_fresh.
  + exec. reflexivity.
Qed.

(** [to_public_result] only reads. *)
Lemma to_public_result_state r st p st' :
  to_public_result r st = (Ok p, st') ->
  st' = st /\ value (heap st !!! r) = VInt (pvalue p) /\
  string_ (heap st !!! r) = Some (pstring p).
Proof.
  unfold to_public_result, mbind, M_bind, bind, deref.
  destruct (value (heap st !!! r)) eqn:Ev; [|by inversion 1].
  destruct (string_ (heap st !!! r)) eqn:Es; [|by inversion 1].
  unfold mret, M_ret, ret. intros [= <- <-]. auto.
Qed.

(** ** Integer literals and their text *)

Lemma string_app_cons (a : ascii) (s1 s2 : string) :
  String a s1 +:+ s2 = String a (s1 +:+ s2).
Proof. reflexivity. Qed.

Lemma string_app_nil_l (s : string) : EmptyString +:+ s = s.
Proof. reflexivity. Qed.

Lemma string_app_assoc (s1 s2 s3 : string) :
  (s1 +:+ s2) +:+ s3 = s1 +:+ s2 +:+ s3.
Proof.
  induction s1 as [|a s1 IH]; [done|]. by rewrite !string_app_cons, IH.
Qed.

Lemma string_app_nil_r (s : string) : s +:+ EmptyString = s.
Proof. induction s as [|a s IH]; [done|]. by rewrite string_app_cons, IH. Qed.


Lemma digit_of_pretty_N_char (x : N) :
  (x < 10)%N ->
  is_digit (pretty_N_char x) = true /\
  digit_value (pretty_N_char x) = Z.of_N x.
Proof.
  intros Hx. destruct x as [|p]; [by vm_compute|].
  do 4 (try destruct p as [p|p|]); try (by vm_compute); lia.
Qed.

(** [pretty_N_go x s] puts digits in front of [s], at least one when [x] is
    positive, and reading them back from an accumulator of 0 gives [x]. *)
Lemma pretty_N_go_digits (x : N) (s : string) :
  exists w,
    pretty_N_go x s = w +:+ s /\
    all_digits w = true /\
    ((0 < x)%N -> w <> EmptyString) /\
    int_digits 0 w = Z.of_N x.
Proof.
  revert s. induction (N.lt_wf_0 x) as [x _ IH]. intros s.
  destruct (decide (x = 0)%N) as [->|Hx].
  - exists EmptyString. rewrite pretty_N_go_0. repeat split; try done; lia.
  - rewrite pretty_N_go_step by lia.
    destruct (IH (x `div` 10)%N) with (s := String (pretty_N_char (x `mod` 10)) s)
      as (w & Hw & Hdig & _ & Hint).
    { apply N.div_lt; lia. }
    destruct (digit_of_pretty_N_char (x `mod` 10)%N) as [Hd Hv].
    { apply N.mod_lt. lia. }
    exists (w +:+ String (pretty_N_char (x `mod` 10)) EmptyString).
    rewrite Hw, string_app_assoc. split; [done|]. split; [|split].
    + clear -Hdig Hd. induction w as [|a w IHw].
      * rewrite string_app_nil_l. cbn [all_digits]. by rewrite Hd.
      * rewrite string_app_cons. cbn [all_digits] in *.
        apply andb_true_iff in Hdig as [-> ?]. cbn [andb]. auto.
    + intros _. by destruct w.
    + assert (forall acc u a, int_digits acc (u +:+ String a EmptyString)
                              = 10 * int_digits acc u + digit_value a) as Hsnoc.
      { intros acc u. revert acc. induction u as [|b u IHu]; intros acc a.
        - done.
        - rewrite string_app_cons. cbn. apply IHu. }
      rewrite Hsnoc, Hint, Hv.
      rewrite (N.div_mod x 10) at 3 by done. lia.
Qed.

Lemma str_digits (n : Z) :
  0 <= n ->
  all_digits (str n) = true /\ str n <> EmptyString /\ int_of_str (str n) = n.
Proof.
  intros Hn. unfold str, pretty, pretty_Z, int_of_str.
  destruct n as [|p|p]; [by vm_compute| |lia].
  unfold pretty, pretty_positive, pretty, pretty_N.
  destruct (decide (N.pos p = 0)%N) as [?|_]; [done|].
  destruct (pretty_N_go_digits (N.pos p) EmptyString) as (w & Hw & Hdig & Hne & Hint).
  rewrite string_app_nil_r in Hw. rewrite Hw.
  split; [done|]. split; [apply Hne; lia|]. by rewrite Hint.
Qed.

Lemma int_of_str_str (n : Z) : 0 <= n -> int_of_str (str n) = n.
Proof. apply str_digits. Qed.

Lemma int_digits_nonneg (acc : Z) (w : string) :
  0 <= acc -> all_digits w = true -> 0 <= int_digits acc w.
Proof.
  revert acc. induction w as [|a w IH]; intros acc Hacc Hd; cbn in *.
  - done.
  - apply andb_true_iff in Hd as [Ha Hw]. apply IH; [|done].
    unfold digit_value, is_digit in *. cbn zeta in Ha.
    apply andb_true_iff in Ha as [Ha1 Ha2].
    apply Nat.leb_le in Ha1. lia.
Qed.

Lemma int_of_str_nonneg (w : string) : all_digits w = true -> 0 <= int_of_str w.
Proof. by apply int_digits_nonneg. Qed.

Lemma str_neg (k : Z) : k < 0 -> str k = "-" +:+ str (- k).
Proof. by destruct k. Qed.

(** *** Lexing a literal *)


Lemma is_digit_not_ws a : is_digit a = true -> is_ws a = false.
Proof.
  unfold is_digit, is_ws. cbn zeta. intros H.
  apply andb_true_iff in H as [H1 H2]. apply Nat.leb_le in H1.
  apply orb_false_iff. split; apply Nat.eqb_neq; lia.
Qed.

Lemma lex_digits_more (u w rest : string) :
  all_digits w = true ->
  lex_from (InNumber u) (w +:+ rest) = lex_from (InNumber (u +:+ w)) rest.
Proof.
  revert u. induction w as [|a w IH]; intros u Hd.
  - by rewrite string_app_nil_r.
  - rewrite string_app_cons. cbn in *.
    apply andb_true_iff in Hd as [Ha Hw]. rewrite Ha. cbn.
    rewrite IH by done. unfold snoc. by rewrite string_app_assoc.
Qed.

Lemma lex_number_end (u rest : string) :
  head_is_digit rest = false ->
  lex_from (InNumber u) rest = NUMBER u :: lex_from (Idle CtxAfter) rest.
Proof.
  destruct rest as [|a rest]; cbn; [done|]. intros ->.
  by destruct (step_idle CtxAfter a).
Qed.

Lemma lex_number (c : lexctx) (w rest : string) :
  w <> EmptyString -> all_digits w = true -> head_is_digit rest = false ->
  lex_from (Idle c) (w +:+ rest) = NUMBER w :: lex_from (Idle CtxAfter) rest.
Proof.
  destruct w as [|a w]; [done|]. intros _ Hd Hrest. cbn in Hd.
  apply andb_true_iff in Hd as [Ha Hw]. rewrite string_app_cons. cbn.
  unfold step_idle. rewrite (is_digit_not_ws a Ha), Ha. cbn.
  rewrite lex_digits_more by done. by apply lex_number_end.
Qed.

(** ** The fuel suffices

    [parse] gives [atom] and the two loops more fuel than there are tokens;
    every call consumes a token before it recurses, so the fuel never runs
    out and [OutOfFuel] is not a result of [parse]. *)

Lemma fueled_ret {A} (a : A) : fueled (mret a).
Proof. by intros st. Qed.

Lemma fueled_raise {A} (e : exn) : e <> OutOfFuel -> fueled (@raise A e).
Proof. intros He st. cbn. congruence. Qed.

Lemma fueled_bind {A B} (m : M A) (k : A -> M B) :
  fueled m -> (forall a, fueled (k a)) -> fueled (m ≫= k).
Proof.
  intros Hm Hk st. unfold mbind, M_bind, bind. specialize (Hm st).
  destruct (m st) as [[a|e] st1]; cbn [fst] in *; [apply Hk|].
  intros [= ->]. by apply Hm.
Qed.

Ltac fueled :=
  repeat first
    [ apply fueled_ret
    | apply fueled_raise; discriminate
    | apply fueled_bind; [|intros]
    | progress (unfold add, sub, mul, div, neg, operator1, operator2, floordiv,
                  number, _add_flag, dice_count, dice_size, dice_highest,
                  dice_lowest, brackets, assign_var, to_public_result,
                  as_int, as_modifier, roll, roll_arg, DiceRoller_roll)
    | match goal with
      | |- fueled (match ?x with _ => _ end) => destruct x
      | |- fueled (if ?b then _ else _) => destruct b
      | |- fueled (let '(_, _) := ?x in _) => destruct x
      | |- fueled (new _ _ _) => by intros st
      | |- fueled (deref _) => by intros st
      | |- fueled (set_value _ _) => by intros st
      | |- fueled (set_var _ _) => by intros st
      | |- fueled (randint _) => by intros st
      | |- fueled (var _) => intros st; unfold var; by case_match
      end ].

Lemma fueled_roll_args acc args : fueled (roll_args acc args).
Proof.
  revert acc. induction args as [|r args IH]; intros [[c s] m]; cbn [roll_args].
  - fueled.
  - fueled. apply IH.
Qed.

Lemma fueled_roll_dice n size : fueled (roll_dice n size).
Proof. induction n as [|n IH]; cbn [roll_dice]; fueled. apply IH. Qed.

Lemma fueled_roll args : fueled (roll args).
Proof.
  unfold roll. apply fueled_bind; [apply fueled_roll_args|]. intros [[c s] m].
  fueled. apply fueled_roll_dice.
Qed.

Lemma bounded_ret {A} (a : A) rest k :
  (length rest < k)%nat -> bounded (mret (a, rest)) k.
Proof. by intros H st. Qed.

Lemma bounded_raise {A} (e : exn) k :
  e <> OutOfFuel -> bounded (@raise (A * list token) e) k.
Proof. by intros H st. Qed.

Lemma bounded_bind {A B} (m : M (A * list token)) (f : A * list token -> M (B * list token)) k k' :
  bounded m k ->
  (forall a rest, (length rest < k)%nat -> bounded (f (a, rest)) k') ->
  bounded (m ≫= f) k'.
Proof.
  intros Hm Hf st. unfold mbind, M_bind, bind. specialize (Hm st).
  destruct (m st) as [[[a rest]|e] st1]; cbn [fst] in *; [by apply Hf|].
  intros ->. by apply Hm.
Qed.

Lemma bounded_action {A B} (m : M A) (f : A -> M (B * list token)) k :
  fueled m -> (forall a, bounded (f a) k) -> bounded (m ≫= f) k.
Proof.
  intros Hm Hf st. unfold mbind, M_bind, bind. specialize (Hm st).
  destruct (m st) as [[a|e] st1]; cbn [fst] in *; [apply Hf|].
  intros ->. by apply Hm.
Qed.

Lemma bounded_weaken {A} (m : M (A * list token)) k k' :
  bounded m k -> (k <= k')%nat -> bounded m k'.
Proof.
  intros Hm Hk st. specialize (Hm st).
  destruct (m st).1 as [[a rest]|e]; [lia|done].
Qed.

Section Fuel.
Variable atm : list token -> M (nat * list token).
Variable B : nat.
Hypothesis atm_bounded :
  forall ts, (length ts < B)%nat -> bounded (atm ts) (length ts).

Lemma dice_size_opt_bounded ts :
  (length ts < B)%nat -> bounded (dice_size_opt atm ts) (S (length ts)).
Proof.
  intros Hts. unfold dice_size_opt. destruct (starts_atom ts).
  - eapply bounded_bind; [by apply atm_bounded|]. intros a rest Hrest.
    apply bounded_action; [fueled|]. intros s. apply bounded_ret. lia.
  - apply bounded_ret. lia.
Qed.

Lemma dice_modifier_opt_bounded ts :
  (length ts < B)%nat -> bounded (dice_modifier_opt atm ts) (S (length ts)).
Proof.
  intros Hts. unfold dice_modifier_opt.
  destruct ts as [|t ts]; [apply bounded_ret; lia|]. cbn [length] in *.
  destruct t; try (apply bounded_ret; cbn [length]; lia).
  - eapply bounded_bind; [apply atm_bounded; lia|]. intros a rest Hrest.
    apply bounded_action; [fueled|]. intros s. apply bounded_ret. lia.
  - eapply bounded_bind; [apply atm_bounded; lia|]. intros a rest Hrest.
    apply bounded_action; [fueled|]. intros s. apply bounded_ret. lia.
Qed.

Lemma roll_tail_bounded count ts :
  (length ts < B)%nat -> bounded (roll_tail atm count ts) (S (length ts)).
Proof.
  intros Hts. unfold roll_tail.
  eapply bounded_bind; [by apply dice_size_opt_bounded|]. intros sz ts1 H1.
  eapply bounded_bind; [apply dice_modifier_opt_bounded; lia|]. intros md ts2 H2.
  apply bounded_action; [apply fueled_roll|]. intros r. apply bounded_ret. lia.
Qed.

Lemma dice_bounded ts :
  (length ts < B)%nat -> bounded (dice atm ts) (length ts).
Proof.
  intros Hts.
  assert (bounded ('(a, ts1) ← atm ts;
                   match ts1 with
                   | KW_D :: ts2 => c ← dice_count a; roll_tail atm [c] ts2
                   | _ => mret (a, ts1)
                   end) (length ts)) as Hatom.
  { eapply bounded_bind; [by apply atm_bounded|]. intros a ts1 H1.
    destruct ts1 as [|t ts1]; [by apply bounded_ret|]. cbn [length] in H1.
    destruct t; try by apply bounded_ret.
    apply bounded_action; [fueled|]. intros c.
    eapply bounded_weaken; [apply roll_tail_bounded; lia|lia]. }
  destruct ts as [|t ts]; [done|]. cbn [length] in *.
  destruct t; try done. cbn [dice]. apply roll_tail_bounded. lia.
Qed.

Lemma product_loop_bounded n acc ts :
  (length ts < n)%nat -> (length ts < B)%nat ->
  bounded (product_loop atm n acc ts) (S (length ts)).
Proof.
  revert acc ts. induction n as [|n IH]; intros acc ts Hn HB; [lia|].
  destruct ts as [|t ts]; [apply bounded_ret; lia|]. cbn [length] in *.
  destruct t; cbn [product_loop]; try (apply bounded_ret; cbn [length]; lia).
  - eapply bounded_bind; [apply dice_bounded; lia|]. intros d ts2 H2.
    apply bounded_action; [fueled|]. intros acc'.
    eapply bounded_weaken; [apply IH; lia|lia].
  - eapply bounded_bind; [apply dice_bounded; lia|]. intros d ts2 H2.
    apply bounded_action; [fueled|]. intros acc'.
    eapply bounded_weaken; [apply IH; lia|lia].
Qed.

Lemma product_bounded n ts :
  (length ts <= n)%nat -> (length ts < B)%nat ->
  bounded (product atm n ts) (length ts).
Proof.
  intros Hn HB. unfold product.
  eapply bounded_bind; [by apply dice_bounded|]. intros d ts1 H1.
  eapply bounded_weaken; [apply product_loop_bounded; lia|lia].
Qed.

Lemma sum_loop_bounded n0 n acc ts :
  (length ts <= n0)%nat -> (length ts < n)%nat -> (length ts < B)%nat ->
  bounded (sum_loop atm n0 n acc ts) (S (length ts)).
Proof.
  revert acc ts. induction n as [|n IH]; intros acc ts Hn0 Hn HB; [lia|].
  destruct ts as [|t ts]; [apply bounded_ret; lia|]. cbn [length] in *.
  destruct t; cbn [sum_loop]; try (apply bounded_ret; cbn [length]; lia).
  - eapply bounded_bind; [apply product_bounded; lia|]. intros p ts2 H2.
    apply bounded_action; [fueled|]. intros acc'.
    eapply bounded_weaken; [apply IH; lia|lia].
  - eapply bounded_bind; [apply product_bounded; lia|]. intros p ts2 H2.
    apply bounded_action; [fueled|]. intros acc'.
    eapply bounded_weaken; [apply IH; lia|lia].
Qed.

Lemma sum_bounded n ts :
  (length ts <= n)%nat -> (length ts < B)%nat ->
  bounded (sum atm n ts) (length ts).
Proof.
  intros Hn HB. unfold sum.
  eapply bounded_bind; [by apply product_bounded|]. intros p ts1 H1.
  eapply bounded_weaken; [apply sum_loop_bounded; lia|lia].
Qed.
End Fuel.

Lemma atom_S f ts :
  atom (S f) ts =
  match ts with
  | NUMBER w :: ts1 => r ← number w; mret (r, ts1)
  | MINUS :: ts1 => '(a, ts2) ← atom f ts1; r ← neg a; mret (r, ts2)
  | NAME x :: ts1 =>
      if follows_atom ts1 then r ← var x; mret (r, ts1)
      else raise SyntaxError
  | LPAR :: ts1 =>
      '(s, ts2) ← sum (atom f) f ts1;
      match ts2 with
      | RPAR :: ts3 => r ← brackets s; mret (r, ts3)
      | _ => raise SyntaxError
      end
  | _ => raise SyntaxError
  end.
Proof. reflexivity. Qed.

Lemma atom_bounded f ts :
  (length ts < f)%nat -> bounded (atom f ts) (length ts).
Proof.
  revert ts. induction f as [|f IH]; intros ts Hf; [lia|].
  rewrite atom_S.
  destruct ts as [|t ts]; [by apply bounded_raise|]. cbn [length] in *.
  destruct t; try by apply bounded_raise.
  - apply bounded_action; [fueled|]. intros r. apply bounded_ret. lia.
  - destruct (follows_atom ts); [|by apply bounded_raise].
    apply bounded_action; [fueled|]. intros r. apply bounded_ret. lia.
  - eapply bounded_bind; [apply IH; lia|]. intros a ts2 H2.
    apply bounded_action; [fueled|]. intros r. apply bounded_ret. lia.
  - eapply bounded_bind; [apply (sum_bounded (atom f) f IH); lia|].
    intros s ts2 H2.
    destruct ts2 as [|t ts2]; [by apply bounded_raise|]. cbn [length] in *.
    destruct t; try by apply bounded_raise.
    apply bounded_action; [fueled|]. intros r. apply bounded_ret. lia.
Qed.

Lemma start_fueled ts : fueled (start (parse_fuel ts) ts).
Proof.
  unfold parse_fuel.
  assert (forall ts', (length ts' <= length ts)%nat ->
            bounded (sum (atom (S (length ts))) (S (length ts)) ts') (length ts'))
    as Hsum.
  { intros ts' Hlen. apply (sum_bounded _ (S (length ts))); [|lia|lia].
    intros ts'' H''. by apply atom_bounded. }
  assert (forall (k : nat * list token -> M nat) ts',
            (length ts' <= length ts)%nat ->
            (forall x, fueled (k x)) ->
            fueled (sum (atom (S (length ts))) (S (length ts)) ts' ≫= k)) as Hk.
  { intros k ts' Hlen Hfk st. unfold mbind, M_bind, bind.
    specialize (Hsum ts' Hlen st).
    destruct (sum _ _ ts' st) as [[[x rest]|e] st1]; cbn [fst] in *;
      [apply Hfk|].
    intros [= ->]. by apply Hsum. }
  destruct ts as [|t ts]; cbn [start].
  { apply Hk; [done|]. intros [s rest]. destruct rest; fueled. }
  destruct t;
    try (apply Hk; [done|]; intros [s rest]; destruct rest; by fueled).
  destruct ts as [|t ts];
    [apply Hk; [done|]; intros [s rest]; destruct rest; by fueled|].
  destruct t;
    try (apply Hk; [done|]; intros [s rest]; destruct rest; by fueled).
  apply Hk; [cbn [length]; lia|]. intros [s rest]. destruct rest; fueled.
Qed.

(** [parse] is defined on every text and every state: it returns a result
    or raises one of Python's exceptions, never the model's [OutOfFuel]. *)
Lemma parse_fueled s : fueled (parse s).
Proof. unfold parse. apply fueled_bind; [apply start_fueled|]. intros r. fueled. Qed.

(** ** Pure arithmetic: from an expression to the parse of its text *)

(** *** The lexer on the text of an expression *)

Ltac lex_chars :=
  rewrite ?string_app_assoc, ?string_app_cons, ?string_app_nil_l;
  repeat (cbn [lex_from lex_step app];
          match goal with
          | |- context [step_idle ?c ?a] =>
              let v := eval vm_compute in (step_idle c a) in
              change (step_idle c a) with v
          end);
  cbn [lex_from lex_step app].

Lemma lex_arith :
  (forall a, wf_atom a -> forall c rest, head_is_digit rest = false ->
     lex_from (Idle c) (text_atom a +:+ rest)
     = (toks_atom a ++ lex_from (Idle CtxAfter) rest)%list) /\
  (forall p, wf_prod p -> forall c rest, head_is_digit rest = false ->
     lex_from (Idle c) (text_prod p +:+ rest)
     = (toks_prod p ++ lex_from (Idle CtxAfter) rest)%list) /\
  (forall s, wf_sum s -> forall c rest, head_is_digit rest = false ->
     lex_from (Idle c) (text_sum s +:+ rest)
     = (toks_sum s ++ lex_from (Idle CtxAfter) rest)%list).
Proof.
  apply arith_mutind; cbn [text_atom text_prod text_sum toks_atom toks_prod
                           toks_sum wf_atom wf_prod wf_sum].
  - intros n Hn c rest Hrest. destruct (str_digits n Hn) as (Hd & Hne & _).
    by rewrite lex_number.
  - intros a IH Ha c rest Hrest. destruct c; lex_chars; by rewrite IH.
  - intros s IH Hs c rest Hrest. destruct c; lex_chars;
      rewrite IH by done; lex_chars; by rewrite <- app_assoc.
  - auto.
  - intros p IHp a IHa [Hp Ha] c rest Hrest. rewrite !string_app_assoc.
    rewrite IHp by done. lex_chars. rewrite IHa by done. by rewrite <- app_assoc.
  - intros p IHp a IHa [Hp Ha] c rest Hrest. rewrite !string_app_assoc.
    rewrite IHp by done. lex_chars. rewrite IHa by done. by rewrite <- app_assoc.
  - auto.
  - intros s IHs p IHp [Hs Hp] c rest Hrest. rewrite !string_app_assoc.
    rewrite IHs by done. lex_chars. rewrite IHp by done. by rewrite <- app_assoc.
  - intros s IHs p IHp [Hs Hp] c rest Hrest. rewrite !string_app_assoc.
    rewrite IHs by done. lex_chars. rewrite IHp by done. by rewrite <- app_assoc.
Qed.

Lemma tokenize_text_sum (s : sumE) :
  wf_sum s -> tokenize (text_sum s) = toks_sum s.
Proof.
  intros Hs. unfold tokenize. rewrite <- (string_app_nil_r (text_sum s)).
  rewrite (proj2 (proj2 lex_arith)) by done. cbn. by rewrite app_nil_r.
Qed.

(** *** The parser on the tokens of an expression *)

Lemma ops_prod_lt p : (ops_prod p < length (toks_prod p))%nat.
Proof.
  induction p as [a|p IH a|p IH a]; cbn [ops_prod toks_prod].
  - destruct a; cbn; lia.
  - rewrite length_app. cbn. lia.
  - rewrite length_app. cbn. lia.
Qed.

Lemma ops_sum_lt s : (ops_sum s < length (toks_sum s))%nat.
Proof.
  induction s as [p|s IH p|s IH p]; cbn [ops_sum toks_sum].
  - pose proof (ops_prod_lt p). lia.
  - rewrite length_app. cbn. lia.
  - rewrite length_app. cbn. lia.
Qed.

Lemma product_loop_end atm n x rest st :
  ends_product rest = true -> (0 < n)%nat ->
  product_loop atm n x rest st = (Ok (x, rest), st).
Proof.
  intros Hrest Hn. destruct n as [|n]; [lia|].
  by destruct rest as [|[] rest].
Qed.

Lemma dice_atom atm a rest st :
  not_kw_d rest = true ->
  (forall st, atm (toks_atom a ++ rest)%list st
              = (x ← exec_atom a; mret (x, rest)) st) ->
  dice atm (toks_atom a ++ rest)%list st = (x ← exec_atom a; mret (x, rest)) st.
Proof.
  intros Hrest Hatm.
  assert (dice atm (toks_atom a ++ rest)%list
          = ('(x, ts1) ← atm (toks_atom a ++ rest)%list;
             match ts1 with
             | KW_D :: ts2 => c ← dice_count x; roll_tail atm [c] ts2
             | _ => mret (x, ts1)
             end)) as ->.
  { by destruct a. }
  rewrite (bind_run _ _ _ _ (Hatm st)), bind_assoc.
  apply bind_ext. intros x st'. rewrite bind_ret_l.
  by destruct rest as [|[] rest].
Qed.

Lemma parse_arith :
  (forall a f rest st,
     (length (toks_atom a) <= f)%nat ->
     atom f (toks_atom a ++ rest)%list st
     = (x ← exec_atom a; mret (x, rest)) st) /\
  (forall p f n rest st,
     (length (toks_prod p) <= f)%nat -> (ops_prod p <= n)%nat ->
     not_kw_d rest = true ->
     product (atom f) n (toks_prod p ++ rest)%list st
     = (x ← exec_prod p; product_loop (atom f) (n - ops_prod p) x rest) st) /\
  (forall s f n rest st,
     (length (toks_sum s) <= f)%nat -> (length (toks_sum s) <= n)%nat ->
     ends_product rest = true ->
     sum (atom f) n (toks_sum s ++ rest)%list st
     = (x ← exec_sum s; sum_loop (atom f) n (n - ops_sum s) x rest) st).
Proof.
  apply arith_mutind.
  - (* number *)
    intros n f rest st Hf. cbn in Hf. destruct f as [|f]; [lia|]. reflexivity.
  - (* negation *)
    intros a IH f rest st Hf. cbn [toks_atom length] in Hf.
    destruct f as [|f]; [lia|]. cbn [toks_atom exec_atom app atom].
    rewrite (bind_run _ _ _ _ (IH f rest st ltac:(lia))).
    rewrite !bind_assoc. apply bind_ext. intros x st'. by rewrite bind_ret_l.
  - (* brackets *)
    intros s IH f rest st Hf. cbn [toks_atom length] in Hf.
    rewrite length_app in Hf. cbn [length] in Hf.
    destruct f as [|f]; [lia|]. cbn [toks_atom exec_atom app atom].
    rewrite <- app_assoc. cbn [app].
    rewrite (bind_run _ _ _ _ (IH f f (RPAR :: rest) st ltac:(lia) ltac:(lia) eq_refl)).
    rewrite !bind_assoc. apply bind_ext. intros x st'.
    pose proof (ops_sum_lt s).
    destruct (f - ops_sum s)%nat as [|k] eqn:Ek; [lia|]. reflexivity.
  - (* atom as product *)
    intros a IH f n rest st Hf Hn Hrest. cbn [toks_prod exec_prod ops_prod] in *.
    unfold product. rewrite Nat.sub_0_r.
    rewrite (bind_run _ _ _ _ (dice_atom _ a rest st Hrest (fun st => IH f rest st Hf))).
    rewrite bind_assoc. apply bind_ext. intros x st'. by rewrite bind_ret_l.
  - (* multiplication *)
    intros p IHp a IHa f n rest st Hf Hn Hrest.
    cbn [toks_prod exec_prod ops_prod] in *. rewrite length_app in Hf. cbn [length] in Hf.
    rewrite <- app_assoc. cbn [app].
    rewrite IHp by (done || lia). rewrite !bind_assoc. apply bind_ext. intros x st'.
    destruct (n - ops_prod p)%nat as [|k] eqn:Ek; [lia|].
    replace (n - S (ops_prod p))%nat with k by lia. cbn [product_loop].
    rewrite (bind_run _ _ _ _ (dice_atom _ a rest st' Hrest
               (fun st => IHa f rest st ltac:(lia)))).
    rewrite !bind_assoc. apply bind_ext. intros y st''. by rewrite bind_ret_l.
  - (* division *)
    intros p IHp a IHa f n rest st Hf Hn Hrest.
    cbn [toks_prod exec_prod ops_prod] in *. rewrite length_app in Hf. cbn [length] in Hf.
    rewrite <- app_assoc. cbn [app].
    rewrite IHp by (done || lia). rewrite !bind_assoc. apply bind_ext. intros x st'.
    destruct (n - ops_prod p)%nat as [|k] eqn:Ek; [lia|].
    replace (n - S (ops_prod p))%nat with k by lia. cbn [product_loop].
    rewrite (bind_run _ _ _ _ (dice_atom _ a rest st' Hrest
               (fun st => IHa f rest st ltac:(lia)))).
    rewrite !bind_assoc. apply bind_ext. intros y st''. by rewrite bind_ret_l.
  - (* product as sum *)
    intros p IH f n rest st Hf Hn Hrest. cbn [toks_sum exec_sum ops_sum] in *.
    unfold sum. rewrite Nat.sub_0_r.
    assert (not_kw_d rest = true) as Hd by (by destruct rest as [|[] rest]).
    pose proof (ops_prod_lt p).
    rewrite (bind_run _ _ _ _ (IH f n rest st Hf ltac:(lia) Hd)).
    rewrite bind_assoc. apply bind_ext. intros x st'.
    unfold mbind at 1, M_bind, bind.
    by rewrite product_loop_end by (done || lia).
  - (* addition *)
    intros s IHs p IHp f n rest st Hf Hn Hrest.
    cbn [toks_sum exec_sum ops_sum] in *. rewrite length_app in Hf, Hn.
    cbn [length] in Hf, Hn.
    rewrite <- app_assoc. cbn [app].
    rewrite IHs by (done || lia). rewrite !bind_assoc. apply bind_ext. intros x st'.
    pose proof (ops_sum_lt s). pose proof (ops_prod_lt p).
    destruct (n - ops_sum s)%nat as [|k] eqn:Ek; [lia|].
    replace (n - S (ops_sum s))%nat with k by lia. cbn [sum_loop].
    assert (not_kw_d rest = true) as Hd by (by destruct rest as [|[] rest]).
    rewrite (bind_run _ _ _ _ (IHp f n rest st' ltac:(lia) ltac:(lia) Hd)).
    rewrite !bind_assoc. apply bind_ext. intros y st''.
    unfold mbind at 1, M_bind, bind.
    by rewrite product_loop_end by (done || lia).
  - (* subtraction *)
    intros s IHs p IHp f n rest st Hf Hn Hrest.
    cbn [toks_sum exec_sum ops_sum] in *. rewrite length_app in Hf, Hn.
    cbn [length] in Hf, Hn.
    rewrite <- app_assoc. cbn [app].
    rewrite IHs by (done || lia). rewrite !bind_assoc. apply bind_ext. intros x st'.
    pose proof (ops_sum_lt s). pose proof (ops_prod_lt p).
    destruct (n - ops_sum s)%nat as [|k] eqn:Ek; [lia|].
    replace (n - S (ops_sum s))%nat with k by lia. cbn [sum_loop].
    assert (not_kw_d rest = true) as Hd by (by destruct rest as [|[] rest]).
    rewrite (bind_run _ _ _ _ (IHp f n rest st' ltac:(lia) ltac:(lia) Hd)).
    rewrite !bind_assoc. apply bind_ext. intros y st''.
    unfold mbind at 1, M_bind, bind.
    by rewrite product_loop_end by (done || lia).
Qed.

(** *** What the actions of an expression leave in the store *)

Lemma yields_number st n : 0 <= n -> yields (number (str n)) st n (str n).
Proof.
  intros Hn. destruct st as [h vs t d]. unfold yields. cbn [heap vars tape drawn].
  exists (length h), [mkResult (VInt n) (Some (str n)) None].
  split; [|split].
  - unfold number, new. cbn [heap vars tape drawn]. by rewrite int_of_str_str.
  - rewrite length_app. cbn [length]. lia.
  - by rewrite lookup_total_fresh0.
Qed.

Lemma yields_operator1 m st v t f tpl :
  yields m st v t ->
  yields (x ← m; operator1 (fun n => mret (f n)) tpl x) st (f v) (tpl t).
Proof.
  destruct st as [h vs tp d]. unfold yields. cbn [heap vars tape drawn].
  intros (x & l & Hrun & Hx & Hnode).
  exists (length (h ++ l)%list), (l ++ [mkResult (VInt (f v)) (Some (tpl t)) None])%list.
  split; [|split].
  - unfold mbind, M_bind, bind at 1. rewrite Hrun.
    unfold operator1, mbind, M_bind, bind, deref, mret, M_ret, ret, new.
    cbn [heap vars tape drawn]. rewrite Hnode. cbn [value string_ fmt].
    by rewrite app_assoc.
  - rewrite !length_app. cbn [length]. lia.
  - by rewrite app_assoc, lookup_total_fresh0.
Qed.

Lemma yields_brackets m st v t :
  yields m st v t ->
  yields (x ← m; brackets x) st v ("(" +:+ t +:+ ")").
Proof.
  destruct st as [h vs tp d]. unfold yields. cbn [heap vars tape drawn].
  intros (x & l & Hrun & Hx & Hnode).
  exists (length (h ++ l)%list),
    (l ++ [mkResult (VInt v) (Some ("(" +:+ t +:+ ")")) None])%list.
  split; [|split].
  - unfold mbind, M_bind, bind at 1. rewrite Hrun.
    unfold brackets, mbind, M_bind, bind, deref, new.
    cbn [heap vars tape drawn]. rewrite Hnode. cbn [value string_ fmt].
    by rewrite app_assoc.
  - rewrite !length_app. cbn [length]. lia.
  - by rewrite app_assoc, lookup_total_fresh0.
Qed.

Lemma yields_operator2 m1 m2 st v1 t1 v2 t2 (call : Z -> Z -> M Z) tpl :
  yields m1 st v1 t1 ->
  (forall st', yields m2 st' v2 t2) ->
  match call v1 v2 st with
  | (Ok v, _) =>
      (forall st', call v1 v2 st' = (Ok v, st')) ->
      yields (x ← m1; y ← m2; operator2 call tpl x y) st v (tpl t1 t2)
  | (Raise e, _) =>
      (forall st', call v1 v2 st' = (Raise e, st')) ->
      exists st', (x ← m1; y ← m2; operator2 call tpl x y) st = (Raise e, st')
  end.
Proof.
  destruct st as [h vs tp d]. unfold yields at 1. cbn [heap vars tape drawn].
  intros (x & l1 & Hrun1 & Hx & Hnode1) H2.
  destruct (H2 (mkState (h ++ l1) vs tp d)) as (y & l2 & Hrun2 & Hy & Hnode2).
  cbn [heap vars tape drawn] in *.
  assert (((h ++ l1) ++ l2)%list !!! x = mkResult (VInt v1) (Some t1) None) as Hnode1'
    by (by rewrite lookup_total_old).
  assert (forall k : nat, (x ← m1; y ← m2; operator2 call tpl x y)
                      (mkState h vs tp d)
                    = (v ← call v1 v2;
                       new (VInt v) (Some (tpl t1 t2)) None)
                        (mkState ((h ++ l1) ++ l2) vs tp d)) as Hrun.
  { intros _. unfold mbind at 1, M_bind, bind at 1. rewrite Hrun1.
    unfold mbind at 1, M_bind, bind at 1. rewrite Hrun2.
    unfold operator2. unfold mbind at 1 2, M_bind, bind at 1 2, deref.
    cbn [heap]. by rewrite Hnode1', Hnode2. }
  specialize (Hrun 0%nat).
  destruct (call v1 v2 (mkState h vs tp d)) as [[v|e] st0] eqn:Hcall; intros Hcall';
    [unfold yields; cbn [heap vars tape drawn]|]; rewrite Hrun.
  - exists (length ((h ++ l1) ++ l2)%list),
      (l1 ++ l2 ++ [mkResult (VInt v) (Some (tpl t1 t2)) None])%list.
    split; [|split].
    + unfold mbind, M_bind, bind. rewrite Hcall'. unfold new.
      cbn [heap vars tape drawn]. by rewrite <- !app_assoc.
    + rewrite !length_app. cbn [length]. lia.
    + by rewrite !app_assoc, lookup_total_fresh0.
  - eexists. unfold mbind, M_bind, bind. by rewrite Hcall'.
Qed.

Arguments yields : simpl never.

Lemma yields_operator2_ok m1 m2 st v1 t1 v2 t2 (call : Z -> Z -> M Z) tpl v :
  yields m1 st v1 t1 ->
  (forall st', yields m2 st' v2 t2) ->
  (forall st', call v1 v2 st' = (Ok v, st')) ->
  yields (x ← m1; y ← m2; operator2 call tpl x y) st v (tpl t1 t2).
Proof.
  intros H1 H2 Hcall.
  pose proof (yields_operator2 _ _ _ _ _ _ _ call tpl H1 H2) as H.
  rewrite Hcall in H. by apply H.
Qed.

Lemma yields_operator2_raise m1 m2 st v1 t1 v2 t2 (call : Z -> Z -> M Z) tpl e :
  yields m1 st v1 t1 ->
  (forall st', yields m2 st' v2 t2) ->
  (forall st', call v1 v2 st' = (Raise e, st')) ->
  exists st', (x ← m1; y ← m2; operator2 call tpl x y) st = (Raise e, st').
Proof.
  intros H1 H2 Hcall.
  pose proof (yields_operator2 _ _ _ _ _ _ _ call tpl H1 H2) as H.
  rewrite Hcall in H. by apply H.
Qed.

Lemma bind_raise_2 (m1 m2 : M nat) (k : nat -> nat -> M nat) st v t e :
  yields m1 st v t ->
  (forall st1, exists st', m2 st1 = (Raise e, st')) ->
  exists st', (x ← m1; y ← m2; k x y) st = (Raise e, st').
Proof.
  intros (x & l & Hrun & _) H2.
  destruct (H2 (mkState (heap st ++ l) (vars st) (tape st) (drawn st))) as [st' H'].
  exists st'. unfold mbind at 1, M_bind, bind at 1. rewrite Hrun.
  by apply bind_raise.
Qed.

Lemma exec_arith :
  (forall a, wf_atom a -> forall st,
     match val_atom a with
     | Some v => yields (exec_atom a) st v (text_atom a)
     | None => exists st', exec_atom a st = (Raise ZeroDivisionError, st')
     end) /\
  (forall p, wf_prod p -> forall st,
     match val_prod p with
     | Some v => yields (exec_prod p) st v (text_prod p)
     | None => exists st', exec_prod p st = (Raise ZeroDivisionError, st')
     end) /\
  (forall s, wf_sum s -> forall st,
     match val_sum s with
     | Some v => yields (exec_sum s) st v (text_sum s)
     | None => exists st', exec_sum s st = (Raise ZeroDivisionError, st')
     end).
Proof.
  apply arith_mutind;
    cbn [wf_atom wf_prod wf_sum val_atom val_prod val_sum
         exec_atom exec_prod exec_sum text_atom text_prod text_sum].
  - intros n Hn st. by apply yields_number.
  - intros a IH Ha st. specialize (IH Ha st).
    destruct (val_atom a) as [v|]; cbn.
    + apply (yields_operator1 _ _ _ _ Z.opp (fun a => "-" +:+ a) IH).
    + destruct IH as [st' H]. exists st'. by apply bind_raise.
  - intros s IH Hs st. specialize (IH Hs st).
    destruct (val_sum s) as [v|].
    + by apply yields_brackets.
    + destruct IH as [st' H]. exists st'. by apply bind_raise.
  - auto.
  - intros p IHp a IHa [Hp Ha] st. specialize (IHp Hp st). specialize (IHa Ha).
    destruct (val_prod p) as [x|]; cbn.
    + destruct (val_atom a) as [y|]; cbn.
      * by apply (yields_operator2_ok _ _ _ _ _ _ _ (fun m n => mret (m * n))
                    (fun a b => a +:+ " * " +:+ b) _ IHp IHa).
      * by apply (bind_raise_2 _ _ _ _ _ _ _ IHp IHa).
    + destruct IHp as [st' H]. exists st'. by apply bind_raise.
  - intros p IHp a IHa [Hp Ha] st. specialize (IHp Hp st). specialize (IHa Ha).
    destruct (val_prod p) as [x|]; cbn.
    + destruct (val_atom a) as [y|]; cbn.
      * destruct (y =? 0) eqn:Ey.
        -- apply (yields_operator2_raise _ _ _ _ _ _ _ floordiv
                    (fun a b => a +:+ " / " +:+ b) _ IHp IHa).
           intros st'. unfold floordiv. by rewrite Ey.
        -- apply (yields_operator2_ok _ _ _ _ _ _ _ floordiv
                    (fun a b => a +:+ " / " +:+ b) _ IHp IHa).
           intros st'. unfold floordiv. by rewrite Ey.
      * by apply (bind_raise_2 _ _ _ _ _ _ _ IHp IHa).
    + destruct IHp as [st' H]. exists st'. by apply bind_raise.
  - auto.
  - intros s IHs p IHp [Hs Hp] st. specialize (IHs Hs st). specialize (IHp Hp).
    destruct (val_sum s) as [x|]; cbn.
    + destruct (val_prod p) as [y|]; cbn.
      * by apply (yields_operator2_ok _ _ _ _ _ _ _ (fun m n => mret (m + n))
                    (fun a b => a +:+ " + " +:+ b) _ IHs IHp).
      * by apply (bind_raise_2 _ _ _ _ _ _ _ IHs IHp).
    + destruct IHs as [st' H]. exists st'. by apply bind_raise.
  - intros s IHs p IHp [Hs Hp] st. specialize (IHs Hs st). specialize (IHp Hp).
    destruct (val_sum s) as [x|]; cbn.
    + destruct (val_prod p) as [y|]; cbn.
      * by apply (yields_operator2_ok _ _ _ _ _ _ _ (fun m n => mret (m - n))
                    (fun a b => a +:+ " - " +:+ b) _ IHs IHp).
      * by apply (bind_raise_2 _ _ _ _ _ _ _ IHs IHp).
    + destruct IHs as [st' H]. exists st'. by apply bind_raise.
Qed.

(** *** Parsing the text of an expression *)

Lemma pure_tokens_cons t ts :
  pure_tokens (t :: ts) -> arith_token t = true /\ number_ok t /\ pure_tokens ts.
Proof. intros H. apply Forall_cons in H as [[? ?] ?]. auto. Qed.

Lemma toks_pure :
  (forall a, wf_atom a -> pure_tokens (toks_atom a)) /\
  (forall p, wf_prod p -> pure_tokens (toks_prod p)) /\
  (forall s, wf_sum s -> pure_tokens (toks_sum s)).
Proof.
  unfold pure_tokens.
  apply arith_mutind; cbn [wf_atom wf_prod wf_sum toks_atom toks_prod toks_sum].
  - intros n Hn. constructor; [|constructor].
    split; [done|]. cbn [number_ok]. by apply str_digits.
  - intros a IH Ha. constructor; [by split|auto].
  - intros s IH Hs. constructor; [by split|]. apply Forall_app. split; [auto|].
    constructor; [by split|constructor].
  - auto.
  - intros p IHp a IHa [Hp Ha]. apply Forall_app. split; [auto|]. constructor; [by split|auto].
  - intros p IHp a IHa [Hp Ha]. apply Forall_app. split; [auto|]. constructor; [by split|auto].
  - auto.
  - intros s IHs p IHp [Hs Hp]. apply Forall_app. split; [auto|]. constructor; [by split|auto].
  - intros s IHs p IHp [Hs Hp]. apply Forall_app. split; [auto|]. constructor; [by split|auto].
Qed.

Lemma start_pure f ts st :
  pure_tokens ts ->
  start f ts st
  = ('(s, rest) ← sum (atom f) f ts;
     match rest with
     | [] => mret s
     | _ => raise SyntaxError
     end) st.
Proof.
  intros Hts. destruct ts as [|t ts]; [done|].
  apply pure_tokens_cons in Hts as (Ht & _). by destruct t.
Qed.

Lemma parse_text_sum (e : sumE) (v : Z) (st : state) :
  wf_sum e -> val_sum e = Some v ->
  exists st', parse (text_sum e) st = (Ok (mkPublic v (text_sum e)), st').
Proof.
  intros Hwf Hval. unfold parse. rewrite tokenize_text_sum by done.
  pose proof (proj2 (proj2 exec_arith) e Hwf st) as Hex. rewrite Hval in Hex.
  destruct Hex as (x & l & Hrun & Hx & Hnode).
  eexists.
  rewrite (bind_run _ _ _ _ (start_pure _ _ st (proj2 (proj2 toks_pure) e Hwf))).
  unfold parse_fuel. set (f := S (length (toks_sum e))).
  assert (sum (atom f) f (toks_sum e) st
          = (x ← exec_sum e; sum_loop (atom f) f (f - ops_sum e) x []) st) as Hsum.
  { rewrite <- (app_nil_r (toks_sum e)) at 1.
    apply (proj2 (proj2 parse_arith)); (done || lia). }
  rewrite bind_assoc, (bind_run _ _ _ _ Hsum), bind_assoc.
  rewrite (bind_Ok _ _ _ _ _ Hrun).
  pose proof (ops_sum_lt e).
  destruct (f - ops_sum e)%nat as [|k] eqn:Ek; [lia|].
  cbn [sum_loop]. rewrite !bind_ret_l.
  unfold to_public_result, mbind, M_bind, bind, deref. cbn [heap].
  rewrite Hnode. reflexivity.
Qed.

Lemma lit_spec (a : Z) :
  wf_atom (lit a) /\ val_atom (lit a) = Some a /\ text_atom (lit a) = str a.
Proof.
  unfold lit. destruct (Z.ltb_spec a 0) as [Ha|Ha];
    cbn [wf_atom val_atom text_atom].
  - rewrite (str_neg a) by done. cbn [mbind option_bind].
    rewrite Z.opp_involutive. split; [lia|done].
  - done.
Qed.

(** ** The lifetime of the variable environment (C1) *)

(** Against C1 as stated: on one [DiceParser], "x" is unbound before
    "x = 5" is parsed and evaluates to 5 in the parse call after it, where
    a call with an environment of its own would raise [KeyError]. *)
Lemma C1_counterexample :
  exists st1,
    parse "x = 5" (DiceParser_init (fun _ => 0))
      = (Ok (mkPublic 5 "x = 5"), st1) /\
    fst (parse "x" (DiceParser_init (fun _ => 0))) = Raise (KeyError "x") /\
    fst (parse "x" st1) = Ok (mkPublic 5 "x") /\
    fst (parse "x" (mkState (heap st1) ∅ (tape st1) (drawn st1)))
      = Raise (KeyError "x").
Proof. eexists. split; [|split; [|split]]; reflexivity. Qed.

(** An assignment that returns binds its name: the state it leaves binds
    [name] to a node that holds the value of the result and [name] as text,
    and a reference to the name then yields that value.  The amended claim
    is proved from this after the invariant, see
    [C1_environment_per_parser]. *)
Lemma assignment_binds st s name ts p st1 :
  tokenize s = NAME name :: EQUAL :: ts ->
  parse s st = (Ok p, st1) ->
  exists b,
    vars st1 !! name = Some b /\
    heap st1 !!! b = mkResult (VInt (pvalue p)) (Some name) None /\
    forall fuel,
      (r ← start (S fuel) [NAME name]; to_public_result r) st1
      = (Ok (mkPublic (pvalue p) name), st1).
Proof.
  intros Hlex. unfold parse. rewrite Hlex.
  set (n := parse_fuel _). cbn [start].
  unfold mbind at 1 2, M_bind, bind at 1 2.
  destruct (sum (atom n) n ts st) as [[[r rest]|e] st0] eqn:Hsum; [|by inversion 1].
  destruct rest as [|tk rest]; [|by inversion 1].
  destruct (assign_var_binds st0 name r) as (st' & Hrun & Hvar & Hb & Hret & Hv).
  cbn zeta in *. rewrite Hrun. intros Hpub.
  apply to_public_result_state in Hpub as (-> & Hval & Hstr).
  rewrite Hret in Hval. cbn [value] in Hval.
  exists (length (heap st0)). split; [done|]. split.
  - rewrite Hb. by rewrite Hval.
  - intros fuel. cbn [start sum product dice atom follows_atom].
    destruct st' as [h' vs' t' d']. cbn [vars heap] in *.
    exec. rewrite Hb. exec. by rewrite Hval.
Qed.

(** ** Floor division (C2) *)

(** C2. Division is Python's floor division, rounding toward minus
    infinity: on every parser state, parsing "7 / 2" yields 3 and parsing
    "-7 / 2" yields -4.  For all integers a and b with b nonzero, parsing
    "a / b" (the decimal texts of a and b) yields the quotient q, which is
    the integer with [b*q <= a < b*(q+1)] for positive b and with
    [b*(q+1) < a <= b*q] for negative b; and the [div] action on any two
    nodes holding a and b makes a node holding q. *)
Theorem C2_floor_division :
  (forall st, fst (parse "7 / 2" st) = Ok (mkPublic 3 "7 / 2")) /\
  (forall st, fst (parse "-7 / 2" st) = Ok (mkPublic (-4) "-7 / 2")) /\
  (forall st a b,
      b <> 0 ->
      exists q st',
        parse (str a +:+ " / " +:+ str b) st
          = (Ok (mkPublic q (str a +:+ " / " +:+ str b)), st') /\
        (0 < b -> b * q <= a < b * (q + 1)) /\
        (b < 0 -> b * (q + 1) < a <= b * q)) /\
  (forall st x y a b,
      value (heap st !!! x) = VInt a ->
      value (heap st !!! y) = VInt b ->
      b <> 0 ->
      exists st',
        div x y st = (Ok (length (heap st)), st') /\
        value (heap st' !!! length (heap st)) = VInt (a / b)).
Proof.
  assert (forall a b, b <> 0 ->
            (0 < b -> b * (a / b) <= a < b * (a / b + 1)) /\
            (b < 0 -> b * (a / b + 1) < a <= b * (a / b))) as Hfloor.
  { intros a b Hb. split.
    - intros Hpos. pose proof (Z.mul_div_le a b Hpos).
      pose proof (Z.mul_succ_div_gt a b Hpos). lia.
    - intros Hneg. pose proof (Z.div_mod a b Hb).
      pose proof (Z.mod_neg_bound a b Hneg). lia. }
  split; [|split; [|split]].
  - intros [h vs t d]. rewrite heap_nil_r. run_parse. vm_compute. reflexivity.
  - intros [h vs t d]. rewrite heap_nil_r. run_parse. vm_compute. reflexivity.
  - intros st a b Hb.
    destruct (lit_spec a) as (Hwa & Hva & Hta).
    destruct (lit_spec b) as (Hwb & Hvb & Htb).
    destruct (parse_text_sum (SProd (PDiv (PAtom (lit a)) (lit b))) (a / b) st)
      as [st' Hrun].
    { by cbn [wf_sum wf_prod]. }
    { cbn [val_sum val_prod]. rewrite Hva, Hvb. cbn.
      by destruct (Z.eqb_spec b 0). }
    cbn [text_sum text_prod] in Hrun. rewrite Hta, Htb in Hrun.
    exists (a / b), st'. split; [done|]. by apply Hfloor.
  - intros [h vs t d] x y a b Hx Hy Hb. cbn [heap] in *.
    eexists. split.
    + exec. rewrite Hx, Hy. exec.
      destruct (Z.eqb_spec b 0) as [?|_]; [done|]. reflexivity.
    + cbn [heap]. rewrite lookup_total_fresh0. reflexivity.
Qed.

(** The general part of C2 at a = 7 and b = -2, on a new parser: the
    quotient is -4. *)
Lemma C2_floor_division_witness :
  exists q st',
    parse (str 7 +:+ " / " +:+ str (-2)) (DiceParser_init (fun _ => 0))
      = (Ok (mkPublic q (str 7 +:+ " / " +:+ str (-2))), st') /\
    (0 < -2 -> -2 * q <= 7 < -2 * (q + 1)) /\
    (-2 < 0 -> -2 * (q + 1) < 7 <= -2 * q).
Proof.
  apply (proj1 (proj2 (proj2 C2_floor_division))
           (DiceParser_init (fun _ => 0)) 7 (-2)).
  lia.
Defined.

(** ** Unbound variables (C3) *)

(** C3. A reference to an identifier that is not bound fails: for every
    name, [var] raises [KeyError] (the spec's UnboundVariableError) on a
    state in which the name is unbound; and on every parser state in which
    "y" is unbound, parsing "y + 1" raises it, produces no value and leaves
    the state as it was; no zero is substituted. *)
Theorem C3_unbound_variable :
  (forall st name,
      vars st !! name = None ->
      var name st = (Raise (KeyError name), st)) /\
  (forall st,
      vars st !! "y" = None ->
      parse "y + 1" st = (Raise (KeyError "y"), st)).
Proof.
  split.
  - intros [h vs t d] name Hy. cbn [vars] in Hy. exec. reflexivity.
  - intros [h vs t d] Hy. cbn [vars] in Hy. run_parse. reflexivity.
Qed.

(** C3 on a new parser. *)
Lemma C3_unbound_variable_witness :
  var "y" (DiceParser_init (fun _ => 0))
    = (Raise (KeyError "y"), DiceParser_init (fun _ => 0)) /\
  parse "y + 1" (DiceParser_init (fun _ => 0))
    = (Raise (KeyError "y"), DiceParser_init (fun _ => 0)).
Proof.
  split.
  - apply (proj1 C3_unbound_variable (DiceParser_init (fun _ => 0)) "y").
    reflexivity.
  - apply (proj2 C3_unbound_variable (DiceParser_init (fun _ => 0))).
    reflexivity.
Defined.

(** ** Assignment and variable reference (C4) *)

(** C4. On every parser state, parsing "x = 5" yields value 5 and text
    "x = 5", and parsing "x + 1" on the state it leaves yields value 6.
    [assign_var] binds the name to a new node that holds the child's value
    and the name as text, returns a node with the child's value and the text
    "name = <child text>", and [var] then returns the stored node itself. *)
Theorem C4_variable_round_trip :
  (forall st, exists st1 st2,
      parse "x = 5" st = (Ok (mkPublic 5 "x = 5"), st1) /\
      parse "x + 1" st1 = (Ok (mkPublic 6 "x + 1"), st2)) /\
  (forall st name r, exists st',
      let n := length (heap st) in
      assign_var name r st = (Ok (S n), st') /\
      vars st' !! name = Some n /\
      heap st' !!! n = mkResult (value (heap st !!! r)) (Some name) None /\
      heap st' !!! S n =
        mkResult (value (heap st !!! r))
                 (Some (name +:+ " = " +:+ fmt (string_ (heap st !!! r)))) None /\
      var name st' = (Ok n, st')).
Proof.
  split.
  - intros [h vs t d]. rewrite heap_nil_r. do 2 eexists. split.
    + run_parse. reflexivity.
    + run_parse. reflexivity.
  - apply assign_var_binds.
Qed.

(** ** Rolling (C5) *)

Lemma roll_dice_run (n : nat) (size : Z) h vs t d :
  roll_dice n size (mkState h vs t d)
  = (Ok (rolled (mkState h vs t d) n size), mkState h vs t (d + n)).
Proof.
  unfold rolled. cbn [tape drawn]. revert d.
  induction n as [|n IH]; intros d.
  - cbn. unfold mret, M_ret, ret. by rewrite Nat.add_0_r.
  - cbn [roll_dice]. unfold mbind, M_bind, bind, randint. cbn [tape drawn heap vars].
    rewrite IH. unfold mret, M_ret, ret. cbn [seq map].
    rewrite <- seq_shift, map_map, Nat.add_0_r.
    replace (S d + n)%nat with (d + S n)%nat by lia.
    do 3 f_equal. apply map_ext. intros i. by rewrite Nat.add_succ_comm.
Qed.

Lemma rolled_length st n size : length (rolled st n size) = n.
Proof. unfold rolled. by rewrite length_map, length_seq. Qed.

Lemma rolled_bounds st n size :
  1 <= size -> Forall (fun x => 1 <= x <= size) (rolled st n size).
Proof.
  intros Hs. unfold rolled. apply Forall_map, Forall_forall. intros i _. cbn.
  pose proof (Z.mod_pos_bound (tape st (drawn st + i)%nat) size). lia.
Qed.

Lemma tokenize_NdM (N M : Z) :
  0 <= N -> 0 <= M ->
  tokenize (str N +:+ "d" +:+ str M) = [NUMBER (str N); KW_D; NUMBER (str M)].
Proof.
  intros HN HM. unfold tokenize.
  destruct (str_digits N HN) as (HdN & HneN & _).
  destruct (str_digits M HM) as (HdM & HneM & _).
  rewrite lex_number by (done || reflexivity). f_equal.
  rewrite string_app_cons, string_app_nil_l. cbn [lex_from lex_step].
  change (step_idle CtxAfter "d"%char) with ([KW_D], Idle CtxSize).
  cbn [app]. f_equal.
  rewrite <- (string_app_nil_r (str M)) at 1.
  by rewrite lex_number by (done || reflexivity).
Qed.

(** C5. For N >= 0 and M >= 1, on every parser state, parsing "NdM" (the
    decimal texts of N and M around "d") succeeds; the outcome list shown in
    the text has exactly N entries, each between 1 and M, all of them are
    kept, and the value is their sum. *)
Theorem C5_dice_roll_bounds :
  forall st N M,
    0 <= N -> 1 <= M ->
    exists ds st',
      parse (str N +:+ "d" +:+ str M) st
      = (Ok (mkPublic (sum_list ds) ("[" +:+ join ", " (map str ds) +:+ "]")),
         st') /\
      len ds = N /\
      Forall (fun x => 1 <= x <= M) ds /\
      get_actual_dice NullDiceModifier ds = (ds, []).
Proof.
  intros [h vs t d] N M HN HM.
  exists (rolled (mkState h vs t d) (Z.to_nat N) M). eexists.
  split; [|split; [|split]].
  - rewrite heap_nil_r. unfold parse. rewrite tokenize_NdM by lia. exec.
    rewrite !int_of_str_str by lia.
    destruct (Z.ltb_spec M 1) as [?|_]; [lia|]. exec.
    destruct (Z.leb_spec 1 M) as [_|?]; [|lia].
    rewrite roll_dice_run. exec. rewrite <- heap_nil_r. reflexivity.
  - unfold len. rewrite rolled_length. lia.
  - by apply rolled_bounds.
  - reflexivity.
Qed.

(** C5 at "3d6" on a new parser. *)
Lemma C5_dice_roll_bounds_witness :
  exists ds st',
    parse (str 3 +:+ "d" +:+ str 6) (DiceParser_init (fun i => Z.of_nat i))
    = (Ok (mkPublic (sum_list ds) ("[" +:+ join ", " (map str ds) +:+ "]")),
       st') /\
    len ds = 3 /\
    Forall (fun x => 1 <= x <= 6) ds /\
    get_actual_dice NullDiceModifier ds = (ds, []).
Proof.
  apply (C5_dice_roll_bounds (DiceParser_init (fun i => Z.of_nat i)) 3 6); lia.
Defined.

(** ** Keep modifiers (C6) *)

Lemma sorted_StronglySorted (dice : list Z) : StronglySorted Z.le (sorted dice).
Proof. apply StronglySorted_merge_sort; apply _. Qed.

Lemma sorted_Permutation (dice : list Z) : sorted dice ≡ₚ dice.
Proof. apply merge_sort_Permutation. Qed.

Lemma len_sorted (dice : list Z) : len (sorted dice) = len dice.
Proof. unfold len. by rewrite sorted_Permutation. Qed.

Lemma slice_index_in_range {A} (i : Z) (l : list A) :
  0 <= i <= len l -> slice_index i l = Z.to_nat i.
Proof.
  intros Hi. unfold slice_index.
  destruct (Z.ltb_spec i 0); [lia|]. f_equal. lia.
Qed.

Lemma _safe_count_range (c : Z) (dice : list Z) :
  0 <= _safe_count c dice <= len dice.
Proof. unfold _safe_count, len. lia. Qed.

Lemma get_actual_dice_highest (c : Z) (dice : list Z) :
  keeps_highest (_safe_count c dice) dice (get_actual_dice (HighestDiceModifier c) dice).
Proof.
  unfold keeps_highest. cbn [get_actual_dice fst snd].
  pose proof (_safe_count_range c dice) as Hc.
  set (k := _safe_count c dice) in *. rewrite len_sorted.
  unfold slice_from, slice_to.
  rewrite slice_index_in_range by (rewrite len_sorted; lia).
  set (i := Z.to_nat (len dice - k)).
  split; [|split].
  - rewrite (comm app), take_drop. apply sorted_Permutation.
  - unfold len. rewrite length_drop.
    assert (length (sorted dice) = length dice) as ->
      by (by rewrite sorted_Permutation).
    unfold len in *. lia.
  - intros x y Hx Hy.
    pose proof (sorted_StronglySorted dice) as Hs.
    rewrite <- (take_drop i (sorted dice)) in Hs.
    by apply (StronglySorted_app_1_elem_of _ _ _ y x) in Hs.
Qed.

Lemma get_actual_dice_lowest (c : Z) (dice : list Z) :
  keeps_lowest (_safe_count c dice) dice (get_actual_dice (LowestDiceModifier c) dice).
Proof.
  unfold keeps_lowest. cbn [get_actual_dice fst snd].
  pose proof (_safe_count_range c dice) as Hc.
  set (k := _safe_count c dice) in *.
  unfold slice_from, slice_to.
  rewrite slice_index_in_range by (rewrite len_sorted; lia).
  split; [|split].
  - rewrite take_drop. apply sorted_Permutation.
  - unfold len. rewrite length_take.
    assert (length (sorted dice) = length dice) as ->
      by (by rewrite sorted_Permutation).
    unfold len in *. lia.
  - intros x y Hx Hy.
    pose proof (sorted_StronglySorted dice) as Hs.
    rewrite <- (take_drop (Z.to_nat k) (sorted dice)) in Hs.
    by apply (StronglySorted_app_1_elem_of _ _ _ x y) in Hs.
Qed.

(** "NdM" followed by more text. *)
Lemma lex_NdM (N M : Z) (rest : string) :
  0 <= N -> 0 <= M -> head_is_digit rest = false ->
  tokenize (str N +:+ "d" +:+ str M +:+ rest)
  = NUMBER (str N) :: KW_D :: NUMBER (str M) :: lex_from (Idle CtxAfter) rest.
Proof.
  intros HN HM Hrest. unfold tokenize.
  destruct (str_digits N HN) as (HdN & HneN & _).
  destruct (str_digits M HM) as (HdM & HneM & _).
  rewrite lex_number by (done || reflexivity). f_equal.
  rewrite string_app_cons, string_app_nil_l. cbn [lex_from lex_step].
  change (step_idle CtxAfter "d"%char) with ([KW_D], Idle CtxSize).
  cbn [app]. f_equal. by rewrite lex_number.
Qed.

Lemma lex_keep (a : ascii) (t : token) (k : Z) :
  step_idle CtxAfter a = ([t], Idle CtxAtom) ->
  lex_from (Idle CtxAfter) (String a (String " " (str k))) = t :: int_tokens k.
Proof.
  intros Ha. unfold int_tokens.
  cbn [lex_from lex_step]. rewrite Ha. cbn [lex_from lex_step].
  change (step_idle CtxAtom " "%char) with (@nil token, Idle CtxAtom).
  cbn [app]. f_equal.
  destruct (Z.ltb_spec k 0) as [Hk|Hk].
  - rewrite str_neg by done.
    destruct (str_digits (- k)) as (Hd & Hne & _); [lia|].
    rewrite string_app_cons, string_app_nil_l. cbn [lex_from lex_step].
    change (step_idle CtxAtom "-"%char) with ([MINUS], Idle CtxAtom).
    cbn [app]. f_equal.
    rewrite <- (string_app_nil_r (str (- k))) at 1.
    by rewrite lex_number by (done || reflexivity).
  - destruct (str_digits k Hk) as (Hd & Hne & _).
    rewrite <- (string_app_nil_r (str k)) at 1.
    by rewrite lex_number by (done || reflexivity).
Qed.

Lemma parse_NdM_keep (st : state) (N M k : Z) (t : token) (rest : string) :
  0 <= N -> 1 <= M ->
  head_is_digit rest = false ->
  lex_from (Idle CtxAfter) rest = t :: int_tokens k ->
  forall m,
    (t = KW_H /\ m = HighestDiceModifier k) \/
    (t = KW_L /\ m = LowestDiceModifier k) ->
    exists st',
      let ds := rolled st (Z.to_nat N) M in
      parse (str N +:+ "d" +:+ str M +:+ rest) st
      = (Ok (mkPublic (sum_list (get_actual_dice m ds).1)
                      ("[" +:+ join ", " (map str ds) +:+ "]")), st').
Proof.
  intros HN HM Hhead Hrest m Hm. destruct st as [h vs tp d]. cbn zeta.
  rewrite heap_nil_r. unfold parse. rewrite lex_NdM, Hrest by (done || lia).
  unfold int_tokens.
  destruct (Z.ltb_spec k 0) as [Hk|Hk]; destruct Hm as [[-> ->]|[-> ->]]; eexists;
    exec; rewrite !int_of_str_str by lia;
    (destruct (Z.ltb_spec M 1) as [?|_]; [lia|]); exec;
    (destruct (Z.leb_spec 1 M) as [_|?]; [|lia]);
    rewrite roll_dice_run; exec; rewrite !int_of_str_str by lia;
    rewrite ?Z.opp_involutive; unfold rolled; cbn [tape drawn]; reflexivity.
Qed.

(** *** The kept outcomes have the extreme sum

    Among all ways to pick [k] of the outcomes, the selection of
    [keeps_highest] has the largest sum and that of [keeps_lowest] the
    smallest. *)

Lemma sum_list_app (l1 l2 : list Z) :
  sum_list (l1 ++ l2) = sum_list l1 + sum_list l2.
Proof. unfold sum_list. induction l1 as [|x l1 IH]; cbn [app foldr] in *; lia. Qed.

Lemma sum_list_Permutation (l1 l2 : list Z) :
  l1 ≡ₚ l2 -> sum_list l1 = sum_list l2.
Proof. unfold sum_list. induction 1; cbn [foldr] in *; lia. Qed.

Lemma sum_list_shift (t : Z) (l : list Z) :
  sum_list (map (fun x => x - t) l) = sum_list l - len l * t.
Proof.
  unfold len, sum_list. induction l as [|x l IH]; cbn [map foldr length] in *; lia.
Qed.

Lemma sum_list_map_le (f g : Z -> Z) (l : list Z) :
  (forall x, x ∈ l -> f x <= g x) ->
  sum_list (map f l) <= sum_list (map g l).
Proof.
  unfold sum_list.
  induction l as [|x l IH]; intros Hfg; cbn [map foldr] in *; [lia|].
  pose proof (Hfg x (list_elem_of_here x l)).
  assert (forall y, y ∈ l -> f y <= g y) as Hl
    by (intros y Hy; apply Hfg; by apply list_elem_of_further).
  specialize (IH Hl). lia.
Qed.

Lemma sum_list_map_submseteq (g : Z -> Z) (l1 l2 : list Z) :
  (forall x, 0 <= g x) -> l1 ⊆+ l2 ->
  sum_list (map g l1) <= sum_list (map g l2).
Proof.
  intros Hg. unfold sum_list.
  induction 1 as [|x l1 l2 _ IH|x y l|x l1 l2 _ IH|l1 l2 l3 _ IH1 _ IH2];
    cbn [map foldr] in *; try lia.
  pose proof (Hg x). lia.
Qed.

Lemma list_min_elem (l : list Z) :
  l <> [] -> exists t, t ∈ l /\ forall x, x ∈ l -> t <= x.
Proof.
  induction l as [|a l IH]; [done|]. intros _.
  destruct l as [|b l].
  - exists a. split; [apply list_elem_of_here|].
    intros x Hx. apply list_elem_of_singleton in Hx. lia.
  - destruct IH as (t & Ht & Hmin); [done|].
    exists (Z.min a t). split.
    + destruct (Z.min_spec a t) as [[_ ->]|[_ ->]];
        [apply list_elem_of_here | by apply list_elem_of_further].
    + intros x Hx. apply elem_of_cons in Hx as [->|Hx]; [lia|].
      specialize (Hmin x Hx). lia.
Qed.

Lemma keeps_highest_max (k : Z) (dice : list Z) (sel : list Z * list Z) (sub : list Z) :
  keeps_highest k dice sel ->
  sub ⊆+ dice -> len sub = k ->
  sum_list sub <= sum_list sel.1.
Proof.
  destruct sel as [kept dropped]. unfold keeps_highest. cbn [fst snd].
  intros (Hperm & Hlen & Hord) Hsub Hk.
  destruct (decide (kept = [])) as [->|Hne].
  { unfold len in *. cbn in Hlen. destruct sub; cbn in *; lia. }
  destruct (list_min_elem kept Hne) as (t & Ht & Hmin).
  set (g := fun x => Z.max (x - t) 0).
  assert (sum_list (map (fun x => x - t) sub) <= sum_list (map g sub)) as H1.
  { apply sum_list_map_le. intros x _. unfold g. lia. }
  assert (sum_list (map g sub) <= sum_list (map g dice)) as H2.
  { apply sum_list_map_submseteq; [|done]. intros x. unfold g. lia. }
  assert (sum_list (map g dice) = sum_list (map (fun x => x - t) kept)) as H3.
  { rewrite <- (sum_list_Permutation _ _ (Permutation_map g Hperm)).
    rewrite map_app, sum_list_app.
    assert (sum_list (map g dropped) = 0) as ->.
    { assert (forall y, y ∈ dropped -> y <= t) as Hd by (intros y Hy; by apply Hord).
      clear -Hd. unfold sum_list.
      induction dropped as [|y l IH]; [done|]. cbn [map foldr].
      pose proof (Hd y (list_elem_of_here y l)).
      rewrite IH by (intros z Hz; apply Hd; by apply list_elem_of_further).
      unfold g. lia. }
    rewrite Z.add_0_r.
    assert (forall x, x ∈ kept -> g x = x - t) as Hk'
      by (intros x Hx; specialize (Hmin x Hx); unfold g; lia).
    clear -Hk'. unfold sum_list.
    induction kept as [|x l IH]; [done|]. cbn [map foldr].
    rewrite (Hk' x (list_elem_of_here x l)).
    by rewrite IH by (intros z Hz; apply Hk'; by apply list_elem_of_further). }
  rewrite !sum_list_shift in *. nia.
Qed.

Lemma keeps_lowest_min (k : Z) (dice : list Z) (sel : list Z * list Z) (sub : list Z) :
  keeps_lowest k dice sel ->
  sub ⊆+ dice -> len sub = k ->
  sum_list sel.1 <= sum_list sub.
Proof.
  destruct sel as [kept dropped]. unfold keeps_lowest. cbn [fst snd].
  intros (Hperm & Hlen & Hord) Hsub Hk.
  assert (forall l, sum_list (map Z.opp l) = - sum_list l) as Hopp.
  { unfold sum_list. induction l as [|x l IH]; cbn [map foldr] in *; lia. }
  assert (forall l : list Z, len (map Z.opp l) = len l) as Hlenopp.
  { intros l. unfold len. by rewrite length_map. }
  pose proof (keeps_highest_max k (map Z.opp dice)
                (map Z.opp kept, map Z.opp dropped) (map Z.opp sub)) as Hmax.
  cbn [fst snd] in Hmax. rewrite !Hopp in Hmax.
  assert (- sum_list sub <= - sum_list kept); [|lia].
  apply Hmax.
  - unfold keeps_highest. cbn [fst snd]. split; [|split].
    + rewrite <- map_app. by apply Permutation_map.
    + by rewrite Hlenopp.
    + intros x y Hx Hy.
      apply (list_elem_of_fmap Z.opp) in Hx as (x' & -> & Hx').
      apply (list_elem_of_fmap Z.opp) in Hy as (y' & -> & Hy').
      specialize (Hord x' y' Hx' Hy'). lia.
  - by apply (fmap_submseteq Z.opp).
  - by rewrite Hlenopp.
Qed.

(** C6. The keep-highest modifier splits any roll into its k largest
    outcomes and the rest, the keep-lowest modifier into its k smallest and
    the rest, with k the count clamped to [0, number of outcomes]; no choice
    of k outcomes has a larger sum than the ones kept by keep-highest, or a
    smaller sum than the ones kept by keep-lowest; the keep-all modifier
    keeps the roll and drops nothing.  For N >= 0, M >= 1
    and k >= 0, on every parser state, parsing "NdMH k" yields the sum of
    what keep-highest k keeps of the N outcomes rolled, and "NdML k" the sum
    of what keep-lowest k keeps. *)
Theorem C6_keep_modifiers :
  (forall k dice,
      keeps_highest (Z.max 0 (Z.min k (len dice))) dice
        (get_actual_dice (HighestDiceModifier k) dice)) /\
  (forall k dice,
      keeps_lowest (Z.max 0 (Z.min k (len dice))) dice
        (get_actual_dice (LowestDiceModifier k) dice)) /\
  (forall k dice sub,
      sub ⊆+ dice -> len sub = Z.max 0 (Z.min k (len dice)) ->
      sum_list sub <= sum_list (get_actual_dice (HighestDiceModifier k) dice).1 /\
      sum_list (get_actual_dice (LowestDiceModifier k) dice).1 <= sum_list sub) /\
  (forall dice, get_actual_dice NullDiceModifier dice = (dice, [])) /\
  (forall st N M k,
      0 <= N -> 1 <= M ->
      exists ds st1 st2,
        len ds = N /\
        parse (str N +:+ "d" +:+ str M +:+ "H " +:+ str k) st
        = (Ok (mkPublic (sum_list (get_actual_dice (HighestDiceModifier k) ds).1)
                        ("[" +:+ join ", " (map str ds) +:+ "]")), st1) /\
        parse (str N +:+ "d" +:+ str M +:+ "L " +:+ str k) st
        = (Ok (mkPublic (sum_list (get_actual_dice (LowestDiceModifier k) ds).1)
                        ("[" +:+ join ", " (map str ds) +:+ "]")), st2)).
Proof.
  split; [|split; [|split; [|split]]].
  - intros k dice. apply get_actual_dice_highest.
  - intros k dice. apply get_actual_dice_lowest.
  - intros k dice sub Hsub Hlen. split.
    + by apply (keeps_highest_max _ dice _ sub (get_actual_dice_highest k dice)).
    + by apply (keeps_lowest_min _ dice _ sub (get_actual_dice_lowest k dice)).
  - reflexivity.
  - intros st N M k HN HM.
    destruct (parse_NdM_keep st N M k KW_H ("H " +:+ str k) HN HM eq_refl)
      with (m := HighestDiceModifier k) as [st1 H1]; [by apply lex_keep|auto|].
    destruct (parse_NdM_keep st N M k KW_L ("L " +:+ str k) HN HM eq_refl)
      with (m := LowestDiceModifier k) as [st2 H2]; [by apply lex_keep|auto|].
    exists (rolled st (Z.to_nat N) M), st1, st2. split; [|done].
    unfold len. rewrite rolled_length. lia.
Qed.

(** C6 at "4d6H 3" and "4d6L 3" on a new parser. *)
Lemma C6_keep_modifiers_witness :
  exists ds st1 st2,
    len ds = 4 /\
    parse (str 4 +:+ "d" +:+ str 6 +:+ "H " +:+ str 3)
      (DiceParser_init (fun i => Z.of_nat i))
    = (Ok (mkPublic (sum_list (get_actual_dice (HighestDiceModifier 3) ds).1)
                    ("[" +:+ join ", " (map str ds) +:+ "]")), st1) /\
    parse (str 4 +:+ "d" +:+ str 6 +:+ "L " +:+ str 3)
      (DiceParser_init (fun i => Z.of_nat i))
    = (Ok (mkPublic (sum_list (get_actual_dice (LowestDiceModifier 3) ds).1)
                    ("[" +:+ join ", " (map str ds) +:+ "]")), st2).
Proof.
  apply (proj2 (proj2 (proj2 (proj2 C6_keep_modifiers)))
           (DiceParser_init (fun i => Z.of_nat i)) 4 6 3); lia.
Defined.

(** ** The size clamp (C7) *)

(** C7. [dice_size] clamps: applied to a node whose value is below 1 it
    returns a size node of value 0; the roller called with size 0 returns
    only zeros and draws nothing; and on every parser state parsing "3d0"
    yields value 0 with the outcome list of three zeros, as does "2d-3"
    with two zeros. *)
Theorem C7_size_clamp :
  (forall st r n,
      (r < length (heap st))%nat ->
      value (heap st !!! r) = VInt n ->
      n < 1 ->
      exists st',
        dice_size r st = (Ok (length (heap st)), st') /\
        value (heap st' !!! length (heap st)) = VInt 0 /\
        flag (heap st' !!! length (heap st)) = Some "dice_size") /\
  (forall st count m, exists total,
      DiceRoller_roll count 0 m st
        = (Ok (total, replicate (Z.to_nat count) 0), st)) /\
  (forall st, exists st',
      parse "3d0" st = (Ok (mkPublic 0 "[0, 0, 0]"), st') /\
      drawn st' = drawn st) /\
  (forall st, exists st',
      parse "2d-3" st = (Ok (mkPublic 0 "[0, 0]"), st') /\
      drawn st' = drawn st).
Proof.
  split; [|split; [|split]].
  - intros [h vs t d] r n Hr Hv Hn. cbn [heap] in *. eexists.
    split; [|split].
    + exec. rewrite Hv. exec.
      destruct (Z.ltb_spec n 1) as [_|?]; [|lia]. exec.
      rewrite length_insert. reflexivity.
    + cbn [heap]. rewrite <- (length_insert h r
        (mkResult (VInt 0) (string_ (h !!! r)) (flag (h !!! r)))).
      rewrite lookup_total_fresh0. cbn [lookup_total list_lookup_total value].
      rewrite list_lookup_total_insert_eq by done. reflexivity.
    + cbn [heap]. rewrite <- (length_insert h r
        (mkResult (VInt 0) (string_ (h !!! r)) (flag (h !!! r)))).
      rewrite lookup_total_fresh0. reflexivity.
  - intros st count m. unfold DiceRoller_roll.
    destruct (get_actual_dice m (replicate (Z.to_nat count) 0)) as [kept dropped] eqn:E.
    exists (sum_list kept). exec. rewrite E. reflexivity.
  - intros [h vs t d]. rewrite heap_nil_r. eexists. split.
    + run_parse. reflexivity.
    + reflexivity.
  - intros [h vs t d]. rewrite heap_nil_r. eexists. split.
    + run_parse. reflexivity.
    + reflexivity.
Qed.

(** C7's clamp on the node of the literal -3. *)
Lemma C7_size_clamp_witness :
  exists st',
    dice_size 0%nat (mkState [mkResult (VInt (-3)) (Some "-3") None] ∅ (fun _ => 0) 0)
      = (Ok 1%nat, st') /\
    value (heap st' !!! 1%nat) = VInt 0 /\
    flag (heap st' !!! 1%nat) = Some "dice_size".
Proof.
  apply (proj1 C7_size_clamp
           (mkState [mkResult (VInt (-3)) (Some "-3") None] ∅ (fun _ => 0) 0)
           0%nat (-3)); [cbn; lia | reflexivity | lia].
Defined.

(** ** Defaults of the roll production (C8) *)

Lemma roll_args_keeps acc args st c s m st' :
  roll_args acc args st = (Ok (c, s, m), st') ->
  st' = st /\
  (no_role st args "dice_count" -> c = acc.1.1) /\
  (no_role st args "dice_size" -> s = acc.1.2) /\
  (no_role st args "dice_modifier" -> m = acc.2).
Proof.
  revert acc. induction args as [|r args IH]; intros [[c0 s0] m0] Hrun.
  - cbn in Hrun. unfold mret, M_ret, ret in Hrun. by simplify_eq.
  - cbn [roll_args] in Hrun.
    unfold mbind, M_bind, bind, deref, roll_arg in Hrun.
    unfold mbind, M_bind, bind, mret, M_ret, ret in Hrun.
    set (x := heap st !!! r) in *.
    destruct (flag_is x "dice_count") eqn:Ec, (flag_is x "dice_size") eqn:Es,
      (flag_is x "dice_modifier") eqn:Em, (value x) eqn:Ev;
      cbn in Hrun; try done;
    apply IH in Hrun as (-> & Hc & Hs & Hm); cbn [fst snd] in *;
    (split; [done|]);
    (split; [|split]); intros Hno; apply Forall_cons in Hno as [Hr Hno];
    fold x in Hr; try congruence; auto.
Qed.

(** The claim is proved with the lexer lemmas for names, see
    [C8_roll_defaults]. *)

(** ** Pure arithmetic re-parses to itself (C9) *)

(** *** Every successful parse of pure tokens runs the actions of an
    expression *)

Section Sound.
Variable atm : list token -> M (nat * list token).
Variable n0 : nat.
Hypothesis atm_sound :
  forall ts st x rest st',
    pure_tokens ts -> atm ts st = (Ok (x, rest), st') ->
    exists a, wf_atom a /\ exec_atom a st = (Ok x, st') /\ pure_tokens rest.

Lemma dice_sound ts st x rest st' :
  pure_tokens ts -> dice atm ts st = (Ok (x, rest), st') ->
  exists a, wf_atom a /\ exec_atom a st = (Ok x, st') /\ pure_tokens rest.
Proof.
  intros Hts Hrun.
  assert (dice atm ts st
          = ('(x, ts1) ← atm ts;
             match ts1 with
             | KW_D :: ts2 => c ← dice_count x; roll_tail atm [c] ts2
             | _ => mret (x, ts1)
             end) st) as Hdice.
  { destruct ts as [|t ts]; [done|].
    apply pure_tokens_cons in Hts as (Ht & _). by destruct t. }
  rewrite Hdice in Hrun.
  apply bind_Ok_inv in Hrun as ([y ts1] & st1 & Hatm & Hk).
  destruct (atm_sound _ _ _ _ _ Hts Hatm) as (a & Hwf & Hexec & Hpure).
  assert (y = x /\ ts1 = rest /\ st1 = st') as (-> & -> & ->).
  { destruct ts1 as [|t ts1]; [by inversion Hk|].
    apply pure_tokens_cons in Hpure as (Ht & _).
    destruct t; try done; by inversion Hk. }
  eauto.
Qed.

Lemma product_loop_sound n acc ts st0 st1 p x rest st' :
  wf_prod p -> exec_prod p st0 = (Ok acc, st1) -> pure_tokens ts ->
  product_loop atm n acc ts st1 = (Ok (x, rest), st') ->
  exists p', wf_prod p' /\ exec_prod p' st0 = (Ok x, st') /\ pure_tokens rest.
Proof.
  revert acc ts st1 p. induction n as [|n IH]; intros acc ts st1 p Hwf Hp Hts Hrun.
  { done. }
  destruct ts as [|t ts]; [inversion Hrun; subst; eauto|].
  pose proof Hts as Hts'. apply pure_tokens_cons in Hts' as (Ht & _ & Hpure).
  destruct t; try done; cbn [product_loop] in Hrun;
    try (inversion Hrun; subst; by eauto).
  - apply bind_Ok_inv in Hrun as ([d ts2] & st2 & Hdice & Hk).
    apply bind_Ok_inv in Hk as (acc' & st3 & Hmul & Hloop).
    destruct (dice_sound _ _ _ _ _ Hpure Hdice) as (a & Hwfa & Ha & Hpure2).
    apply (IH acc' ts2 st3 (PMul p a)); [done| |done|done].
    cbn [exec_prod]. rewrite (bind_Ok _ _ _ _ _ Hp), (bind_Ok _ _ _ _ _ Ha). done.
  - apply bind_Ok_inv in Hrun as ([d ts2] & st2 & Hdice & Hk).
    apply bind_Ok_inv in Hk as (acc' & st3 & Hmul & Hloop).
    destruct (dice_sound _ _ _ _ _ Hpure Hdice) as (a & Hwfa & Ha & Hpure2).
    apply (IH acc' ts2 st3 (PDiv p a)); [done| |done|done].
    cbn [exec_prod]. rewrite (bind_Ok _ _ _ _ _ Hp), (bind_Ok _ _ _ _ _ Ha). done.
Qed.

Lemma product_sound ts st x rest st' :
  pure_tokens ts -> product atm n0 ts st = (Ok (x, rest), st') ->
  exists p, wf_prod p /\ exec_prod p st = (Ok x, st') /\ pure_tokens rest.
Proof.
  intros Hts Hrun. unfold product in Hrun.
  apply bind_Ok_inv in Hrun as ([d ts1] & st1 & Hdice & Hloop).
  destruct (dice_sound _ _ _ _ _ Hts Hdice) as (a & Hwf & Ha & Hpure).
  by apply (product_loop_sound n0 d ts1 st st1 (PAtom a)).
Qed.

Lemma sum_loop_sound n acc ts st0 st1 s x rest st' :
  wf_sum s -> exec_sum s st0 = (Ok acc, st1) -> pure_tokens ts ->
  sum_loop atm n0 n acc ts st1 = (Ok (x, rest), st') ->
  exists s', wf_sum s' /\ exec_sum s' st0 = (Ok x, st') /\ pure_tokens rest.
Proof.
  revert acc ts st1 s. induction n as [|n IH]; intros acc ts st1 s Hwf Hs Hts Hrun.
  { done. }
  destruct ts as [|t ts]; [inversion Hrun; subst; eauto|].
  pose proof Hts as Hts'. apply pure_tokens_cons in Hts' as (Ht & _ & Hpure).
  destruct t; try done; cbn [sum_loop] in Hrun;
    try (inversion Hrun; subst; by eauto).
  - apply bind_Ok_inv in Hrun as ([d ts2] & st2 & Hprod & Hk).
    apply bind_Ok_inv in Hk as (acc' & st3 & Hadd & Hloop).
    destruct (product_sound _ _ _ _ _ Hpure Hprod) as (p & Hwfp & Hp & Hpure2).
    apply (IH acc' ts2 st3 (SAdd s p)); [done| |done|done].
    cbn [exec_sum]. rewrite (bind_Ok _ _ _ _ _ Hs), (bind_Ok _ _ _ _ _ Hp). done.
  - apply bind_Ok_inv in Hrun as ([d ts2] & st2 & Hprod & Hk).
    apply bind_Ok_inv in Hk as (acc' & st3 & Hadd & Hloop).
    destruct (product_sound _ _ _ _ _ Hpure Hprod) as (p & Hwfp & Hp & Hpure2).
    apply (IH acc' ts2 st3 (SSub s p)); [done| |done|done].
    cbn [exec_sum]. rewrite (bind_Ok _ _ _ _ _ Hs), (bind_Ok _ _ _ _ _ Hp). done.
Qed.

Lemma sum_sound ts st x rest st' :
  pure_tokens ts -> sum atm n0 ts st = (Ok (x, rest), st') ->
  exists s, wf_sum s /\ exec_sum s st = (Ok x, st') /\ pure_tokens rest.
Proof.
  intros Hts Hrun. unfold sum in Hrun.
  apply bind_Ok_inv in Hrun as ([p ts1] & st1 & Hprod & Hloop).
  destruct (product_sound _ _ _ _ _ Hts Hprod) as (p' & Hwf & Hp & Hpure).
  by apply (sum_loop_sound n0 p ts1 st st1 (SProd p')).
Qed.
End Sound.

Lemma atom_sound f ts st x rest st' :
  pure_tokens ts -> atom f ts st = (Ok (x, rest), st') ->
  exists a, wf_atom a /\ exec_atom a st = (Ok x, st') /\ pure_tokens rest.
Proof.
  revert ts st x rest st'. induction f as [|f IH]; intros ts st x rest st' Hts Hrun.
  { done. }
  destruct ts as [|t ts]; [done|].
  apply pure_tokens_cons in Hts as (Ht & Hnum & Hpure).
  destruct t; try done; cbn [atom] in Hrun.
  - (* number *)
    apply bind_Ok_inv in Hrun as (r & st1 & Hnumber & Hret).
    inversion Hret; subst. exists (ENum (int_of_str lexeme)).
    cbn [wf_atom exec_atom]. pose proof (int_of_str_nonneg _ Hnum).
    split; [done|]. split; [|done].
    rewrite <- Hnumber. unfold number. by rewrite int_of_str_str.
  - (* negation *)
    apply bind_Ok_inv in Hrun as ([a ts2] & st1 & Hatom & Hk).
    apply bind_Ok_inv in Hk as (r & st2 & Hneg & Hret). inversion Hret; subst.
    destruct (IH _ _ _ _ _ Hpure Hatom) as (e & Hwf & He & Hpure2).
    exists (ENeg e). cbn [wf_atom exec_atom].
    by rewrite (bind_Ok _ _ _ _ _ He).
  - (* brackets *)
    apply bind_Ok_inv in Hrun as ([s ts2] & st1 & Hsum & Hk).
    destruct (sum_sound (atom f) f (IH) _ _ _ _ _ Hpure Hsum) as (e & Hwf & He & Hpure2).
    destruct ts2 as [|t ts2]; [done|].
    apply pure_tokens_cons in Hpure2 as (Ht2 & _ & Hpure3).
    destruct t; try done.
    apply bind_Ok_inv in Hk as (r & st2 & Hbr & Hret). inversion Hret; subst.
    exists (EParen e). cbn [wf_atom exec_atom].
    by rewrite (bind_Ok _ _ _ _ _ He).
Qed.

(** *** Number tokens of the lexer *)

Lemma step_idle_ok c a :
  Forall number_ok (step_idle c a).1 /\ mode_ok (step_idle c a).2.
Proof.
  unfold step_idle.
  destruct (is_ws a); [by split|].
  destruct (is_digit a) eqn:Ha.
  { split; [done|]. cbn [snd mode_ok all_digits]. by rewrite Ha. }
  destruct (is_name_char a).
  { destruct c; try by split.
    repeat (case_match; try by (split; [repeat constructor|done])). }
  repeat (case_match; try by (split; [repeat constructor|done])).
Qed.

Lemma all_digits_snoc w a :
  all_digits w = true -> is_digit a = true -> all_digits (snoc w a) = true.
Proof.
  intros Hw Ha. unfold snoc. induction w as [|b w IH].
  - rewrite string_app_nil_l. cbn [all_digits]. by rewrite Ha.
  - rewrite string_app_cons. cbn [all_digits] in *.
    apply andb_true_iff in Hw as [-> Hw]. by apply IH.
Qed.

Lemma lex_step_ok m a :
  mode_ok m ->
  Forall number_ok (lex_step m a).1 /\ mode_ok (lex_step m a).2.
Proof.
  intros Hm. destruct m as [c|w|c w|]; cbn [lex_step].
  - apply step_idle_ok.
  - destruct (is_digit a) eqn:Ha.
    + split; [done|]. by apply all_digits_snoc.
    + pose proof (step_idle_ok CtxAfter a) as [Ho Hm'].
      destruct (step_idle CtxAfter a) as [o m']. split; [|done].
      by constructor.
  - destruct (is_name_char a); [by split|].
    pose proof (step_idle_ok (ctx_after (classify c w)) a) as [Ho Hm'].
    destruct (step_idle _ a) as [o m']. split; [|done].
    constructor; [|done]. unfold classify. by repeat case_match.
  - by split.
Qed.

Lemma lex_from_ok m s : mode_ok m -> Forall number_ok (lex_from m s).
Proof.
  revert m. induction s as [|a s IH]; intros m Hm.
  - destruct m; cbn; repeat constructor; try done.
    unfold classify. by repeat case_match.
  - cbn [lex_from]. pose proof (lex_step_ok m a Hm) as [Ho Hm'].
    destruct (lex_step m a) as [o m']. apply Forall_app. split; [done|].
    by apply IH.
Qed.

Lemma tokenize_pure s :
  forallb arith_token (tokenize s) = true -> pure_tokens (tokenize s).
Proof.
  intros H. unfold pure_tokens.
  pose proof (lex_from_ok (Idle CtxDice) s I) as Hnum. fold (tokenize s) in Hnum.
  apply Forall_forall. intros t Ht. split.
  - rewrite forallb_forall in H. apply H. by apply list_elem_of_In in Ht.
  - rewrite Forall_forall in Hnum. by apply Hnum.
Qed.

(** *** The theorem *)

(** A successful parse of pure arithmetic returns the value and the text of
    an expression. *)
Lemma parse_pure_is_expression s st p st' :
  forallb arith_token (tokenize s) = true ->
  parse s st = (Ok p, st') ->
  exists e, wf_sum e /\ val_sum e = Some (pvalue p) /\ text_sum e = pstring p.
Proof.
  intros Hpure Hrun. apply tokenize_pure in Hpure.
  unfold parse in Hrun. apply bind_Ok_inv in Hrun as (r & st1 & Hstart & Hpub).
  rewrite start_pure in Hstart by done.
  apply bind_Ok_inv in Hstart as ([x rest] & st2 & Hsum & Hret).
  destruct (sum_sound _ _ (atom_sound _) _ _ _ _ _ Hpure Hsum)
    as (e & Hwf & Hexec & _).
  destruct rest; [|done]. inversion Hret; subst. clear Hret.
  apply to_public_result_state in Hpub as (-> & Hval & Hstr).
  exists e. split; [done|].
  pose proof (proj2 (proj2 exec_arith) e Hwf st) as Hex.
  destruct (val_sum e) as [v|].
  - destruct Hex as (x & l & Hrun & _ & Hnode).
    rewrite Hrun in Hexec. inversion Hexec; subst. cbn [heap] in *.
    rewrite Hnode in Hval, Hstr. cbn [value string_] in *.
    destruct p as [pv ps]. cbn [pvalue pstring] in *. by simplify_eq.
  - destruct Hex as [st'' Hrun]. by rewrite Hrun in Hexec.
Qed.

(** C9. When the tokens of a text are those of pure arithmetic (numbers,
    the four operators, parentheses: no dice keyword, no name) and parsing
    it succeeds with value v and text t, then parsing t, on any parser
    state, succeeds with the same value v and the same text t.  In
    particular "(1 + 2) * 3" yields 9 and its own text. *)
Theorem C9_pure_arithmetic_reparse :
  (forall s st p st',
      forallb arith_token (tokenize s) = true ->
      parse s st = (Ok p, st') ->
      forall st2, exists st2', parse (pstring p) st2 = (Ok p, st2')) /\
  (forall st, exists st',
      parse "(1 + 2) * 3" st = (Ok (mkPublic 9 "(1 + 2) * 3"), st')).
Proof.
  split.
  - intros s st p st' Hpure Hrun st2.
    destruct (parse_pure_is_expression s st p st' Hpure Hrun)
      as (e & Hwf & Hval & Htext).
    destruct (parse_text_sum e (pvalue p) st2 Hwf Hval) as [st2' H2].
    exists st2'. rewrite <- Htext, H2, Htext. by destruct p.
  - intros [h vs t d]. rewrite heap_nil_r. eexists. run_parse. reflexivity.
Qed.

(** C9 at "7 * (3 - 04) / 2" on a new parser: the text returned is
    "7 * (3 - 4) / 2", and it is parsed again on the state left by the
    first call. *)
Lemma C9_pure_arithmetic_reparse_witness :
  exists st2',
    parse "7 * (3 - 4) / 2"
      (snd (parse "7 * (3 - 04) / 2" (DiceParser_init (fun _ => 0))))
    = (Ok (mkPublic (-4) "7 * (3 - 4) / 2"), st2').
Proof.
  apply (proj1 C9_pure_arithmetic_reparse "7 * (3 - 04) / 2"
           (DiceParser_init (fun _ => 0))
           (mkPublic (-4) "7 * (3 - 4) / 2")
           (snd (parse "7 * (3 - 04) / 2" (DiceParser_init (fun _ => 0))))
           eq_refl eq_refl).
Defined.

(** ** A variable as the size of a roll (C10) *)

(** C10. [var] returns the stored node and [dice_size] writes to it: when
    the node bound to a name holds a value below 1, using it as a size sets
    the value of that very node to 0, and the name is still bound to it.  On
    every parser state, after "x = -2" the text "x" evaluates to -2, and once
    "1dx" has been parsed on that state "x" evaluates to 0. *)
Theorem C10_size_clamp_overwrites_binding :
  (forall st name b n,
      vars st !! name = Some b ->
      (b < length (heap st))%nat ->
      value (heap st !!! b) = VInt n ->
      n < 1 ->
      exists r st1,
        var name st = (Ok b, st) /\
        dice_size b st = (Ok r, st1) /\
        value (heap st1 !!! b) = VInt 0 /\
        var name st1 = (Ok b, st1)) /\
  (forall st, exists st1 st1' st2 st3,
      parse "x = -2" st = (Ok (mkPublic (-2) "x = -2"), st1) /\
      parse "x" st1 = (Ok (mkPublic (-2) "x"), st1') /\
      parse "1dx" st1 = (Ok (mkPublic 0 "[0]"), st2) /\
      parse "x" st2 = (Ok (mkPublic 0 "x"), st3)).
Proof.
  split.
  - intros [h vs t d] name b n Hb Hlt Hv Hn. cbn [heap vars] in *.
    do 2 eexists. split; [|split; [|split]].
    + exec. reflexivity.
    + exec. rewrite Hv. exec.
      destruct (Z.ltb_spec n 1) as [_|?]; [|lia]. exec. reflexivity.
    + cbn [heap]. rewrite lookup_total_old by (by rewrite length_insert).
      by rewrite list_lookup_total_insert_eq.
    + exec. reflexivity.
  - intros [h vs t d]. rewrite heap_nil_r. do 4 eexists.
    split; [|split; [|split]].
    + run_parse. reflexivity.
    + run_parse. reflexivity.
    + run_parse. reflexivity.
    + run_parse. reflexivity.
Qed.

(** The general part of C10 on the state left by "x = -2" on a new
    parser. *)
Lemma C10_size_clamp_overwrites_binding_witness :
  let st :=
    mkState [mkResult (VInt 2) (Some "2") None;
             mkResult (VInt (-2)) (Some "-2") None;
             mkResult (VInt (-2)) (Some "x") None;
             mkResult (VInt (-2)) (Some "x = -2") None]
            {[ "x" := 2%nat ]} (fun _ => 0) 0 in
  exists r st1,
    var "x" st = (Ok 2%nat, st) /\
    dice_size 2%nat st = (Ok r, st1) /\
    value (heap st1 !!! 2%nat) = VInt 0 /\
    var "x" st1 = (Ok 2%nat, st1).
Proof.
  apply (proj1 C10_size_clamp_overwrites_binding _ "x" 2%nat (-2));
    [reflexivity | cbn; lia | reflexivity | lia].
Defined.

(** * Further properties *)

(** ** Arithmetic on integer literals *)

Lemma alloc_only_ret {A} (a : A) : alloc_only (mret a).
Proof. intros [h vs t d]. exists []. cbn. by rewrite app_nil_r. Qed.

Lemma alloc_only_raise {A} (e : exn) : alloc_only (@raise A e).
Proof. intros [h vs t d]. exists []. cbn. by rewrite app_nil_r. Qed.

Lemma alloc_only_deref r : alloc_only (deref r).
Proof. intros [h vs t d]. exists []. cbn. by rewrite app_nil_r. Qed.

Lemma alloc_only_new v s f : alloc_only (new v s f).
Proof. intros [h vs t d]. by eexists. Qed.

Lemma alloc_only_bind {A B} (m : M A) (k : A -> M B) :
  alloc_only m -> (forall a, alloc_only (k a)) -> alloc_only (m ≫= k).
Proof.
  intros Hm Hk st. unfold mbind, M_bind, bind.
  destruct (Hm st) as [l1 H1]. destruct (m st) as [[a|e] st1]; cbn [snd] in *.
  - destruct (Hk a st1) as [l2 H2]. exists (l1 ++ l2)%list.
    rewrite H2, H1. cbn [heap vars tape drawn]. by rewrite app_assoc.
  - by exists l1.
Qed.

Ltac alloc_only :=
  repeat first
    [ apply alloc_only_ret
    | apply alloc_only_raise
    | apply alloc_only_deref
    | apply alloc_only_new
    | apply alloc_only_bind; [|intros]
    | progress (unfold add, sub, mul, div, neg, operator1, operator2, floordiv,
                  number, brackets, to_public_result)
    | match goal with
      | |- alloc_only (match ?x with _ => _ end) => destruct x
      | |- alloc_only (if ?b then _ else _) => destruct b
      end ].

Lemma exec_alloc_only :
  (forall a, alloc_only (exec_atom a)) /\
  (forall p, alloc_only (exec_prod p)) /\
  (forall s, alloc_only (exec_sum s)).
Proof.
  apply arith_mutind; intros; cbn [exec_atom exec_prod exec_sum];
    try done; alloc_only; done.
Qed.

(** The parse of the text of an expression, with the state it leaves: only
    new objects, the bindings and the random source untouched. *)
Lemma parse_text_sum_frame (e : sumE) (st : state) :
  wf_sum e ->
  exists l,
    parse (text_sum e) st
    = (match val_sum e with
       | Some v => Ok (mkPublic v (text_sum e))
       | None => Raise ZeroDivisionError
       end,
       mkState (heap st ++ l) (vars st) (tape st) (drawn st)).
Proof.
  intros Hwf. unfold parse. rewrite tokenize_text_sum by done.
  pose proof (proj2 (proj2 exec_arith) e Hwf st) as Hex.
  destruct (proj2 (proj2 exec_alloc_only) e st) as [l Hl].
  exists l.
  unfold parse_fuel. set (f := S (length (toks_sum e))).
  assert (sum (atom f) f (toks_sum e) st
          = (x ← exec_sum e; sum_loop (atom f) f (f - ops_sum e) x []) st) as Hsum.
  { rewrite <- (app_nil_r (toks_sum e)) at 1.
    apply (proj2 (proj2 parse_arith)); (done || lia). }
  rewrite (bind_run _ _ _ _ (start_pure _ _ st (proj2 (proj2 toks_pure) e Hwf))).
  rewrite bind_assoc, (bind_run _ _ _ _ Hsum), bind_assoc.
  destruct (val_sum e) as [v|].
  - destruct Hex as (x & l' & Hrun & Hx & Hnode).
    rewrite Hrun in Hl. cbn [snd] in Hl. rewrite <- Hl.
    rewrite (bind_Ok _ _ _ _ _ Hrun).
    pose proof (ops_sum_lt e).
    destruct (f - ops_sum e)%nat as [|k] eqn:Ek; [lia|].
    cbn [sum_loop]. rewrite !bind_ret_l.
    unfold to_public_result, mbind, M_bind, bind, deref. cbn [heap].
    rewrite Hnode. reflexivity.
  - destruct Hex as [st' Hrun]. rewrite Hrun in Hl. cbn [snd] in Hl. subst st'.
    by rewrite (bind_raise _ _ _ _ _ Hrun).
Qed.

Lemma parses_to_text_sum (e : sumE) (v : Z) (st : state) :
  wf_sum e -> val_sum e = Some v -> parses_to (text_sum e) st v.
Proof.
  intros Hwf Hv. destruct (parse_text_sum_frame e st Hwf) as [l Hl].
  rewrite Hv in Hl. by exists l.
Qed.

Lemma parse_raises_text_sum (e : sumE) (st : state) :
  wf_sum e -> val_sum e = None -> parse_raises (text_sum e) st ZeroDivisionError.
Proof.
  intros Hwf Hv. destruct (parse_text_sum_frame e st Hwf) as [l Hl].
  rewrite Hv in Hl. by exists l.
Qed.

Lemma wf_lit (a : Z) : wf_atom (lit a).
Proof. apply lit_spec. Qed.

Lemma val_lit (a : Z) : val_atom (lit a) = Some a.
Proof. apply lit_spec. Qed.

Lemma text_lit (a : Z) : text_atom (lit a) = str a.
Proof. apply lit_spec. Qed.

(** The text of an expression over literals, flattened. *)
Ltac text_of e :=
  let H := fresh in
  assert (H : exists t, text_sum e = t) by (by eexists);
  cbn [text_sum text_prod text_atom] in H; rewrite ?text_lit in H;
  rewrite ?string_app_assoc in H.

(** Settle [parses_to s st v] or [parse_raises s st e] by the expression
    that [s] is the text of. *)
Ltac by_expression e :=
  let H := fresh in
  lazymatch goal with
  | |- parses_to _ _ _ => pose proof (parses_to_text_sum e) as H
  | |- parse_raises _ _ _ => pose proof (parse_raises_text_sum e) as H
  end;
  cbn [text_sum text_prod text_atom wf_sum wf_prod wf_atom
       val_sum val_prod val_atom lit Z.ltb Z.compare Z.opp] in H;
  rewrite ?text_lit, ?val_lit in H; cbn [mbind option_bind] in H;
  rewrite ?string_app_assoc in H;
  apply H; clear H; repeat split; auto using wf_lit; try lia.

Ltac nonzero b := destruct (Z.eqb_spec b 0); [lia|].

(** X1. The sum, the difference and the product of two integers written in
    decimal: "a + b", "a - b" and "a * b" evaluate to a + b, a - b and a * b,
    and the text of the result is the input. *)
Theorem parse_add_sub_mul (st : state) (a b : Z) :
  parses_to (str a +:+ " + " +:+ str b) st (a + b) /\
  parses_to (str a +:+ " - " +:+ str b) st (a - b) /\
  parses_to (str a +:+ " * " +:+ str b) st (a * b).
Proof.
  split; [|split].
  - by by_expression (SAdd (SProd (PAtom (lit a))) (PAtom (lit b))).
  - by by_expression (SSub (SProd (PAtom (lit a))) (PAtom (lit b))).
  - by by_expression (SProd (PMul (PAtom (lit a)) (lit b))).
Qed.

(** X2. Operators of one level associate to the left: "a - b - c" is
    (a - b) - c, and "a / b / c" is (a / b) / c for nonzero b and c. *)
Theorem parse_left_associative (st : state) (a b c : Z) :
  parses_to (str a +:+ " - " +:+ str b +:+ " - " +:+ str c) st ((a - b) - c) /\
  (b <> 0 -> c <> 0 ->
   parses_to (str a +:+ " / " +:+ str b +:+ " / " +:+ str c) st ((a / b) / c)).
Proof.
  split.
  - by by_expression
      (SSub (SSub (SProd (PAtom (lit a))) (PAtom (lit b))) (PAtom (lit c))).
  - intros Hb Hc.
    by_expression (SProd (PDiv (PDiv (PAtom (lit a)) (lit b)) (lit c))).
    nonzero b. cbn [mbind option_bind]. by nonzero c.
Qed.

(** On a new parser "20 - 5 - 3" is 12 and "20 / 3 / 2" is 3. *)
Lemma parse_left_associative_witness :
  parses_to (str 20 +:+ " - " +:+ str 5 +:+ " - " +:+ str 3)
    (DiceParser_init (fun _ => 0)) 12 /\
  parses_to (str 20 +:+ " / " +:+ str 3 +:+ " / " +:+ str 2)
    (DiceParser_init (fun _ => 0)) 3.
Proof.
  destruct (parse_left_associative (DiceParser_init (fun _ => 0)) 20 5 3)
    as [H1 _].
  destruct (parse_left_associative (DiceParser_init (fun _ => 0)) 20 3 2)
    as [_ H2].
  split; [exact H1|]. apply H2; lia.
Defined.

(** X3. A product binds tighter than a sum, and brackets override that:
    "a + b * c" is a + (b * c), "a * b + c" is (a * b) + c,
    "(a + b) * c" is (a + b) * c and "a * (b + c)" is a * (b + c). *)
Theorem parse_precedence (st : state) (a b c : Z) :
  parses_to (str a +:+ " + " +:+ str b +:+ " * " +:+ str c) st (a + b * c) /\
  parses_to (str a +:+ " * " +:+ str b +:+ " + " +:+ str c) st (a * b + c) /\
  parses_to ("(" +:+ str a +:+ " + " +:+ str b +:+ ")" +:+ " * " +:+ str c) st
    ((a + b) * c) /\
  parses_to (str a +:+ " * " +:+ "(" +:+ str b +:+ " + " +:+ str c +:+ ")") st
    (a * (b + c)).
Proof.
  split; [|split; [|split]].
  - by by_expression
      (SAdd (SProd (PAtom (lit a))) (PMul (PAtom (lit b)) (lit c))).
  - by by_expression
      (SAdd (SProd (PMul (PAtom (lit a)) (lit b))) (PAtom (lit c))).
  - by by_expression
      (SProd (PMul (PAtom (EParen (SAdd (SProd (PAtom (lit a))) (PAtom (lit b)))))
                   (lit c))).
  - by by_expression
      (SProd (PMul (PAtom (lit a))
                   (EParen (SAdd (SProd (PAtom (lit b))) (PAtom (lit c)))))).
Qed.

(** X4. The unary minus negates an atom and can be repeated: "-(a + b)" is
    -(a + b), "--a" is a, and "a - -(b)" is a + b. *)
Theorem parse_unary_minus (st : state) (a b : Z) :
  parses_to ("-" +:+ "(" +:+ str a +:+ " + " +:+ str b +:+ ")") st (- (a + b)) /\
  parses_to ("-" +:+ "-" +:+ str a) st a /\
  parses_to (str a +:+ " - " +:+ "-" +:+ "(" +:+ str b +:+ ")") st (a + b).
Proof.
  split; [|split].
  - by by_expression
      (SProd (PAtom (ENeg (EParen (SAdd (SProd (PAtom (lit a)))
                                        (PAtom (lit b))))))).
  - replace a with (- - a) at 2 by lia.
    by by_expression (SProd (PAtom (ENeg (ENeg (lit a))))).
  - replace (a + b) with (a - - b) by lia.
    by by_expression
      (SSub (SProd (PAtom (lit a)))
            (PAtom (ENeg (EParen (SProd (PAtom (lit b))))))).
Qed.

(** X5. Division by zero raises [ZeroDivisionError], for a literal zero and for
    a divisor that evaluates to zero, and the bindings stay as they were. *)
Theorem parse_division_by_zero (st : state) (a b : Z) :
  parse_raises (str a +:+ " / 0") st ZeroDivisionError /\
  parse_raises (str a +:+ " / " +:+ "(" +:+ str b +:+ " - " +:+ str b +:+ ")") st
    ZeroDivisionError.
Proof.
  split.
  - change " / 0" with (" / " +:+ str 0).
    by by_expression (SProd (PDiv (PAtom (lit a)) (lit 0))).
  - by_expression
      (SProd (PDiv (PAtom (lit a))
                   (EParen (SSub (SProd (PAtom (lit b))) (PAtom (lit b)))))).
    by rewrite Z.sub_diag.
Qed.

(** * The invariant of a parser *)

(** ** How states evolve *)

Lemma node_le_refl o : node_le o o.
Proof. unfold node_le. auto. Qed.

Lemma node_le_trans o1 o2 o3 : node_le o1 o2 -> node_le o2 o3 -> node_le o1 o3.
Proof.
  intros (Hs1 & Hf1 & Hv1) (Hs2 & Hf2 & Hv2). unfold node_le.
  split; [congruence|]. split; [congruence|].
  destruct Hv1 as [Hv1|(n & Hn & Hlt & Hv1)],
           Hv2 as [Hv2|(n' & Hn' & Hlt' & Hv2)].
  - left. congruence.
  - right. exists n'. split; [congruence|done].
  - right. exists n. split; [done|]. split; [done|congruence].
  - right. exists n. done.
Qed.

Lemma well_tagged_node_le o o' : node_le o o' -> well_tagged o -> well_tagged o'.
Proof.
  intros (Hs & Hf & Hv). unfold well_tagged, flag_is. rewrite Hf.
  destruct Hv as [->|(n & -> & _ & ->)]; done.
Qed.

Lemma well_tagged_default : well_tagged inhabitant.
Proof. done. Qed.

Lemma store_grows_refl q st : (forall r, well_tagged (heap st !!! r)) -> store_grows q st st.
Proof. intros H. unfold store_grows. repeat split; auto using node_le_refl. Qed.

Lemma store_grows_trans q st1 st2 st3 :
  store_grows q st1 st2 -> store_grows q st2 st3 -> store_grows q st1 st3.
Proof.
  intros (Ht1 & Hd1 & Hq1 & Hl1 & Ho1 & Hn1) (Ht2 & Hd2 & Hq2 & Hl2 & Ho2 & Hn2).
  unfold store_grows. split; [congruence|]. split; [lia|].
  split; [intros Hq; rewrite Hq2, Hq1; done|]. split; [lia|]. split.
  - intros r Hr. eapply node_le_trans; [by apply Ho1|]. apply Ho2. lia.
  - intros r Hr. destruct (decide (r < length (heap st2))%nat) as [Hlt|Hge].
    + eapply well_tagged_node_le; [by apply Ho2|]. by apply Hn1.
    + apply Hn2. lia.
Qed.

Lemma store_grows_weaken q q' st st' :
  (q' = true -> q = true) -> store_grows q st st' -> store_grows q' st st'.
Proof.
  intros Hq (Ht & Hd & Hq1 & Hl & Ho & Hn). unfold store_grows.
  split; [done|]. split; [done|]. split; [auto|]. done.
Qed.

Lemma evolves_refl q st : Inv st -> evolves q st st.
Proof. intros [H _]. split; [done|]. by apply store_grows_refl. Qed.

Lemma evolves_trans q st1 st2 st3 :
  evolves q st1 st2 -> evolves q st2 st3 -> evolves q st1 st3.
Proof.
  intros [Hv1 H1] [Hv2 H2]. split; [congruence|]. by eapply store_grows_trans.
Qed.

Lemma evolves_weaken q q' st st' :
  (q' = true -> q = true) -> evolves q st st' -> evolves q' st st'.
Proof. intros Hq [Hv H]. split; [done|]. by eapply store_grows_weaken. Qed.

Lemma store_grows_tagged q st st' :
  (forall r, well_tagged (heap st !!! r)) -> store_grows q st st' ->
  forall r, well_tagged (heap st' !!! r).
Proof.
  intros Hw (_ & _ & _ & _ & Ho & Hn) r.
  destruct (decide (r < length (heap st))%nat) as [Hlt|Hge].
  - eapply well_tagged_node_le; [by apply Ho|]. apply Hw.
  - apply Hn. lia.
Qed.

Lemma store_grows_binding q st st' r n x :
  store_grows q st st' -> (r < length (heap st))%nat ->
  heap st !!! r = mkResult (VInt n) (Some x) None ->
  (r < length (heap st'))%nat /\
  exists n', heap st' !!! r = mkResult (VInt n') (Some x) None /\
             (n' = n \/ (n < 1 /\ n' = 0)).
Proof.
  intros (_ & _ & _ & Hl & Ho & _) Hr Hnode. split; [lia|].
  destruct (Ho r Hr) as (Hs & Hf & Hv). rewrite Hnode in Hs, Hf, Hv.
  cbn in Hs, Hf, Hv. destruct (heap st' !!! r) as [v s f]. cbn in *. subst s f.
  destruct Hv as [->|(k & [= <-] & Hlt & ->)]; eauto.
Qed.

Lemma Inv_evolves q st st' : Inv st -> evolves q st st' -> Inv st'.
Proof.
  intros [Hw Hb] [Hv H]. split.
  - by eapply store_grows_tagged.
  - intros x r Hx. rewrite Hv in Hx. destruct (Hb x r Hx) as (Hlex & Hr & n & Hn).
    split; [done|].
    destruct (store_grows_binding q st st' r n x H Hr Hn) as (Hr' & n' & Hn' & _).
    eauto.
Qed.

Lemma is_int_node_evolves q st st' r :
  evolves q st st' -> is_int_node st r -> is_int_node st' r.
Proof.
  intros [_ (_ & _ & _ & Hl & Ho & _)] (Hr & n & s & Hn & Hs). split; [lia|].
  destruct (Ho r Hr) as (Hs' & _ & Hv). rewrite Hs in Hs'. rewrite Hn in Hv.
  destruct Hv as [Hv|(k & _ & _ & Hv)]; eauto.
Qed.

Lemma allowed_evolves q st st' e : evolves q st st' -> allowed st' e -> allowed st e.
Proof. intros [Hv _]. destruct e; cbn; congruence. Qed.

(** ** Rules for [good] *)

Lemma good_ret {A} q (a : A) st (Q : A -> state -> Prop) :
  Inv st -> Q a st -> good q (mret a) st Q.
Proof. intros HI HQ. split; [by apply evolves_refl|done]. Qed.

Lemma good_raise {A} q e st (Q : A -> state -> Prop) :
  Inv st -> allowed st e -> good q (raise e) st Q.
Proof. intros HI He. split; [by apply evolves_refl|done]. Qed.

Lemma good_bind {A B} q (m : M A) (k : A -> M B) st
    (Q1 : A -> state -> Prop) (Q2 : B -> state -> Prop) :
  good q m st Q1 ->
  (forall a st1, evolves q st st1 -> Q1 a st1 -> good q (k a) st1 Q2) ->
  good q (m ≫= k) st Q2.
Proof.
  intros [He Hm] Hk. unfold good, mbind, M_bind, bind.
  destruct (m st) as [[a|e] st1]; cbn [fst snd] in *; [|done].
  destruct (Hk a st1 He Hm) as [He2 Hk2]. split; [by eapply evolves_trans|].
  destruct (k a st1) as [[b|e] st2]; cbn [fst snd] in *; [done|].
  by eapply allowed_evolves.
Qed.

Lemma good_weaken {A} q q' (m : M A) st (Q Q' : A -> state -> Prop) :
  (q' = true -> q = true) ->
  (forall a st', evolves q st st' -> Q a st' -> Q' a st') ->
  good q m st Q -> good q' m st Q'.
Proof.
  intros Hq HQ [He Hm]. split; [by eapply evolves_weaken|].
  destruct (m st) as [[a|e] st1]; cbn [fst snd] in *; auto.
Qed.

(** ** The actions *)

Lemma tagged_app (h l : list _ParseResult) :
  (forall r, well_tagged (h !!! r)) -> Forall well_tagged l ->
  forall r, well_tagged ((h ++ l)%list !!! r).
Proof.
  intros Hh Hl r. rewrite list_lookup_total_alt.
  destruct ((h ++ l)%list !! r) as [o|] eqn:E; [|done]. cbn.
  apply lookup_app_Some in E as [E|[_ E]].
  - specialize (Hh r). by rewrite list_lookup_total_alt, E in Hh.
  - by eapply Forall_lookup_1.
Qed.

(** Allocation. *)
Lemma evolves_alloc q st (l : list _ParseResult) :
  Inv st -> Forall well_tagged l ->
  evolves q st (mkState (heap st ++ l) (vars st) (tape st) (drawn st)).
Proof.
  intros [Hw _] Hl. split; [done|]. unfold store_grows. cbn [heap tape drawn].
  split; [done|]. split; [done|]. split; [done|].
  split; [rewrite length_app; lia|]. split.
  - intros r Hr. rewrite lookup_total_old by done. apply node_le_refl.
  - intros r _. by apply tagged_app.
Qed.

(** The clamp of [dice_size]. *)
Lemma evolves_clamp q st r n :
  Inv st -> value (heap st !!! r) = VInt n -> n < 1 ->
  evolves q st
    (mkState (<[r := mkResult (VInt 0) (string_ (heap st !!! r))
                              (flag (heap st !!! r))]> (heap st))
             (vars st) (tape st) (drawn st)).
Proof.
  intros [Hw _] Hv Hn. split; [done|]. unfold store_grows. cbn [heap tape drawn].
  split; [done|]. split; [done|]. split; [done|].
  split; [by rewrite length_insert|]. split.
  - intros r' Hr'. destruct (decide (r' = r)) as [->|Hne].
    + rewrite list_lookup_total_insert, decide_True by done. unfold node_le. cbn.
      split; [done|]. split; [done|]. right. by exists n.
    + rewrite list_lookup_total_insert_ne by congruence. apply node_le_refl.
  - intros r' Hr'. rewrite list_lookup_total_insert, decide_False by lia.
    apply Hw.
Qed.

Lemma good_new q v s f st (Q : nat -> state -> Prop) :
  Inv st -> well_tagged (mkResult v s f) ->
  (forall st', evolves q st st' ->
     (length (heap st) < length (heap st'))%nat ->
     heap st' !!! length (heap st) = mkResult v s f -> Q (length (heap st)) st') ->
  good q (new v s f) st Q.
Proof.
  intros HI Hw HQ.
  assert (evolves q st (new v s f st).2) as He.
  { apply (evolves_alloc q st [mkResult v s f]); [done|]. by repeat constructor. }
  split; [done|]. cbn [new fst snd] in *. apply HQ; [done|..]; cbn [heap].
  - rewrite length_app. cbn. lia.
  - by rewrite lookup_total_fresh0.
Qed.

Lemma good_run {A} q (m m' : M A) st (Q : A -> state -> Prop) :
  m st = m' st -> good q m' st Q -> good q m st Q.
Proof. unfold good. by intros ->. Qed.

Lemma good_int_node q n s st :
  Inv st ->
  good q (new (VInt n) (Some s) None) st (fun r st' => is_int_node st' r).
Proof.
  intros HI. apply good_new; [done..|]. intros st' _ Hlen Hnode.
  split; [done|]. rewrite Hnode. eauto.
Qed.

Lemma good_number q w st :
  Inv st -> good q (number w) st (fun r st' => is_int_node st' r).
Proof. intros HI. by apply good_int_node. Qed.

Lemma good_operator2 q (call : Z -> Z -> M Z) tpl a b st :
  (forall m n st0, (exists v, call m n st0 = (Ok v, st0)) \/
                   call m n st0 = (Raise ZeroDivisionError, st0)) ->
  Inv st -> is_int_node st a -> is_int_node st b ->
  good q (operator2 call tpl a b) st (fun r st' => is_int_node st' r).
Proof.
  intros Hcall HI (_ & m & s & Hm & Hs) (_ & n & t & Hn & Ht).
  destruct (Hcall m n st) as [[v Hv]|He].
  - eapply good_run; [|by apply (good_int_node q v)].
    unfold operator2, mbind, M_bind, bind, deref. by rewrite Hm, Hn, Hv.
  - eapply good_run; [|by apply (good_raise q ZeroDivisionError)].
    unfold operator2, mbind, M_bind, bind, deref. by rewrite Hm, Hn, He.
Qed.

Lemma good_operator1 q (call : Z -> M Z) tpl a st :
  (forall m st0, exists v, call m st0 = (Ok v, st0)) ->
  Inv st -> is_int_node st a ->
  good q (operator1 call tpl a) st (fun r st' => is_int_node st' r).
Proof.
  intros Hcall HI (_ & m & s & Hm & Hs).
  destruct (Hcall m st) as [v Hv].
  eapply good_run; [|by apply (good_int_node q v)].
  unfold operator1, mbind, M_bind, bind, deref. by rewrite Hm, Hv.
Qed.

Lemma good_add q a b st :
  Inv st -> is_int_node st a -> is_int_node st b ->
  good q (add a b) st (fun r st' => is_int_node st' r).
Proof. apply good_operator2. intros m n st0. left. by eexists. Qed.

Lemma good_sub q a b st :
  Inv st -> is_int_node st a -> is_int_node st b ->
  good q (sub a b) st (fun r st' => is_int_node st' r).
Proof. apply good_operator2. intros m n st0. left. by eexists. Qed.

Lemma good_mul q a b st :
  Inv st -> is_int_node st a -> is_int_node st b ->
  good q (mul a b) st (fun r st' => is_int_node st' r).
Proof. apply good_operator2. intros m n st0. left. by eexists. Qed.

Lemma good_div q a b st :
  Inv st -> is_int_node st a -> is_int_node st b ->
  good q (div a b) st (fun r st' => is_int_node st' r).
Proof.
  apply good_operator2. intros m n st0. unfold floordiv.
  destruct (n =? 0); [by right|left; by eexists].
Qed.

Lemma good_neg q a st :
  Inv st -> is_int_node st a ->
  good q (neg a) st (fun r st' => is_int_node st' r).
Proof. apply good_operator1. intros m st0. by eexists. Qed.

Lemma good_brackets q a st :
  Inv st -> is_int_node st a ->
  good q (brackets a) st (fun r st' => is_int_node st' r).
Proof.
  intros HI (_ & m & s & Hm & Hs).
  eapply good_run; [|by apply (good_int_node q m)].
  unfold brackets, mbind, M_bind, bind, deref. by rewrite Hm.
Qed.

Lemma good_var q x st :
  Inv st -> good q (var x) st (fun r st' => is_int_node st' r).
Proof.
  intros HI. unfold good, var. destruct (vars st !! x) as [r|] eqn:Hx; cbn [fst snd].
  - split; [by apply evolves_refl|].
    destruct (proj2 HI x r Hx) as (_ & Hr & n & Hn).
    split; [done|]. rewrite Hn. eauto.
  - split; [by apply evolves_refl|done].
Qed.

Lemma good_dice_count q a st :
  Inv st -> is_int_node st a -> good q (dice_count a) st (fun _ _ => True).
Proof.
  intros HI (_ & m & s & Hm & Hs).
  eapply good_run; [|by apply (good_new q (VInt m) (Some s) (Some "dice_count"))].
  unfold dice_count, _add_flag, mbind, M_bind, bind, deref.
  by rewrite <- Hm, <- Hs.
Qed.

Lemma good_dice_size q a st :
  Inv st -> is_int_node st a -> good q (dice_size a) st (fun _ _ => True).
Proof.
  intros HI (Ha & m & s & Hm & Hs).
  unfold dice_size. eapply good_bind.
  { apply (good_ret q (heap st !!! a) st (fun x st' => st' = st /\ x = heap st !!! a));
      done. }
  intros x st1 _ [-> ->]. rewrite Hm. cbn [as_int].
  eapply good_bind; [by apply (good_ret q m st (fun x st' => st' = st /\ x = m))|].
  intros ? st1 _ [-> ->].
  eapply (good_bind _ _ _ _ (fun _ st' => Inv st' /\ is_int_node st' a)).
  { destruct (Z.ltb_spec m 1) as [Hlt|Hge].
    - assert (evolves q st (set_value a (VInt 0) st).2) as He
        by (by eapply evolves_clamp).
      split; [done|]. cbn [set_value fst snd] in *.
      split; [by eapply Inv_evolves|]. eapply is_int_node_evolves; [done|].
      split; eauto.
    - apply good_ret; [done|]. split; [done|]. split; eauto. }
  intros _ st2 _ (HI2 & _ & m' & s' & Hm' & Hs').
  eapply good_run;
    [|by apply (good_new q (VInt m') (Some s') (Some "dice_size"))].
  unfold _add_flag, mbind, M_bind, bind, deref. by rewrite <- Hm', <- Hs'.
Qed.

Lemma good_dice_highest q a st :
  Inv st -> is_int_node st a -> good q (dice_highest a) st (fun _ _ => True).
Proof.
  intros HI (_ & m & s & Hm & Hs).
  eapply good_run;
    [|by apply (good_new q (VModifier (HighestDiceModifier m)) None
                  (Some "dice_modifier"))].
  unfold dice_highest, mbind, M_bind, bind, deref. by rewrite Hm.
Qed.

Lemma good_dice_lowest q a st :
  Inv st -> is_int_node st a -> good q (dice_lowest a) st (fun _ _ => True).
Proof.
  intros HI (_ & m & s & Hm & Hs).
  eapply good_run;
    [|by apply (good_new q (VModifier (LowestDiceModifier m)) None
                  (Some "dice_modifier"))].
  unfold dice_lowest, mbind, M_bind, bind, deref. by rewrite Hm.
Qed.

(** The arguments of [roll] are read without an assertion failing, on
    well-tagged nodes. *)
Lemma roll_args_run acc args st :
  (forall r, well_tagged (heap st !!! r)) ->
  exists acc', roll_args acc args st = (Ok acc', st).
Proof.
  intros Hw. revert acc. induction args as [|r args IH]; intros [[c s] m].
  - by eexists.
  - cbn [roll_args]. unfold mbind, M_bind, bind, deref, roll_arg.
    unfold mbind, M_bind, bind, mret, M_ret, ret.
    specialize (Hw r). unfold well_tagged in Hw.
    destruct (value (heap st !!! r)) eqn:Ev.
    + rewrite Hw. destruct (flag_is _ "dice_count"), (flag_is _ "dice_size");
        cbn; apply IH.
    + destruct Hw as [-> ->]. destruct (flag_is _ "dice_modifier"); cbn; apply IH.
Qed.

Lemma good_roll args st :
  Inv st -> good false (roll args) st (fun r st' => is_int_node st' r).
Proof.
  intros HI. unfold roll.
  destruct (roll_args_run (1, 20, NullDiceModifier) args st (proj1 HI))
    as [[[c s] m] Hargs].
  unfold good. rewrite (bind_Ok _ _ _ _ _ Hargs).
  fold (good false
          ('(rolled_result, rolled_dice) ← DiceRoller_roll c s m;
           new (VInt rolled_result)
             (Some ("[" +:+ join ", " (map str rolled_dice) +:+ "]")) None)
          st (fun r st' => is_int_node st' r)).
  eapply (good_bind _ _ _ _ (fun _ st' => Inv st')).
  - unfold DiceRoller_roll.
    assert (forall dice st0, Inv st0 ->
              good false (let '(kept, dropped) := get_actual_dice m dice in
                          mret (sum_list kept, dice)) st0 (fun _ st' => Inv st'))
      as Hsel.
    { intros dice st0 HI0. destruct (get_actual_dice m dice). by apply good_ret. }
    destruct (1 <=? s).
    + destruct st as [h vs t d]. unfold good, mbind, M_bind, bind.
      rewrite roll_dice_run.
      assert (evolves false (mkState h vs t d)
                (mkState h vs t (d + Z.to_nat c))) as He.
      { split; [done|]. unfold store_grows. cbn [heap tape drawn].
        split; [done|]. split; [lia|]. split; [done|]. split; [done|].
        split; [intros; apply node_le_refl|]. intros r _. apply HI. }
      destruct (Hsel (rolled (mkState h vs t d) (Z.to_nat c) s)
                  (mkState h vs t (d + Z.to_nat c))) as [He2 Hq];
        [by eapply Inv_evolves|].
      split; [by eapply evolves_trans|].
      destruct (get_actual_dice m _); cbn in *. by eapply Inv_evolves.
    + unfold good. rewrite bind_ret_l. by apply Hsel.
  - intros [v dice] st1 _ HI1. by apply good_int_node.
Qed.

(** ** The productions *)

Lemma no_dice_cons t ts :
  no_dice (t :: ts) = true -> no_dice ts = true.
Proof. cbn. by intros [_ ?]%andb_true_iff. Qed.

Section Good.
Variable atm : list token -> M (nat * list token).
Variable fuel : nat.
Hypothesis Hatom :
  forall ts st, Inv st -> good (no_dice ts) (atm ts) st (parsed ts).

Lemma good_atm_false ts st :
  Inv st -> good false (atm ts) st (fun a st' => is_int_node st' a.1).
Proof.
  intros HI. eapply good_weaken; [| |by apply Hatom]; [done|].
  by intros a st' _ [? _].
Qed.

Lemma good_dice_size_opt ts st :
  Inv st -> good false (dice_size_opt atm ts) st (fun _ _ => True).
Proof.
  intros HI. unfold dice_size_opt. destruct (starts_atom ts); [|by apply good_ret].
  eapply good_bind; [by apply good_atm_false|].
  intros [a ts1] st1 He Ha. cbn [fst] in Ha.
  assert (Inv st1) as HI1 by (by eapply Inv_evolves).
  eapply good_bind; [by apply good_dice_size|].
  intros s st2 He2 _. apply good_ret; [by eapply Inv_evolves|done].
Qed.

Lemma good_dice_modifier_opt ts st :
  Inv st -> good false (dice_modifier_opt atm ts) st (fun _ _ => True).
Proof.
  intros HI. unfold dice_modifier_opt.
  destruct ts as [|[] ts1]; try (by apply good_ret).
  - eapply good_bind; [by apply good_atm_false|].
    intros [a ts2] st1 He Ha. cbn [fst] in Ha.
    assert (Inv st1) as HI1 by (by eapply Inv_evolves).
    eapply good_bind; [by apply good_dice_highest|].
    intros s st2 He2 _. apply good_ret; [by eapply Inv_evolves|done].
  - eapply good_bind; [by apply good_atm_false|].
    intros [a ts2] st1 He Ha. cbn [fst] in Ha.
    assert (Inv st1) as HI1 by (by eapply Inv_evolves).
    eapply good_bind; [by apply good_dice_lowest|].
    intros s st2 He2 _. apply good_ret; [by eapply Inv_evolves|done].
Qed.

Lemma good_roll_tail count ts st :
  Inv st ->
  good false (roll_tail atm count ts) st (fun a st' => is_int_node st' a.1).
Proof.
  intros HI. unfold roll_tail.
  eapply good_bind; [by apply good_dice_size_opt|].
  intros [size ts1] st1 He1 _.
  assert (Inv st1) as HI1 by (by eapply Inv_evolves).
  eapply good_bind; [by apply good_dice_modifier_opt|].
  intros [modifier ts2] st2 He2 _.
  assert (Inv st2) as HI2 by (by eapply Inv_evolves).
  eapply good_bind; [by apply good_roll|].
  intros r st3 He3 Hr. apply good_ret; [by eapply Inv_evolves|done].
Qed.

(** A [dice] that starts with an atom. *)
Lemma good_dice_atom ts st :
  Inv st ->
  good (no_dice ts)
    ('(a, ts1) ← atm ts;
     match ts1 with
     | KW_D :: ts2 => c ← dice_count a; roll_tail atm [c] ts2
     | _ => mret (a, ts1)
     end) st (parsed ts).
Proof.
  intros HI. eapply good_bind; [by apply Hatom|].
  intros [a ts1] st1 He [Ha Hts]. cbn [fst snd] in Ha, Hts.
  assert (Inv st1) as HI1 by (by eapply Inv_evolves).
  destruct ts1 as [|t ts2]; [by apply good_ret|].
  destruct t; try (by apply good_ret).
  destruct (no_dice ts) eqn:Eq; [by specialize (Hts eq_refl)|].
  eapply good_bind; [by apply good_dice_count|].
  intros c st2 He2 _.
  eapply good_weaken; [| |apply good_roll_tail; by eapply Inv_evolves]; [done|].
  intros r st' _ Hr. split; [done|congruence].
Qed.

Lemma good_dice ts st :
  Inv st -> good (no_dice ts) (dice atm ts) st (parsed ts).
Proof.
  intros HI. destruct ts as [|t ts1]; [by apply good_dice_atom|].
  destruct t; try (by apply good_dice_atom).
  cbn [dice].
  eapply good_weaken; [| |by apply good_roll_tail]; [done|].
  intros r st' _ Hr. by split.
Qed.

Lemma good_product_loop q n acc ts st :
  Inv st -> is_int_node st acc -> (q = true -> no_dice ts = true) ->
  good q (product_loop atm n acc ts) st
    (fun a st' => is_int_node st' a.1 /\ (q = true -> no_dice a.2 = true)).
Proof.
  revert acc ts st. induction n as [|n IH]; intros acc ts st HI Hacc Hq.
  { by apply good_raise. }
  destruct ts as [|t ts1]; [by apply good_ret|].
  destruct t; try (by apply good_ret); cbn [product_loop].
  - eapply good_bind.
    { eapply good_weaken; [| |by apply (good_dice ts1)].
      - intros Hq1. by eapply no_dice_cons, Hq.
      - intros a st' _ H. exact H. }
    intros [d ts2] st1 He [Hd Hts]. cbn [fst snd] in Hd, Hts.
    assert (Inv st1) as HI1 by (by eapply Inv_evolves).
    eapply good_bind;
      [apply good_mul; [done| by eapply is_int_node_evolves|done]|].
    intros acc' st2 He2 Hacc'.
    apply IH; [by eapply Inv_evolves|done|].
    intros Hq1. by eapply Hts, no_dice_cons, Hq.
  - eapply good_bind.
    { eapply good_weaken; [| |by apply (good_dice ts1)].
      - intros Hq1. by eapply no_dice_cons, Hq.
      - intros a st' _ H. exact H. }
    intros [d ts2] st1 He [Hd Hts]. cbn [fst snd] in Hd, Hts.
    assert (Inv st1) as HI1 by (by eapply Inv_evolves).
    eapply good_bind;
      [apply good_div; [done| by eapply is_int_node_evolves|done]|].
    intros acc' st2 He2 Hacc'.
    apply IH; [by eapply Inv_evolves|done|].
    intros Hq1. by eapply Hts, no_dice_cons, Hq.
Qed.

Lemma good_product ts st :
  Inv st -> good (no_dice ts) (product atm fuel ts) st (parsed ts).
Proof.
  intros HI. unfold product.
  eapply good_bind; [by apply good_dice|].
  intros [d ts1] st1 He [Hd Hts]. cbn [fst snd] in Hd, Hts.
  apply good_product_loop; [by eapply Inv_evolves|done..].
Qed.

Lemma good_sum_loop q n acc ts st :
  Inv st -> is_int_node st acc -> (q = true -> no_dice ts = true) ->
  good q (sum_loop atm fuel n acc ts) st
    (fun a st' => is_int_node st' a.1 /\ (q = true -> no_dice a.2 = true)).
Proof.
  revert acc ts st. induction n as [|n IH]; intros acc ts st HI Hacc Hq.
  { by apply good_raise. }
  destruct ts as [|t ts1]; [by apply good_ret|].
  destruct t; try (by apply good_ret); cbn [sum_loop].
  - eapply good_bind.
    { eapply good_weaken; [| |by apply (good_product ts1)].
      - intros Hq1. by eapply no_dice_cons, Hq.
      - intros a st' _ H. exact H. }
    intros [d ts2] st1 He [Hd Hts]. cbn [fst snd] in Hd, Hts.
    assert (Inv st1) as HI1 by (by eapply Inv_evolves).
    eapply good_bind;
      [apply good_add; [done| by eapply is_int_node_evolves|done]|].
    intros acc' st2 He2 Hacc'.
    apply IH; [by eapply Inv_evolves|done|].
    intros Hq1. by eapply Hts, no_dice_cons, Hq.
  - eapply good_bind.
    { eapply good_weaken; [| |by apply (good_product ts1)].
      - intros Hq1. by eapply no_dice_cons, Hq.
      - intros a st' _ H. exact H. }
    intros [d ts2] st1 He [Hd Hts]. cbn [fst snd] in Hd, Hts.
    assert (Inv st1) as HI1 by (by eapply Inv_evolves).
    eapply good_bind;
      [apply good_sub; [done| by eapply is_int_node_evolves|done]|].
    intros acc' st2 He2 Hacc'.
    apply IH; [by eapply Inv_evolves|done|].
    intros Hq1. by eapply Hts, no_dice_cons, Hq.
Qed.

Lemma good_sum ts st :
  Inv st -> good (no_dice ts) (sum atm fuel ts) st (parsed ts).
Proof.
  intros HI. unfold sum.
  eapply good_bind; [by apply good_product|].
  intros [d ts1] st1 He [Hd Hts]. cbn [fst snd] in Hd, Hts.
  apply good_sum_loop; [by eapply Inv_evolves|done..].
Qed.
End Good.

Lemma good_atom f ts st :
  Inv st -> good (no_dice ts) (atom f ts) st (parsed ts).
Proof.
  revert ts st. induction f as [|f IH]; intros ts st HI.
  { by apply good_raise. }
  rewrite atom_S.
  destruct ts as [|t ts1]; [by apply good_raise|].
  destruct t; try (by apply good_raise).
  - eapply good_bind; [by apply good_number|].
    intros r st1 He Hr. apply good_ret; [by eapply Inv_evolves|]. by split.
  - destruct (follows_atom ts1); [|by apply good_raise].
    eapply good_bind; [by apply good_var|].
    intros r st1 He Hr. apply good_ret; [by eapply Inv_evolves|]. by split.
  - eapply good_bind; [by apply (IH ts1)|].
    intros [a ts2] st1 He [Ha Hts]. cbn [fst snd] in Ha, Hts.
    assert (Inv st1) as HI1 by (by eapply Inv_evolves).
    eapply good_bind; [by apply good_neg|].
    intros r st2 He2 Hr. apply good_ret; [by eapply Inv_evolves|]. by split.
  - eapply good_bind; [by apply (good_sum (atom f) f IH ts1)|].
    intros [a ts2] st1 He [Ha Hts]. cbn [fst snd] in Ha, Hts.
    assert (Inv st1) as HI1 by (by eapply Inv_evolves).
    destruct ts2 as [|t ts3]; [by apply good_raise|].
    destruct t; try (by apply good_raise).
    eapply good_bind; [by apply good_brackets|].
    intros r st2 He2 Hr. apply good_ret; [by eapply Inv_evolves|].
    split; [done|]. intros Hq. by eapply no_dice_cons, Hts.
Qed.

(** ** Names *)

Lemma is_name_char_not_ws a : is_name_char a = true -> is_ws a = false.
Proof.
  unfold is_name_char, is_ws. cbn zeta. intros H.
  apply orb_true_iff in H as [H|H].
  - apply andb_true_iff in H as [H1 H2]. apply Nat.leb_le in H1.
    apply orb_false_iff. split; apply Nat.eqb_neq; lia.
  - apply Nat.eqb_eq in H. apply orb_false_iff. split; apply Nat.eqb_neq; lia.
Qed.

Lemma is_name_char_not_digit a : is_name_char a = true -> is_digit a = false.
Proof.
  unfold is_name_char, is_digit. cbn zeta. intros H.
  apply orb_true_iff in H as [H|H].
  - apply andb_true_iff in H as [H1 H2]. apply Nat.leb_le in H1.
    apply andb_false_iff. right. apply Nat.leb_gt. lia.
  - apply Nat.eqb_eq in H. apply andb_false_iff. right. apply Nat.leb_gt. lia.
Qed.

Lemma all_name_chars_snoc w a :
  all_name_chars w = true -> is_name_char a = true ->
  all_name_chars (snoc w a) = true.
Proof.
  intros Hw Ha. unfold snoc. induction w as [|b w IH].
  - rewrite string_app_nil_l. cbn [all_name_chars]. by rewrite Ha.
  - rewrite string_app_cons. cbn [all_name_chars] in *.
    apply andb_true_iff in Hw as [Hb Hw]. rewrite Hb. cbn [andb]. auto.
Qed.

Lemma lex_name_more (c : lexctx) (u w rest : string) :
  all_name_chars w = true ->
  lex_from (InName c u) (w +:+ rest) = lex_from (InName c (u +:+ w)) rest.
Proof.
  revert u. induction w as [|a w IH]; intros u Hw.
  - by rewrite string_app_nil_r.
  - rewrite string_app_cons. cbn in *.
    apply andb_true_iff in Hw as [Ha Hw]. rewrite Ha. cbn.
    rewrite IH by done. unfold snoc. by rewrite string_app_assoc.
Qed.

(** A name that is not the dice keyword is lexed as one [NAME]. *)
Lemma tokenize_name (x : string) :
  x <> EmptyString -> all_name_chars x = true -> classify CtxDice x = NAME x ->
  tokenize x = [NAME x].
Proof.
  destruct x as [|a x]; [done|]. intros _ Hx Hc. cbn in Hx.
  apply andb_true_iff in Hx as [Ha Hx]. unfold tokenize.
  cbn [lex_from lex_step]. unfold step_idle.
  rewrite (is_name_char_not_ws a Ha), (is_name_char_not_digit a Ha), Ha.
  cbn [app]. rewrite <- (string_app_nil_r x) at 1.
  rewrite lex_name_more by done. cbn [lex_from lex_flush].
  rewrite string_app_cons, string_app_nil_l. by rewrite Hc.
Qed.

Lemma lex_number_head w s : exists ts, lex_from (InNumber w) s = NUMBER w :: ts \/
  exists w' ts', lex_from (InNumber w) s = NUMBER w' :: ts'.
Proof.
  revert w. induction s as [|a s IH]; intros w.
  - exists []. by left.
  - cbn [lex_from lex_step]. destruct (is_digit a).
    + destruct (IH (snoc w a)) as [ts [H|H]]; exists ts; right; eauto.
    + destruct (step_idle CtxAfter a) as [o m']. eexists. by left.
Qed.

Lemma lex_in_name_first (s w x : string) (ts : list token) :
  w <> EmptyString -> all_name_chars w = true ->
  lex_from (InName CtxDice w) s = NAME x :: ts ->
  x <> EmptyString /\ all_name_chars x = true /\ classify CtxDice x = NAME x.
Proof.
  revert w. induction s as [|a s IH]; intros w Hne Hw.
  - cbn. intros [= Hc]. assert (x = w) as ->; [|done].
    unfold classify in Hc. destruct (String.eqb w "d"); congruence.
  - cbn [lex_from lex_step]. destruct (is_name_char a) eqn:Ha.
    + cbn [app]. apply IH.
      * unfold snoc. by destruct w.
      * by apply all_name_chars_snoc.
    + destruct (step_idle (ctx_after (classify CtxDice w)) a) as [o m'].
      cbn [app]. intros [= Hc _]. assert (x = w) as ->; [|done].
      unfold classify in Hc. destruct (String.eqb w "d"); congruence.
Qed.

(** The name at the head of the tokens of a text is made of the characters
    of [NAME] and is not the dice keyword. *)
Lemma first_name_chars (s x : string) (ts : list token) :
  tokenize s = NAME x :: ts ->
  x <> EmptyString /\ all_name_chars x = true /\ classify CtxDice x = NAME x.
Proof.
  intros H.
  unfold tokenize in H. induction s as [|a s IH]; [done|].
  cbn [lex_from lex_step] in H. unfold step_idle in H.
  destruct (is_ws a); [by apply IH|].
  destruct (is_digit a).
  { destruct (lex_number_head (String a EmptyString) s) as [ts' [H'|(w' & ts'' & H')]];
      rewrite H' in H; done. }
  destruct (is_name_char a) eqn:Ha.
  { cbn [app] in H. apply lex_in_name_first in H; [done..|]. cbn. by rewrite Ha. }
  repeat match type of H with
         | context [if ?b then _ else _] => destruct b
         end; cbn [app] in H; done.
Qed.

(** It is lexed, on its own, as that [NAME]. *)
Lemma tokenize_first_name (s x : string) (ts : list token) :
  tokenize s = NAME x :: ts -> tokenize x = [NAME x].
Proof.
  intros H. destruct (first_name_chars s x ts H) as (? & ? & ?).
  by apply tokenize_name.
Qed.

(** ** A parse call *)

Lemma assign_var_run (x : string) (r : nat) (st : state) :
  assign_var x r st
  = (Ok (S (length (heap st))),
     mkState (heap st ++ [mkResult (value (heap st !!! r)) (Some x) None;
                          mkResult (value (heap st !!! r))
                            (Some (x +:+ " = " +:+ fmt (string_ (heap st !!! r))))
                            None])
             (<[x := length (heap st)]> (vars st)) (tape st) (drawn st)).
Proof.
  destruct st as [h vs t d]. cbn [heap vars tape drawn]. exec.
  rewrite Nat.add_1_r. reflexivity.
Qed.

Lemma store_grows_alloc q st (l : list _ParseResult) vs :
  (forall r, well_tagged (heap st !!! r)) -> Forall well_tagged l ->
  store_grows q st (mkState (heap st ++ l) vs (tape st) (drawn st)).
Proof.
  intros Hw Hl. unfold store_grows. cbn [heap tape drawn].
  split; [done|]. split; [done|]. split; [done|].
  split; [rewrite length_app; lia|]. split.
  - intros r Hr. rewrite lookup_total_old by done. apply node_le_refl.
  - intros r _. by apply tagged_app.
Qed.

Lemma start_other f ts :
  assigned ts = None ->
  start f ts
  = ('(s, rest) ← sum (atom f) f ts;
     match rest with
     | [] => mret s
     | _ => raise SyntaxError
     end).
Proof. destruct ts as [|[] [|[] ts]]; done. Qed.

Lemma assigned_Some ts x :
  assigned ts = Some x -> exists ts1, ts = NAME x :: EQUAL :: ts1.
Proof.
  destruct ts as [|[] [|[] ts]]; try done. cbn. intros [= ->]. eauto.
Qed.

(** An assignment of an integer node, and the public result of it. *)
Lemma assign_public (x : string) (r : nat) (st : state) (n : Z) (s0 : string) :
  value (heap st !!! r) = VInt n -> string_ (heap st !!! r) = Some s0 ->
  (b ← assign_var x r; to_public_result b) st
  = (Ok (mkPublic n (x +:+ " = " +:+ s0)),
     mkState (heap st ++ [mkResult (VInt n) (Some x) None;
                          mkResult (VInt n) (Some (x +:+ " = " +:+ s0)) None])
             (<[x := length (heap st)]> (vars st)) (tape st) (drawn st)).
Proof.
  intros Hn Hs. rewrite (bind_Ok _ _ _ _ _ (assign_var_run x r st)).
  rewrite Hn, Hs. unfold to_public_result, mbind, M_bind, bind, deref.
  cbn [heap]. rewrite <- (Nat.add_1_r (length (heap st))), lookup_total_fresh.
  reflexivity.
Qed.

Lemma to_public_int (r : nat) (st : state) (n : Z) (s0 : string) :
  value (heap st !!! r) = VInt n -> string_ (heap st !!! r) = Some s0 ->
  to_public_result r st = (Ok (mkPublic n s0), st).
Proof.
  intros Hn Hs. unfold to_public_result, mbind, M_bind, bind, deref.
  by rewrite Hn, Hs.
Qed.

(** What a parse call does to a state that satisfies the invariant. *)
Lemma parse_spec (s : string) (st : state) :
  Inv st ->
  store_grows (no_dice (tokenize s)) st (parse s st).2 /\
  Inv (parse s st).2 /\
  match (parse s st).1 with
  | Ok p =>
      match assigned (tokenize s) with
      | Some x =>
          exists b,
            vars (parse s st).2 = <[x := b]> (vars st) /\
            heap (parse s st).2 !!! b = mkResult (VInt (pvalue p)) (Some x) None
      | None => vars (parse s st).2 = vars st
      end
  | Raise e => vars (parse s st).2 = vars st /\ allowed st e /\ e <> OutOfFuel
  end.
Proof.
  intros HI. pose proof (parse_fueled s st) as Hfuel. unfold parse in *.
  cbn zeta in *. remember (tokenize s) as ts eqn:Hlex.
  set (f := parse_fuel ts) in *.
  assert (forall e st1 (q : bool),
            evolves q st st1 -> allowed st e -> e <> OutOfFuel ->
            store_grows q st st1 /\ Inv st1 /\
            vars st1 = vars st /\ allowed st e /\ e <> OutOfFuel) as Hraise.
  { intros e st1 q He Ha Hne. split; [apply He|].
    split; [by eapply Inv_evolves|]. split; [apply He|]. done. }
  destruct (assigned ts) as [x|] eqn:Ea.
  - apply assigned_Some in Ea as [ts1 Hts].
    assert (tokenize x = [NAME x]) as Hx.
    { apply (tokenize_first_name s x (EQUAL :: ts1)). congruence. }
    assert (no_dice ts = no_dice ts1) as -> by (by rewrite Hts).
    assert ((r ← start f ts; to_public_result r) st
            = ('(s0, rest) ← sum (atom f) f ts1;
               match rest with
               | [] => b ← assign_var x s0; to_public_result b
               | _ => raise SyntaxError
               end) st) as Hstart.
    { rewrite Hts. cbn [start]. rewrite bind_assoc. apply bind_ext.
      intros [s0 [|t rest]] st'; [done|]. by apply bind_raise. }
    rewrite Hstart in *. clear Hstart.
    destruct (good_sum (atom f) f (good_atom f) ts1 st HI) as [He Hres].
    destruct (sum (atom f) f ts1 st) as [[[r rest]|e] st1] eqn:Hsum;
      cbn [fst snd] in *.
    + destruct Hres as [(Hr & n & s0 & Hn & Hs0) _]. cbn [fst] in *.
      assert (Inv st1) as HI1 by (by eapply Inv_evolves).
      destruct rest as [|t rest].
      * rewrite (bind_Ok _ _ _ _ _ Hsum), (assign_public x r st1 n s0) by done.
        cbn [fst snd]. set (l := [_; _]).
        assert (Forall well_tagged l) as Hl by (by repeat constructor).
        split; [|split].
        -- eapply store_grows_trans; [apply He|].
           by apply store_grows_alloc; [apply HI1|].
        -- split; cbn [heap vars].
           ++ by apply tagged_app; [apply HI1|].
           ++ intros y r' Hy. rewrite length_app.
              destruct (decide (y = x)) as [->|Hne].
              ** rewrite lookup_insert_eq in Hy. injection Hy as <-.
                 split; [done|]. split; [cbn; lia|].
                 exists n. by rewrite lookup_total_fresh0.
              ** rewrite lookup_insert_ne in Hy by done.
                 destruct (proj2 HI1 y r' Hy) as (Hy1 & Hy2 & k & Hy3).
                 split; [done|]. split; [lia|]. exists k.
                 by rewrite lookup_total_old.
        -- exists (length (heap st1)). cbn [heap vars pvalue].
           rewrite (proj1 He). split; [done|].
           by rewrite lookup_total_fresh0.
      * rewrite (bind_Ok _ _ _ _ _ Hsum). by apply Hraise.
    + rewrite (bind_raise _ _ _ _ _ Hsum) in Hfuel |- *. cbn [fst snd] in *.
      apply Hraise; [done..|]. by intros ->.
  - assert ((r ← start f ts; to_public_result r) st
            = ('(s0, rest) ← sum (atom f) f ts;
               match rest with
               | [] => to_public_result s0
               | _ => raise SyntaxError
               end) st) as Hstart.
    { rewrite start_other by done. rewrite bind_assoc. apply bind_ext.
      intros [s0 [|t rest]] st'; [done|]. by apply bind_raise. }
    rewrite Hstart in *. clear Hstart.
    destruct (good_sum (atom f) f (good_atom f) ts st HI) as [He Hres].
    destruct (sum (atom f) f ts st) as [[[r rest]|e] st1] eqn:Hsum;
      cbn [fst snd] in *.
    + destruct Hres as [(Hr & n & s0 & Hn & Hs0) _]. cbn [fst] in *.
      assert (Inv st1) as HI1 by (by eapply Inv_evolves).
      destruct rest as [|t rest].
      * rewrite (bind_Ok _ _ _ _ _ Hsum), (to_public_int r st1 n s0) by done.
        cbn [fst snd]. split; [apply He|]. split; [done|]. apply He.
      * rewrite (bind_Ok _ _ _ _ _ Hsum). by apply Hraise.
    + rewrite (bind_raise _ _ _ _ _ Hsum) in Hfuel |- *. cbn [fst snd] in *.
      apply Hraise; [done..|]. by intros ->.
Qed.

(** ** The states a parser can reach *)

Lemma Inv_init (random : nat -> Z) : Inv (DiceParser_init random).
Proof.
  split; [by intros r|]. intros x r Hx. unfold DiceParser_init in Hx.
  cbn [vars] in Hx. by rewrite lookup_empty in Hx.
Qed.

Lemma reachable_Inv (st : state) : reachable st -> Inv st.
Proof.
  induction 1 as [random|s st _ IH]; [apply Inv_init|]. by apply parse_spec.
Qed.

(** The parse of a name that is bound to an integer node. *)
Lemma parse_name (x : string) (st : state) (r : nat) (n : Z) (t : string) :
  tokenize x = [NAME x] -> vars st !! x = Some r ->
  value (heap st !!! r) = VInt n -> string_ (heap st !!! r) = Some t ->
  parse x st = (Ok (mkPublic n t), st).
Proof.
  intros Hx Hr Hn Ht. unfold parse. rewrite Hx. destruct st as [h vs t0 d].
  cbn [vars heap] in *. exec. by rewrite Hn, Ht.
Qed.

Lemma clamped_trans (v v1 v2 : Z) :
  v1 = v \/ (v < 1 /\ v1 = 0) -> v2 = v1 \/ (v1 < 1 /\ v2 = 0) ->
  v2 = v \/ (v < 1 /\ v2 = 0).
Proof. lia. Qed.

(** What a parse call that does not assign to [x] leaves of the binding of
    [x]: the name refers to the same object, which holds the value it held,
    or 0 if that was below 1. *)
Lemma binding_after_call (s x : string) (st : state) (r : nat) (v : Z) :
  Inv st -> vars st !! x = Some r ->
  heap st !!! r = mkResult (VInt v) (Some x) None ->
  ~ assigns x s st ->
  vars (parse s st).2 !! x = Some r /\
  exists v',
    heap (parse s st).2 !!! r = mkResult (VInt v') (Some x) None /\
    (v' = v \/ (v < 1 /\ v' = 0)).
Proof.
  intros HI Hr Hn Hs. destruct (proj2 HI x r Hr) as (_ & Hlt & _).
  destruct (parse_spec s st HI) as (Hg & _ & H).
  destruct (store_grows_binding _ _ _ r v x Hg Hlt Hn) as (_ & v' & Hn' & Hv').
  split; [|by exists v'].
  destruct (parse s st).1 as [p|e] eqn:Hres.
  - destruct (assigned (tokenize s)) as [y|] eqn:Ha; [|by rewrite H].
    destruct H as (b & -> & _). rewrite lookup_insert_ne; [done|].
    intros ->. apply Hs. split; [done|]. by exists p.
  - destruct H as (-> & _). done.
Qed.

(** What it leaves of what the variable reads as. *)
Lemma reads_after_call (s x : string) (st : state) (v : Z) :
  reachable st ->
  is_Some (vars st !! x) ->
  parse x st = (Ok (mkPublic v x), st) ->
  ~ assigns x s st ->
  vars (parse s st).2 !! x = vars st !! x /\
  exists v',
    parse x (parse s st).2 = (Ok (mkPublic v' x), (parse s st).2) /\
    (v' = v \/ (v < 1 /\ v' = 0)).
Proof.
  intros Hst [r Hr] Hread Hs. pose proof (reachable_Inv st Hst) as HI.
  destruct (proj2 HI x r Hr) as (Hx & Hlt & n & Hn).
  assert (n = v) as ->.
  { rewrite (parse_name x st r n x) in Hread; [congruence|done..| |];
      by rewrite Hn. }
  destruct (binding_after_call s x st r v HI Hr Hn Hs) as (Hr' & v' & Hn' & Hv').
  split; [congruence|]. exists v'. split; [|done].
  apply (parse_name x _ r v' x); [done..| |]; by rewrite Hn'.
Qed.


(** X6. A parse call raises nothing but a syntax error, a division by zero or
    a [KeyError], and that only for a name that has no binding: on a parser
    in any state it can reach, no assertion of the actions fails and no
    operator meets a value that is not an integer. *)
Theorem parse_exceptions (s : string) (st : state) (e : exn) :
  reachable st ->
  (parse s st).1 = Raise e ->
  e = SyntaxError \/ e = ZeroDivisionError \/
  exists k, e = KeyError k /\ vars st !! k = None.
Proof.
  intros Hst Hrun. destruct (parse_spec s st (reachable_Inv st Hst)) as (_ & _ & H).
  rewrite Hrun in H. destruct H as (_ & Ha & Hne).
  destruct e; cbn in Ha; try done; eauto.
Qed.

(** After "x = 5", parsing "y + x" raises the [KeyError] of y, the name
    without a binding. *)
Lemma parse_exceptions_witness :
  KeyError "y" = SyntaxError \/ KeyError "y" = ZeroDivisionError \/
  exists k, KeyError "y" = KeyError k /\
            vars (parse "x = 5" (DiceParser_init (fun _ => 0))).2 !! k = None.
Proof.
  apply (parse_exceptions "y + x"
           (parse "x = 5" (DiceParser_init (fun _ => 0))).2 (KeyError "y")).
  - apply reachable_parse, reachable_init.
  - vm_compute. reflexivity.
Defined.

(** X7. A parse call that raises binds no name and unbinds none: the map
    from names to stored objects is as it was, so an assignment whose
    right-hand side fails binds nothing; and every variable still reads as
    its value v, or as 0 when v was below 1, which is what the call makes of
    a variable that it took as the size of a roll before it raised. *)
Theorem parse_failure_keeps_bindings (s : string) (st : state) (e : exn) :
  reachable st ->
  (parse s st).1 = Raise e ->
  vars (parse s st).2 = vars st /\
  forall x v,
    is_Some (vars st !! x) ->
    parse x st = (Ok (mkPublic v x), st) ->
    exists v',
      parse x (parse s st).2 = (Ok (mkPublic v' x), (parse s st).2) /\
      (v' = v \/ (v < 1 /\ v' = 0)).
Proof.
  intros Hst Hrun. split.
  - destruct (parse_spec s st (reachable_Inv st Hst)) as (_ & _ & H).
    rewrite Hrun in H. by destruct H as (Hv & _).
  - intros x v Hx Hread. apply reads_after_call; [done..|].
    intros (_ & p & Hp). congruence.
Qed.

(** After "x = -2" on a new parser, "y = 1dx / 0" raises: no name is bound
    by it, and x, taken as the size of the roll, reads as 0. *)
Lemma parse_failure_keeps_bindings_witness :
  vars (parse "y = 1dx / 0" (parse "x = -2" (DiceParser_init (fun _ => 0))).2).2
  = vars (parse "x = -2" (DiceParser_init (fun _ => 0))).2 /\
  exists v',
    parse "x" (parse "y = 1dx / 0" (parse "x = -2" (DiceParser_init (fun _ => 0))).2).2
    = (Ok (mkPublic v' "x"),
       (parse "y = 1dx / 0" (parse "x = -2" (DiceParser_init (fun _ => 0))).2).2) /\
    (v' = -2 \/ (-2 < 1 /\ v' = 0)).
Proof.
  destruct (parse_failure_keeps_bindings "y = 1dx / 0"
              (parse "x = -2" (DiceParser_init (fun _ => 0))).2 ZeroDivisionError)
    as [Hvars Hreads].
  - apply reachable_parse, reachable_init.
  - vm_compute. reflexivity.
  - split; [exact Hvars|]. apply (Hreads "x" (-2)).
    + vm_compute. eauto.
    + vm_compute. reflexivity.
Defined.

(** X8. A parse call that returns rebinds no name, unless the input is an
    assignment, and then it rebinds the assigned name only: every other name
    refers to the stored object it referred to, and still reads as its value
    v, or as 0 when v was below 1, which is what the call makes of a variable
    that it takes as the size of a roll. *)
Theorem parse_binds_only_target (s : string) (st : state) (p : ParseResult)
    (st' : state) :
  reachable st ->
  parse s st = (Ok p, st') ->
  match assigned (tokenize s) with
  | Some x => forall y, y <> x -> vars st' !! y = vars st !! y
  | None => vars st' = vars st
  end /\
  forall y v,
    assigned (tokenize s) <> Some y ->
    is_Some (vars st !! y) ->
    parse y st = (Ok (mkPublic v y), st) ->
    exists v',
      parse y st' = (Ok (mkPublic v' y), st') /\
      (v' = v \/ (v < 1 /\ v' = 0)).
Proof.
  intros Hst Hrun. split.
  - destruct (parse_spec s st (reachable_Inv st Hst)) as (_ & _ & H).
    rewrite Hrun in H. cbn [fst snd] in H.
    destruct (assigned (tokenize s)) as [x|]; [|done].
    destruct H as (b & -> & _). intros y Hy. by rewrite lookup_insert_ne.
  - intros y v Hy Hbound Hread.
    replace st' with (parse s st).2 by (by rewrite Hrun).
    apply reads_after_call; [done..|]. by intros [Ha _].
Qed.

(** After "x = -2" on a new parser, the call "y = 1dx" returns: x refers
    to the object it referred to, and reads as 0. *)
Lemma parse_binds_only_target_witness :
  vars (parse "y = 1dx" (parse "x = -2" (DiceParser_init (fun _ => 0))).2).2 !! "x"
  = vars (parse "x = -2" (DiceParser_init (fun _ => 0))).2 !! "x" /\
  exists v',
    parse "x" (parse "y = 1dx" (parse "x = -2" (DiceParser_init (fun _ => 0))).2).2
    = (Ok (mkPublic v' "x"),
       (parse "y = 1dx" (parse "x = -2" (DiceParser_init (fun _ => 0))).2).2) /\
    (v' = -2 \/ (-2 < 1 /\ v' = 0)).
Proof.
  destruct (parse_binds_only_target "y = 1dx"
              (parse "x = -2" (DiceParser_init (fun _ => 0))).2
              (mkPublic 0 "y = [0]")
              (parse "y = 1dx" (parse "x = -2" (DiceParser_init (fun _ => 0))).2).2)
    as [Hvars Hreads].
  - apply reachable_parse, reachable_init.
  - vm_compute. reflexivity.
  - split.
    + apply Hvars. discriminate.
    + apply (Hreads "x" (-2)).
      * vm_compute. discriminate.
      * vm_compute. eauto.
      * vm_compute. reflexivity.
Defined.

(** X9. Every variable that is bound can be read: on a parser in any state it
    can reach, the parse of a bound name returns, with the name as text,
    and changes nothing. *)
Theorem bound_variable_readable (x : string) (st : state) :
  reachable st ->
  is_Some (vars st !! x) ->
  exists v, parse x st = (Ok (mkPublic v x), st).
Proof.
  intros Hst [r Hr]. destruct (proj2 (reachable_Inv st Hst) x r Hr) as (Hx & _ & n & Hn).
  exists n. apply (parse_name x st r n x); [done..| |]; by rewrite Hn.
Qed.

(** The name bound by "total = 2 * 21" is read back. *)
Lemma bound_variable_readable_witness :
  exists v,
    parse "total" (parse "total = 2 * 21" (DiceParser_init (fun _ => 0))).2
    = (Ok (mkPublic v "total"),
       (parse "total = 2 * 21" (DiceParser_init (fun _ => 0))).2).
Proof.
  apply (bound_variable_readable "total"
           (parse "total = 2 * 21" (DiceParser_init (fun _ => 0))).2).
  - apply reachable_parse, reachable_init.
  - vm_compute. eauto.
Defined.

(** X10. Only a roll draws: a parse call whose input has no dice keyword leaves
    the random source as it was, whether it returns or raises; and no parse
    call rewinds it. *)
Theorem parse_draws_only_for_dice (s : string) (st : state) :
  reachable st ->
  tape (parse s st).2 = tape st /\
  (drawn st <= drawn (parse s st).2)%nat /\
  (no_dice (tokenize s) = true -> drawn (parse s st).2 = drawn st).
Proof.
  intros Hst.
  destruct (parse_spec s st (reachable_Inv st Hst)) as ((Ht & Hd & Hq & _) & _).
  done.
Qed.

(** "x = (2 + 3) * 4" draws nothing on a new parser. *)
Lemma parse_draws_only_for_dice_witness :
  tape (parse "x = (2 + 3) * 4" (DiceParser_init (fun _ => 0))).2
  = tape (DiceParser_init (fun _ => 0)) /\
  (drawn (DiceParser_init (fun _ => 0%Z))
   <= drawn (parse "x = (2 + 3) * 4" (DiceParser_init (fun _ => 0%Z))).2)%nat /\
  drawn (parse "x = (2 + 3) * 4" (DiceParser_init (fun _ => 0))).2
  = drawn (DiceParser_init (fun _ => 0)).
Proof.
  destruct (parse_draws_only_for_dice "x = (2 + 3) * 4"
              (DiceParser_init (fun _ => 0)) (reachable_init _))
    as (Ht & Hd & Hq).
  split; [exact Ht|]. split; [exact Hd|]. apply Hq. reflexivity.
Defined.

(** X11. A binding outlives the parse calls that do not assign to its name: the
    variable is still bound, and it still holds its value v, or 0 if v was
    below 1, which is what the size of a roll does to it. *)
Theorem binding_survives (s x : string) (st : state) (v : Z) :
  reachable st ->
  parse x st = (Ok (mkPublic v x), st) ->
  is_Some (vars st !! x) ->
  assigned (tokenize s) <> Some x ->
  exists v',
    parse x (parse s st).2 = (Ok (mkPublic v' x), (parse s st).2) /\
    (v' = v \/ (v < 1 /\ v' = 0)).
Proof.
  intros Hst Hread [r Hr] Hs. pose proof (reachable_Inv st Hst) as HI.
  destruct (proj2 HI x r Hr) as (Hx & Hlt & n & Hn).
  assert (n = v) as ->.
  { rewrite (parse_name x st r n x) in Hread; [congruence|done..| |];
      by rewrite Hn. }
  destruct (parse_spec s st HI) as (Hg & HI' & H).
  destruct (store_grows_binding _ _ _ r v x Hg Hlt Hn) as (Hlt' & v' & Hn' & Hv').
  assert (vars (parse s st).2 !! x = Some r) as Hr'.
  { destruct (parse s st).1 as [p|e].
    - destruct (assigned (tokenize s)) as [y|]; [|by rewrite H].
      destruct H as (b & -> & _). rewrite lookup_insert_ne; [done|congruence].
    - destruct H as (-> & _). done. }
  exists v'. split; [|done].
  apply (parse_name x _ r v' x); [done..| |]; by rewrite Hn'.
Qed.

(** After "x = 5", the failing call "y = x / 0" and then "x" again. *)
Lemma binding_survives_witness :
  exists v',
    parse "x" (parse "y = x / 0" (parse "x = 5" (DiceParser_init (fun _ => 0))).2).2
    = (Ok (mkPublic v' "x"),
       (parse "y = x / 0" (parse "x = 5" (DiceParser_init (fun _ => 0))).2).2) /\
    (v' = 5 \/ (5 < 1 /\ v' = 0)).
Proof.
  apply (binding_survives "y = x / 0" "x"
           (parse "x = 5" (DiceParser_init (fun _ => 0))).2 5).
  - apply reachable_parse, reachable_init.
  - vm_compute. reflexivity.
  - vm_compute. eauto.
  - vm_compute. discriminate.
Defined.

(** * The lexer *)

(** ** Blanks *)

Lemma is_ws_not_digit a : is_ws a = true -> is_digit a = false.
Proof.
  intros Hw. destruct (is_digit a) eqn:Hd; [|done].
  by rewrite (is_digit_not_ws a Hd) in Hw.
Qed.

Lemma is_ws_not_name_char a : is_ws a = true -> is_name_char a = false.
Proof.
  intros Hw. destruct (is_name_char a) eqn:Hn; [|done].
  by rewrite (is_name_char_not_ws a Hn) in Hw.
Qed.

Lemma lex_failed s : lex_from Failed s = [].
Proof. induction s as [|a s IH]; [done|]. cbn. exact IH. Qed.

Lemma lex_idle_ws c u s :
  all_ws u = true -> lex_from (Idle c) (u +:+ s) = lex_from (Idle c) s.
Proof.
  induction u as [|b u IH]; [done|]. cbn [all_ws]. intros [Hb Hu]%andb_true_iff.
  rewrite string_app_cons. cbn [lex_from lex_step]. unfold step_idle.
  rewrite Hb. cbn [app]. by apply IH.
Qed.

Lemma lex_name_end (c : lexctx) (u rest : string) :
  continues (InName c u) rest = false ->
  lex_from (InName c u) rest
  = classify c u :: lex_from (Idle (ctx_after (classify c u))) rest.
Proof.
  destruct rest as [|a rest]; cbn; [done|]. intros ->.
  by destruct (step_idle _ a).
Qed.

Lemma lex_skip_ws m u s :
  all_ws u = true -> continues m s = false ->
  lex_from m (u +:+ s) = lex_from m s.
Proof.
  intros Hu Hs. destruct m as [c|w|c w|].
  - by apply lex_idle_ws.
  - destruct u as [|b u]; [done|]. cbn [all_ws] in Hu.
    apply andb_true_iff in Hu as [Hb Hu]. rewrite string_app_cons.
    cbn [lex_from lex_step]. rewrite (is_ws_not_digit b Hb).
    unfold step_idle. rewrite Hb. cbn [app]. rewrite lex_idle_ws by done.
    symmetry. apply lex_number_end. by destruct s.
  - destruct u as [|b u]; [done|]. cbn [all_ws] in Hu.
    apply andb_true_iff in Hu as [Hb Hu]. rewrite string_app_cons.
    cbn [lex_from lex_step]. rewrite (is_ws_not_name_char b Hb). cbn zeta.
    unfold step_idle. rewrite Hb. cbn [app]. rewrite lex_idle_ws by done.
    symmetry. by apply lex_name_end.
  - by rewrite !lex_failed.
Qed.

Lemma step_idle_mode c a :
  match (step_idle c a).2 with
  | InNumber _ => is_digit a = true
  | InName _ _ => is_name_char a = true
  | _ => True
  end.
Proof.
  unfold step_idle. destruct (is_ws a); [done|].
  destruct (is_digit a); [done|]. destruct (is_name_char a).
  - destruct c; try done.
    repeat match goal with
           | |- context [if ?b then _ else _] => destruct b
           end; done.
  - repeat match goal with
           | |- context [if ?b then _ else _] => destruct b
           end; done.
Qed.

Lemma lex_step_mode m a :
  match (lex_step m a).2 with
  | InNumber _ => is_digit a = true
  | InName _ _ => is_name_char a = true
  | _ => True
  end.
Proof.
  destruct m as [c|w|c w|]; cbn [lex_step].
  - apply step_idle_mode.
  - destruct (is_digit a) eqn:Hd; [done|].
    pose proof (step_idle_mode CtxAfter a) as H.
    destruct (step_idle CtxAfter a) as [o []]; cbn in *; congruence.
  - destruct (is_name_char a) eqn:Hn; [done|]. cbn zeta.
    pose proof (step_idle_mode (ctx_after (classify c w)) a) as H.
    destruct (step_idle _ a) as [o []]; cbn in *; congruence.
  - done.
Qed.

Lemma continues_step m a s :
  glued (String a EmptyString) s = false -> continues (lex_step m a).2 s = false.
Proof.
  unfold glued. cbn [last_char]. pose proof (lex_step_mode m a) as H.
  destruct s as [|b s]; cbn [head_char]; [by destruct (lex_step m a).2|].
  intros [Hd Hn]%orb_false_iff.
  destruct (lex_step m a).2; cbn [continues]; try done.
  - by rewrite H in Hd.
  - by rewrite H in Hn.
Qed.

Lemma glued_cons a s1 s2 : glued (String a s1) s2 = false ->
  glued s1 s2 = false /\ (s1 = EmptyString -> glued (String a EmptyString) s2 = false).
Proof.
  intros H. destruct s1 as [|b s1]; [done|]. split; [exact H|done].
Qed.

(** Blanks between two parts of a text that do not run together. *)
Lemma lex_blank m s1 u s2 :
  all_ws u = true -> glued s1 s2 = false ->
  (s1 = EmptyString -> continues m s2 = false) ->
  lex_from m (s1 +:+ u +:+ s2) = lex_from m (s1 +:+ s2).
Proof.
  intros Hu. revert m. induction s1 as [|a s1 IH]; intros m Hg Hm.
  - rewrite !string_app_nil_l. apply lex_skip_ws; auto.
  - apply glued_cons in Hg as [Hg Ha]. rewrite !string_app_cons.
    cbn [lex_from]. destruct (lex_step m a) as [o m'] eqn:Hstep. f_equal.
    apply IH; [done|]. intros Hs1.
    replace m' with (lex_step m a).2 by (by rewrite Hstep).
    apply continues_step; auto.
Qed.

(** X12. Blanks and tabs are ignored wherever they do not separate two digits
    or two letters: the parse of a text with blanks between two parts is the
    parse of the text without them; in particular blanks before and after
    the whole text do not count. *)
Theorem parse_ignores_blanks (s1 u s2 : string) (st : state) :
  all_ws u = true -> glued s1 s2 = false ->
  parse (s1 +:+ u +:+ s2) st = parse (s1 +:+ s2) st.
Proof.
  intros Hu Hg. unfold parse, tokenize. by rewrite lex_blank.
Qed.

(** "2" and "+3" with two blanks, or a tab, between them on a new parser;
    and "2+3" with a blank before it, or after it. *)
Lemma parse_ignores_blanks_witness :
  parse "2  +3" (DiceParser_init (fun _ => 0))
  = parse "2+3" (DiceParser_init (fun _ => 0)) /\
  parse " 2+3" (DiceParser_init (fun _ => 0))
  = parse "2+3" (DiceParser_init (fun _ => 0)) /\
  parse "2+3 " (DiceParser_init (fun _ => 0))
  = parse "2+3" (DiceParser_init (fun _ => 0)).
Proof.
  split; [|split].
  - apply (parse_ignores_blanks "2" "  " "+3"); reflexivity.
  - apply (parse_ignores_blanks EmptyString " " "2+3"); reflexivity.
  - apply (parse_ignores_blanks "2+3" " " EmptyString); reflexivity.
Defined.

(** ** Number literals *)

Lemma tokenize_number (w : string) :
  w <> EmptyString -> all_digits w = true -> tokenize w = [NUMBER w].
Proof.
  intros Hne Hd. unfold tokenize. rewrite <- (string_app_nil_r w) at 1.
  by rewrite lex_number by (done || reflexivity).
Qed.

Lemma parse_number_run (w : string) (st : state) :
  w <> EmptyString -> all_digits w = true ->
  parse w st
  = (Ok (mkPublic (int_of_str w) (str (int_of_str w))),
     mkState (heap st ++ [mkResult (VInt (int_of_str w))
                            (Some (str (int_of_str w))) None])
             (vars st) (tape st) (drawn st)).
Proof.
  intros Hne Hd. unfold parse. rewrite tokenize_number by done.
  destruct st as [h vs t d]. exec. rewrite lookup_total_fresh0. reflexivity.
Qed.

(** X13. A number literal is any run of digits and denotes a natural number;
    the text of the result is the canonical decimal text of that number, so
    leading zeros of the input are dropped: with a zero in front the literal
    parses to the same result and the same state. *)
Theorem parse_number_literal (w : string) (st : state) :
  w <> EmptyString -> all_digits w = true ->
  (parse w st).1 = Ok (mkPublic (int_of_str w) (str (int_of_str w))) /\
  0 <= int_of_str w /\
  parse (String "0" w) st = parse w st.
Proof.
  intros Hne Hd. split; [|split].
  - by rewrite parse_number_run.
  - by apply int_of_str_nonneg.
  - rewrite !parse_number_run by done. reflexivity.
Qed.

(** "007" on a new parser is 7, with the text "7". *)
Lemma parse_number_literal_witness :
  (parse "007" (DiceParser_init (fun _ => 0))).1
  = Ok (mkPublic (int_of_str "007") (str (int_of_str "007"))) /\
  0 <= int_of_str "007" /\
  parse "0007" (DiceParser_init (fun _ => 0))
  = parse "007" (DiceParser_init (fun _ => 0)).
Proof.
  apply (parse_number_literal "007" (DiceParser_init (fun _ => 0)));
    [discriminate|reflexivity].
Defined.

(** ** The letters of a roll *)

Lemma lex_after_number (N : Z) (a : ascii) (rest : string) :
  0 <= N -> is_digit a = false ->
  tokenize (str N +:+ String a rest)
  = NUMBER (str N) :: lex_from (Idle CtxAfter) (String a rest).
Proof.
  intros HN Ha. unfold tokenize.
  destruct (str_digits N HN) as (Hd & Hne & _).
  by rewrite lex_number.
Qed.

(** X14. After a number the letters of a roll are read in either case: "D"
    after the count is "d", and "H" and "L" after the size are "h" and "l",
    whatever follows. *)
Theorem parse_roll_letters_case (N M : Z) (rest : string) (st : state) :
  0 <= N -> 0 <= M ->
  parse (str N +:+ "D" +:+ rest) st = parse (str N +:+ "d" +:+ rest) st /\
  parse (str N +:+ "d" +:+ str M +:+ "H" +:+ rest) st
  = parse (str N +:+ "d" +:+ str M +:+ "h" +:+ rest) st /\
  parse (str N +:+ "d" +:+ str M +:+ "L" +:+ rest) st
  = parse (str N +:+ "d" +:+ str M +:+ "l" +:+ rest) st.
Proof.
  intros HN HM. unfold parse. split; [|split].
  - rewrite !(string_app_cons _ EmptyString), !string_app_nil_l.
    by rewrite !lex_after_number.
  - by rewrite !lex_NdM by (done || reflexivity).
  - by rewrite !lex_NdM by (done || reflexivity).
Qed.

(** "3D6", "4d6H3" and "2d20L1" on a new parser. *)
Lemma parse_roll_letters_case_witness :
  parse (str 3 +:+ "D" +:+ str 6) (DiceParser_init (fun _ => 0))
  = parse (str 3 +:+ "d" +:+ str 6) (DiceParser_init (fun _ => 0)) /\
  parse (str 4 +:+ "d" +:+ str 6 +:+ "H" +:+ "3") (DiceParser_init (fun _ => 0))
  = parse (str 4 +:+ "d" +:+ str 6 +:+ "h" +:+ "3") (DiceParser_init (fun _ => 0)) /\
  parse (str 2 +:+ "d" +:+ str 20 +:+ "L" +:+ "1") (DiceParser_init (fun _ => 0))
  = parse (str 2 +:+ "d" +:+ str 20 +:+ "l" +:+ "1") (DiceParser_init (fun _ => 0)).
Proof.
  destruct (parse_roll_letters_case 3 6 (str 6) (DiceParser_init (fun _ => 0)))
    as (H1 & _ & _); [lia..|].
  destruct (parse_roll_letters_case 4 6 "3" (DiceParser_init (fun _ => 0)))
    as (_ & H2 & _); [lia..|].
  destruct (parse_roll_letters_case 2 20 "1" (DiceParser_init (fun _ => 0)))
    as (_ & _ & H3); [lia..|].
  split; [exact H1|]. split; [exact H2|exact H3].
Defined.

(** * The keep modifiers *)

Lemma slices_partition (i : Z) (l : list Z) :
  (slice_to i l ++ slice_from i l)%list = l.
Proof. unfold slice_to, slice_from. apply take_drop. Qed.

(** X15. A modifier only selects: whatever its count, the outcomes it keeps and
    the outcomes it drops are together the roll, in some order, so the kept
    total and the dropped total add up to the total of the roll, and
    dropping outcomes that are not negative never raises the total. *)
Theorem get_actual_dice_partitions (m : DiceModifier) (dice : list Z) :
  ((get_actual_dice m dice).1 ++ (get_actual_dice m dice).2)%list ≡ₚ dice /\
  sum_list (get_actual_dice m dice).1 + sum_list (get_actual_dice m dice).2
  = sum_list dice /\
  (Forall (fun x => 0 <= x) dice ->
   sum_list (get_actual_dice m dice).1 <= sum_list dice).
Proof.
  assert (((get_actual_dice m dice).1 ++ (get_actual_dice m dice).2)%list ≡ₚ dice)
    as Hp.
  { destruct m as [|c|c]; cbn [get_actual_dice fst snd].
    - by rewrite app_nil_r.
    - rewrite (comm app), slices_partition. apply sorted_Permutation.
    - rewrite slices_partition. apply sorted_Permutation. }
  assert (sum_list (get_actual_dice m dice).1 + sum_list (get_actual_dice m dice).2
          = sum_list dice) as Hs.
  { by rewrite <- sum_list_app, (sum_list_Permutation _ _ Hp). }
  split; [done|]. split; [done|]. intros Hpos.
  enough (0 <= sum_list (get_actual_dice m dice).2) by lia.
  assert (Forall (fun x => 0 <= x) (get_actual_dice m dice).2) as Hd.
  { apply Forall_forall. intros x Hx.
    apply (proj1 (Forall_forall _ _) Hpos). rewrite <- Hp.
    apply elem_of_app. by right. }
  clear -Hd. induction Hd as [|x l Hx Hl IH]; [done|].
  unfold sum_list in *. cbn [foldr]. lia.
Qed.

(** The four highest of the outcomes 3, 5, 1, 6, 2, and the two lowest. *)
Lemma get_actual_dice_partitions_witness :
  sum_list (get_actual_dice (HighestDiceModifier 4) [3; 5; 1; 6; 2]).1
  <= sum_list [3; 5; 1; 6; 2] /\
  sum_list (get_actual_dice (LowestDiceModifier 2) [3; 5; 1; 6; 2]).1
  <= sum_list [3; 5; 1; 6; 2].
Proof.
  split.
  - apply (get_actual_dice_partitions (HighestDiceModifier 4) [3; 5; 1; 6; 2]).
    repeat constructor; lia.
  - apply (get_actual_dice_partitions (LowestDiceModifier 2) [3; 5; 1; 6; 2]).
    repeat constructor; lia.
Defined.

(** * Assignment *)

(** ** More fuel changes nothing *)

Lemma agrees_refl {A} (m : M A) : agrees m m.
Proof. by intros st _. Qed.

Lemma agrees_bind {A B} (m m' : M A) (k k' : A -> M B) :
  agrees m m' -> (forall a, agrees (k a) (k' a)) ->
  agrees (m ≫= k) (m' ≫= k').
Proof.
  intros Hm Hk st Hne. unfold mbind, M_bind, bind in *.
  rewrite Hm; [|intros Hf; destruct (m st) as [[a|e] st1]; cbn in *; congruence].
  destruct (m st) as [[a|e] st1]; [|done]. by apply Hk.
Qed.

Lemma agrees_bind_l {A B} (m m' : M A) (k : A -> M B) :
  agrees m m' -> agrees (m ≫= k) (m' ≫= k).
Proof. intros Hm. apply agrees_bind; [done|]. intros a. apply agrees_refl. Qed.

Section Mono.
Variables atm atm' : list token -> M (nat * list token).
Variables fuel fuel' : nat.
Hypothesis Hatm : forall ts, agrees (atm ts) (atm' ts).
Hypothesis Hfuel : (fuel <= fuel')%nat.

Lemma dice_size_opt_mono ts :
  agrees (dice_size_opt atm ts) (dice_size_opt atm' ts).
Proof.
  unfold dice_size_opt. destruct (starts_atom ts); [|apply agrees_refl].
  by apply agrees_bind_l.
Qed.

Lemma dice_modifier_opt_mono ts :
  agrees (dice_modifier_opt atm ts) (dice_modifier_opt atm' ts).
Proof.
  unfold dice_modifier_opt.
  destruct ts as [|[] ts1]; try apply agrees_refl; by apply agrees_bind_l.
Qed.

Lemma roll_tail_mono count ts :
  agrees (roll_tail atm count ts) (roll_tail atm' count ts).
Proof.
  unfold roll_tail. apply agrees_bind; [apply dice_size_opt_mono|].
  intros [size ts1]. apply agrees_bind_l, dice_modifier_opt_mono.
Qed.

Lemma dice_mono ts : agrees (dice atm ts) (dice atm' ts).
Proof.
  assert (agrees
            ('(a, ts1) ← atm ts;
             match ts1 with
             | KW_D :: ts2 => c ← dice_count a; roll_tail atm [c] ts2
             | _ => mret (a, ts1)
             end)
            ('(a, ts1) ← atm' ts;
             match ts1 with
             | KW_D :: ts2 => c ← dice_count a; roll_tail atm' [c] ts2
             | _ => mret (a, ts1)
             end)) as H.
  { apply agrees_bind; [done|]. intros [a ts1].
    destruct ts1 as [|[] ts2]; try apply agrees_refl.
    apply agrees_bind; [apply agrees_refl|]. intros c. apply roll_tail_mono. }
  destruct ts as [|[] ts1]; try exact H. apply roll_tail_mono.
Qed.

Lemma product_loop_mono n n' acc ts :
  (n <= n')%nat ->
  agrees (product_loop atm n acc ts) (product_loop atm' n' acc ts).
Proof.
  revert n' acc ts. induction n as [|n IH]; intros n' acc ts Hn.
  { by intros st Hne. }
  destruct n' as [|n']; [lia|].
  destruct ts as [|[] ts1]; try apply agrees_refl; cbn [product_loop].
  - apply agrees_bind; [apply dice_mono|]. intros [d ts2].
    apply agrees_bind; [apply agrees_refl|]. intros acc'. apply IH. lia.
  - apply agrees_bind; [apply dice_mono|]. intros [d ts2].
    apply agrees_bind; [apply agrees_refl|]. intros acc'. apply IH. lia.
Qed.

Lemma product_mono ts : agrees (product atm fuel ts) (product atm' fuel' ts).
Proof.
  unfold product. apply agrees_bind; [apply dice_mono|]. intros [d ts1].
  by apply product_loop_mono.
Qed.

Lemma sum_loop_mono n n' acc ts :
  (n <= n')%nat ->
  agrees (sum_loop atm fuel n acc ts) (sum_loop atm' fuel' n' acc ts).
Proof.
  revert n' acc ts. induction n as [|n IH]; intros n' acc ts Hn.
  { by intros st Hne. }
  destruct n' as [|n']; [lia|].
  destruct ts as [|[] ts1]; try apply agrees_refl; cbn [sum_loop].
  - apply agrees_bind; [apply product_mono|]. intros [d ts2].
    apply agrees_bind; [apply agrees_refl|]. intros acc'. apply IH. lia.
  - apply agrees_bind; [apply product_mono|]. intros [d ts2].
    apply agrees_bind; [apply agrees_refl|]. intros acc'. apply IH. lia.
Qed.

Lemma sum_mono ts : agrees (sum atm fuel ts) (sum atm' fuel' ts).
Proof.
  unfold sum. apply agrees_bind; [apply product_mono|]. intros [d ts1].
  by apply sum_loop_mono.
Qed.
End Mono.

Lemma atom_mono f f' ts : (f <= f')%nat -> agrees (atom f ts) (atom f' ts).
Proof.
  revert f' ts. induction f as [|f IH]; intros f' ts Hf.
  { by intros st Hne. }
  destruct f' as [|f']; [lia|]. rewrite !atom_S.
  destruct ts as [|[] ts1]; try apply agrees_refl.
  - apply agrees_bind_l, IH. lia.
  - apply agrees_bind_l, sum_mono; [|lia]. intros ts. apply IH. lia.
Qed.

(** ** An assignment evaluates its right-hand side *)

Lemma tokenize_assignment (x s : string) :
  tokenize x = [NAME x] ->
  tokenize (x +:+ " = " +:+ s) = NAME x :: EQUAL :: tokenize s.
Proof.
  intros Hx. destruct (first_name_chars x x [] Hx) as (Hne & Hn & Hc).
  destruct x as [|a x]; [done|]. cbn [all_name_chars] in Hn.
  apply andb_true_iff in Hn as [Ha Hn]. unfold tokenize.
  rewrite string_app_cons. cbn [lex_from lex_step]. unfold step_idle.
  rewrite (is_name_char_not_ws a Ha), (is_name_char_not_digit a Ha), Ha.
  cbn [app]. rewrite lex_name_more by done.
  rewrite string_app_cons, string_app_nil_l.
  rewrite lex_name_end by reflexivity. rewrite Hc. reflexivity.
Qed.

Lemma sum_fuel (f : nat) (ts : list token) (st : state) :
  (parse_fuel ts <= f)%nat ->
  assigned ts = None ->
  sum (atom f) f ts st = sum (atom (parse_fuel ts)) (parse_fuel ts) ts st.
Proof.
  intros Hf Ha. apply sum_mono; [|done|].
  - intros ts'. by apply atom_mono.
  - pose proof (start_fueled ts st) as Hs. rewrite start_other in Hs by done.
    unfold mbind, M_bind, bind in Hs.
    destruct (sum _ _ ts st) as [[a|e] st1]; cbn [fst] in *; [done|].
    cbn in Hs. intros [= ->]. by apply Hs.
Qed.

(** X16. An assignment evaluates its right-hand side as a parse call of that
    side alone would, from the same state and with the same draws: it
    returns the same value, with the name and "=" put before the text, binds
    the name to a new node that holds the value; and when the right-hand
    side alone raises, the assignment raises too and binds nothing. *)
Theorem assignment_evaluates_rhs (x s : string) (st : state) :
  reachable st ->
  tokenize x = [NAME x] ->
  assigned (tokenize s) = None ->
  (forall p st1,
     parse s st = (Ok p, st1) ->
     parse (x +:+ " = " +:+ s) st
     = (Ok (mkPublic (pvalue p) (x +:+ " = " +:+ pstring p)),
        mkState
          (heap st1 ++
           [mkResult (VInt (pvalue p)) (Some x) None;
            mkResult (VInt (pvalue p)) (Some (x +:+ " = " +:+ pstring p)) None])
          (<[x := length (heap st1)]> (vars st1)) (tape st1) (drawn st1))) /\
  (forall e st1,
     parse s st = (Raise e, st1) ->
     exists e',
       (parse (x +:+ " = " +:+ s) st).1 = Raise e' /\
       vars (parse (x +:+ " = " +:+ s) st).2 = vars st).
Proof.
  intros Hst Hx Ha. pose proof (reachable_Inv st Hst) as HI.
  unfold parse. rewrite tokenize_assignment by done.
  set (ts := tokenize s) in *. set (f2 := parse_fuel (NAME x :: EQUAL :: ts)).
  set (f := parse_fuel ts).
  assert (sum (atom f2) f2 ts st = sum (atom f) f ts st) as Hsum.
  { apply sum_fuel; [|done]. unfold f2, parse_fuel. cbn [length]. lia. }
  cbn [start]. rewrite start_other by done.
  destruct (good_sum (atom f) f (good_atom f) ts st HI) as [He Hres].
  rewrite !bind_assoc.
  rewrite (bind_run _ _ _ _ Hsum).
  destruct (sum (atom f) f ts st) as [[[r rest]|e] st1'] eqn:Hrun;
    cbn [fst snd] in *.
  - rewrite !(bind_Ok _ _ _ _ _ Hrun).
    destruct Hres as [(Hr & n & s0 & Hn & Hs0) _]. cbn [fst] in *.
    destruct rest as [|t rest].
    + rewrite bind_ret_l, (to_public_int r st1' n s0) by done.
      rewrite (assign_public x r st1' n s0) by done.
      split; [|done]. by intros p st1 [= <- <-].
    + rewrite !(bind_raise _ _ _ _ _ eq_refl : (raise SyntaxError ≫= _) st1' = _).
      split; [done|]. intros e st1 _. exists SyntaxError. split; [done|].
      apply He.
  - rewrite !(bind_raise _ _ _ _ _ Hrun). split; [done|].
    intros e' st1 _. exists e. split; [done|]. apply He.
Qed.

(** "x = 2d6" on a new parser whose random source yields 4 and 2: the
    same roll as "2d6" alone, bound to x; and "x = 1 / 0", which raises as
    "1 / 0" does and binds nothing. *)
Lemma assignment_evaluates_rhs_witness :
  parse ("x" +:+ " = " +:+ "2d6") (DiceParser_init (fun i => Z.of_nat (3 + 4 * i)))
  = (Ok (mkPublic 6 ("x" +:+ " = " +:+ "[4, 2]")),
     mkState
       (heap (parse "2d6" (DiceParser_init (fun i => Z.of_nat (3 + 4 * i)))).2 ++
        [mkResult (VInt 6) (Some "x") None;
         mkResult (VInt 6) (Some ("x" +:+ " = " +:+ "[4, 2]")) None])
       (<["x" := length (heap (parse "2d6"
                 (DiceParser_init (fun i => Z.of_nat (3 + 4 * i)))).2)]>
          (vars (parse "2d6" (DiceParser_init (fun i => Z.of_nat (3 + 4 * i)))).2))
       (tape (parse "2d6" (DiceParser_init (fun i => Z.of_nat (3 + 4 * i)))).2)
       (drawn (parse "2d6" (DiceParser_init (fun i => Z.of_nat (3 + 4 * i)))).2)) /\
  exists e',
    (parse ("x" +:+ " = " +:+ "1 / 0") (DiceParser_init (fun _ => 0))).1 = Raise e' /\
    vars (parse ("x" +:+ " = " +:+ "1 / 0") (DiceParser_init (fun _ => 0))).2
    = vars (DiceParser_init (fun _ => 0)).
Proof.
  split.
  - apply (proj1 (assignment_evaluates_rhs "x" "2d6"
                    (DiceParser_init (fun i => Z.of_nat (3 + 4 * i)))
                    (reachable_init _) eq_refl eq_refl)
             (mkPublic 6 "[4, 2]")
             (parse "2d6" (DiceParser_init (fun i => Z.of_nat (3 + 4 * i)))).2).
    vm_compute. reflexivity.
  - apply (proj2 (assignment_evaluates_rhs "x" "1 / 0"
                    (DiceParser_init (fun _ => 0))
                    (reachable_init _) eq_refl eq_refl)
             ZeroDivisionError
             (parse "1 / 0" (DiceParser_init (fun _ => 0))).2).
    vm_compute. reflexivity.
Defined.

(** * Rolls and variables as operands *)

Lemma lex_name_then (c : lexctx) (x rest : string) :
  x <> EmptyString -> all_name_chars x = true -> continues (InName c x) rest = false ->
  c <> CtxAfter ->
  lex_from (Idle c) (x +:+ rest)
  = classify c x :: lex_from (Idle (ctx_after (classify c x))) rest.
Proof.
  intros Hne Hn Hrest Hc. destruct x as [|a x]; [done|]. cbn [all_name_chars] in Hn.
  apply andb_true_iff in Hn as [Ha Hn].
  rewrite string_app_cons. cbn [lex_from lex_step]. unfold step_idle.
  rewrite (is_name_char_not_ws a Ha), (is_name_char_not_digit a Ha), Ha.
  assert (lex_from (InName c (String a EmptyString)) (x +:+ rest)
          = classify c (String a x)
            :: lex_from (Idle (ctx_after (classify c (String a x)))) rest) as H.
  { rewrite lex_name_more by done. rewrite string_app_cons, string_app_nil_l.
    by apply lex_name_end. }
  destruct c; try done; cbn [app]; exact H.
Qed.

(** X17. A roll is an operand like any other: for N >= 0, M >= 1 and k >= 0,
    "NdM + k" and "k * NdM" roll as "NdM" alone does from the same state, with
    the same draws, and add k to the total, or multiply it by k; the text
    shows the outcomes where the roll stood. *)
Theorem roll_in_arithmetic (N M k : Z) (st : state) :
  0 <= N -> 1 <= M -> 0 <= k ->
  exists v t st1 l2 l3,
    parse (str N +:+ "d" +:+ str M) st = (Ok (mkPublic v t), st1) /\
    parse (str N +:+ "d" +:+ str M +:+ " + " +:+ str k) st
    = (Ok (mkPublic (v + k) (t +:+ " + " +:+ str k)),
       mkState (heap st ++ l2) (vars st) (tape st) (drawn st1)) /\
    parse (str k +:+ " * " +:+ str N +:+ "d" +:+ str M) st
    = (Ok (mkPublic (k * v) (str k +:+ " * " +:+ t)),
       mkState (heap st ++ l3) (vars st) (tape st) (drawn st1)).
Proof.
  intros HN HM1 Hk. destruct st as [h vs tp d].
  assert (0 <= M) as HM by lia.
  destruct (str_digits N HN) as (HdN & HneN & _).
  destruct (str_digits M HM) as (HdM & HneM & _).
  destruct (str_digits k Hk) as (Hdk & Hnek & _).
  assert (tokenize (str N +:+ "d" +:+ str M +:+ " + " +:+ str k)
          = [NUMBER (str N); KW_D; NUMBER (str M); PLUS; NUMBER (str k)]) as Hlex2.
  { rewrite lex_NdM by (done || reflexivity). do 3 f_equal.
    rewrite !string_app_cons, string_app_nil_l. cbn [lex_from lex_step].
    change (step_idle CtxAfter " "%char) with (@nil token, Idle CtxAfter).
    cbn [app lex_from lex_step].
    change (step_idle CtxAfter "+"%char) with ([PLUS], Idle CtxDice).
    cbn [app lex_from lex_step]. f_equal.
    change (step_idle CtxDice " "%char) with (@nil token, Idle CtxDice).
    cbn [app]. rewrite <- (string_app_nil_r (str k)) at 1.
    by rewrite lex_number by (done || reflexivity). }
  assert (tokenize (str k +:+ " * " +:+ str N +:+ "d" +:+ str M)
          = [NUMBER (str k); STAR; NUMBER (str N); KW_D; NUMBER (str M)]) as Hlex3.
  { unfold tokenize. rewrite lex_number by (done || reflexivity). f_equal.
    rewrite !string_app_cons, string_app_nil_l. cbn [lex_from lex_step].
    change (step_idle CtxAfter " "%char) with (@nil token, Idle CtxAfter).
    cbn [app lex_from lex_step].
    change (step_idle CtxAfter "*"%char) with ([STAR], Idle CtxDice).
    cbn [app lex_from lex_step]. f_equal.
    change (step_idle CtxDice " "%char) with (@nil token, Idle CtxDice).
    cbn [app]. apply tokenize_NdM; done. }
  do 5 eexists. split; [|split].
  - rewrite heap_nil_r. unfold parse. rewrite tokenize_NdM by lia. exec.
    rewrite ?int_of_str_str by lia.
    destruct (Z.ltb_spec M 1) as [?|_]; [lia|]. exec.
    destruct (Z.leb_spec 1 M) as [_|?]; [|lia].
    rewrite roll_dice_run. exec. reflexivity.
  - rewrite heap_nil_r. unfold parse. rewrite Hlex2. exec.
    rewrite ?int_of_str_str by lia.
    destruct (Z.ltb_spec M 1) as [?|_]; [lia|]. exec.
    destruct (Z.leb_spec 1 M) as [_|?]; [|lia].
    rewrite roll_dice_run. exec. rewrite ?int_of_str_str by lia.
    unfold rolled. cbn [tape drawn]. reflexivity.
  - rewrite heap_nil_r. unfold parse. rewrite Hlex3. exec.
    rewrite ?int_of_str_str by lia.
    destruct (Z.ltb_spec M 1) as [?|_]; [lia|]. exec.
    destruct (Z.leb_spec 1 M) as [_|?]; [|lia].
    rewrite roll_dice_run. exec. rewrite ?int_of_str_str by lia.
    unfold rolled. cbn [tape drawn]. reflexivity.
Qed.

(** "2d6", "2d6 + 3" and "3 * 2d6" on a new parser. *)
Lemma roll_in_arithmetic_witness :
  exists v t st1 l2 l3,
    parse (str 2 +:+ "d" +:+ str 6) (DiceParser_init (fun i => Z.of_nat i))
    = (Ok (mkPublic v t), st1) /\
    parse (str 2 +:+ "d" +:+ str 6 +:+ " + " +:+ str 3)
      (DiceParser_init (fun i => Z.of_nat i))
    = (Ok (mkPublic (v + 3) (t +:+ " + " +:+ str 3)),
       mkState (heap (DiceParser_init (fun i => Z.of_nat i)) ++ l2)
               (vars (DiceParser_init (fun i => Z.of_nat i)))
               (tape (DiceParser_init (fun i => Z.of_nat i))) (drawn st1)) /\
    parse (str 3 +:+ " * " +:+ str 2 +:+ "d" +:+ str 6)
      (DiceParser_init (fun i => Z.of_nat i))
    = (Ok (mkPublic (3 * v) (str 3 +:+ " * " +:+ t)),
       mkState (heap (DiceParser_init (fun i => Z.of_nat i)) ++ l3)
               (vars (DiceParser_init (fun i => Z.of_nat i)))
               (tape (DiceParser_init (fun i => Z.of_nat i))) (drawn st1)).
Proof.
  apply (roll_in_arithmetic 2 6 3 (DiceParser_init (fun i => Z.of_nat i))); lia.
Defined.

(** X18. A bound variable is an operand like any other: on a parser in a state
    it can reach, where the variable x reads as v, "x + k", "k * x", "-x"
    and "(x)" evaluate to v + k, k * v, -v and v for k >= 0, with the name
    in the text, and neither the bindings nor the random source change. *)
Theorem variable_in_arithmetic (x : string) (k v : Z) (st : state) :
  reachable st ->
  is_Some (vars st !! x) ->
  parse x st = (Ok (mkPublic v x), st) ->
  0 <= k ->
  parses_to (x +:+ " + " +:+ str k) st (v + k) /\
  parses_to (str k +:+ " * " +:+ x) st (k * v) /\
  parses_to ("-" +:+ x) st (- v) /\
  parses_to ("(" +:+ x +:+ ")") st v.
Proof.
  intros Hst [r Hr] Hread Hk. pose proof (reachable_Inv st Hst) as HI.
  destruct (proj2 HI x r Hr) as (Hx & Hlt & n & Hn).
  assert (n = v) as ->.
  { rewrite (parse_name x st r n x) in Hread; [congruence|done..| |];
      by rewrite Hn. }
  destruct (first_name_chars x x [] Hx) as (Hne & Hchars & Hc).
  destruct (str_digits k Hk) as (Hdk & Hnek & _).
  assert (forall c, c <> CtxAfter -> c <> CtxSize -> classify c x = NAME x) as Hcl.
  { intros [] ? ?; done. }
  destruct st as [h vs tp d]. cbn [vars heap] in *. unfold parses_to.
  cbn [heap vars tape drawn].
  split; [|split; [|split]].
  - eexists. unfold parse.
    assert (tokenize (x +:+ " + " +:+ str k) = [NAME x; PLUS; NUMBER (str k)]) as ->.
    { unfold tokenize. rewrite lex_name_then by (done || reflexivity).
      rewrite Hc. f_equal. rewrite !string_app_cons, string_app_nil_l.
      cbn [ctx_after lex_from lex_step].
      change (step_idle CtxAfter " "%char) with (@nil token, Idle CtxAfter).
      cbn [app lex_from lex_step].
      change (step_idle CtxAfter "+"%char) with ([PLUS], Idle CtxDice).
      cbn [app lex_from lex_step]. f_equal.
      change (step_idle CtxDice " "%char) with (@nil token, Idle CtxDice).
      cbn [app]. rewrite <- (string_app_nil_r (str k)) at 1.
      by rewrite lex_number by (done || reflexivity). }
    rewrite heap_nil_r. exec. rewrite lookup_total_old by done. rewrite Hn.
    exec. rewrite ?int_of_str_str by lia. reflexivity.
  - eexists. unfold parse.
    assert (tokenize (str k +:+ " * " +:+ x) = [NUMBER (str k); STAR; NAME x]) as ->.
    { unfold tokenize. rewrite lex_number by (done || reflexivity). f_equal.
      rewrite !string_app_cons, string_app_nil_l. cbn [lex_from lex_step].
      change (step_idle CtxAfter " "%char) with (@nil token, Idle CtxAfter).
      cbn [app lex_from lex_step].
      change (step_idle CtxAfter "*"%char) with ([STAR], Idle CtxDice).
      cbn [app lex_from lex_step]. f_equal.
      change (step_idle CtxDice " "%char) with (@nil token, Idle CtxDice).
      cbn [app]. exact Hx. }
    rewrite heap_nil_r. exec. rewrite ?int_of_str_str by lia.
    rewrite lookup_total_old by done. rewrite Hn. exec. reflexivity.
  - eexists. unfold parse.
    assert (tokenize ("-" +:+ x) = [MINUS; NAME x]) as ->.
    { unfold tokenize. rewrite string_app_cons, string_app_nil_l.
      cbn [lex_from lex_step].
      change (step_idle CtxDice "-"%char) with ([MINUS], Idle CtxAtom).
      cbn [app]. f_equal. rewrite <- (string_app_nil_r x) at 1.
      by rewrite lex_name_then by (done || reflexivity). }
    rewrite heap_nil_r. exec. rewrite lookup_total_old by done. rewrite Hn.
    exec. reflexivity.
  - eexists. unfold parse.
    assert (tokenize ("(" +:+ x +:+ ")") = [LPAR; NAME x; RPAR]) as ->.
    { unfold tokenize. rewrite string_app_cons, string_app_nil_l.
      cbn [lex_from lex_step].
      change (step_idle CtxDice "("%char) with ([LPAR], Idle CtxDice).
      cbn [app]. f_equal. rewrite lex_name_then by (done || reflexivity).
      by rewrite Hc. }
    rewrite heap_nil_r. exec. rewrite lookup_total_old by done. rewrite Hn.
    exec. reflexivity.
Qed.

(** After "x = 7" on a new parser: "x + 3", "3 * x", "-x" and "(x)". *)
Lemma variable_in_arithmetic_witness :
  parses_to ("x" +:+ " + " +:+ str 3)
    (parse "x = 7" (DiceParser_init (fun _ => 0))).2 (7 + 3) /\
  parses_to (str 3 +:+ " * " +:+ "x")
    (parse "x = 7" (DiceParser_init (fun _ => 0))).2 (3 * 7) /\
  parses_to ("-" +:+ "x") (parse "x = 7" (DiceParser_init (fun _ => 0))).2 (- 7) /\
  parses_to ("(" +:+ "x" +:+ ")") (parse "x = 7" (DiceParser_init (fun _ => 0))).2 7.
Proof.
  apply (variable_in_arithmetic "x" 3 7
           (parse "x = 7" (DiceParser_init (fun _ => 0))).2).
  - apply reachable_parse, reachable_init.
  - vm_compute. eauto.
  - vm_compute. reflexivity.
  - lia.
Defined.

(** * Inputs that never evaluate *)

Lemma consumes_ret {A} (a : A) (rest ts : list token) :
  (forallb consumable rest = true -> forallb consumable ts = true) ->
  consumes (mret (a, rest)) ts.
Proof. intros H st a' rest' st' [= <- <- <-]. exact H. Qed.

Lemma consumes_raise {A} (e : exn) (ts : list token) :
  consumes (@raise (A * list token) e) ts.
Proof. by intros st a rest st'. Qed.

Lemma consumes_bind {A B} (m : M (A * list token))
    (k : A * list token -> M (B * list token)) (ts : list token) :
  consumes m ts -> (forall a ts1, consumes (k (a, ts1)) ts1) ->
  consumes (m ≫= k) ts.
Proof.
  intros Hm Hk st b rest st' Hrun Hrest.
  apply bind_Ok_inv in Hrun as ([a ts1] & st1 & Hrun1 & Hrun2).
  eapply Hm; [done|]. by eapply Hk.
Qed.

Lemma consumes_action {A B} (m : M A) (k : A -> M (B * list token))
    (ts : list token) :
  (forall a, consumes (k a) ts) -> consumes (m ≫= k) ts.
Proof.
  intros Hk st b rest st' Hrun Hrest.
  apply bind_Ok_inv in Hrun as (a & st1 & Hrun1 & Hrun2). by eapply Hk.
Qed.

Lemma consumes_cons {A} (m : M (A * list token)) (t : token) (ts : list token) :
  consumable t = true -> consumes m ts -> consumes m (t :: ts).
Proof.
  intros Ht Hm st a rest st' Hrun Hrest. cbn [forallb]. rewrite Ht. by eapply Hm.
Qed.

Section Consumes.
Variable atm : list token -> M (nat * list token).
Variable fuel : nat.
Hypothesis Hatm : forall ts, consumes (atm ts) ts.

Lemma dice_size_opt_consumes ts : consumes (dice_size_opt atm ts) ts.
Proof.
  unfold dice_size_opt. destruct (starts_atom ts); [|by apply consumes_ret].
  apply consumes_bind; [done|]. intros a ts1.
  apply consumes_action. intros s. by apply consumes_ret.
Qed.

Lemma dice_modifier_opt_consumes ts : consumes (dice_modifier_opt atm ts) ts.
Proof.
  unfold dice_modifier_opt.
  destruct ts as [|[] ts1]; try (by apply consumes_ret).
  - apply consumes_cons; [done|]. apply consumes_bind; [done|]. intros a ts2.
    apply consumes_action. intros s. by apply consumes_ret.
  - apply consumes_cons; [done|]. apply consumes_bind; [done|]. intros a ts2.
    apply consumes_action. intros s. by apply consumes_ret.
Qed.

Lemma roll_tail_consumes count ts : consumes (roll_tail atm count ts) ts.
Proof.
  unfold roll_tail. apply consumes_bind; [apply dice_size_opt_consumes|].
  intros size ts1. apply consumes_bind; [apply dice_modifier_opt_consumes|].
  intros modifier ts2. apply consumes_action. intros r. by apply consumes_ret.
Qed.

Lemma dice_consumes ts : consumes (dice atm ts) ts.
Proof.
  assert (consumes
            ('(a, ts1) ← atm ts;
             match ts1 with
             | KW_D :: ts2 => c ← dice_count a; roll_tail atm [c] ts2
             | _ => mret (a, ts1)
             end) ts) as H.
  { apply consumes_bind; [done|]. intros a ts1.
    destruct ts1 as [|[] ts2]; try (by apply consumes_ret).
    apply consumes_cons; [done|]. apply consumes_action. intros c.
    apply roll_tail_consumes. }
  destruct ts as [|[] ts1]; try exact H.
  apply consumes_cons; [done|]. apply roll_tail_consumes.
Qed.

Lemma product_loop_consumes n acc ts : consumes (product_loop atm n acc ts) ts.
Proof.
  revert acc ts. induction n as [|n IH]; intros acc ts; [apply consumes_raise|].
  destruct ts as [|[] ts1]; try (by apply consumes_ret); cbn [product_loop].
  - apply consumes_cons; [done|]. apply consumes_bind; [apply dice_consumes|].
    intros d ts2. apply consumes_action. intros acc'. apply IH.
  - apply consumes_cons; [done|]. apply consumes_bind; [apply dice_consumes|].
    intros d ts2. apply consumes_action. intros acc'. apply IH.
Qed.

Lemma product_consumes ts : consumes (product atm fuel ts) ts.
Proof.
  unfold product. apply consumes_bind; [apply dice_consumes|].
  intros d ts1. apply product_loop_consumes.
Qed.

Lemma sum_loop_consumes n acc ts : consumes (sum_loop atm fuel n acc ts) ts.
Proof.
  revert acc ts. induction n as [|n IH]; intros acc ts; [apply consumes_raise|].
  destruct ts as [|[] ts1]; try (by apply consumes_ret); cbn [sum_loop].
  - apply consumes_cons; [done|]. apply consumes_bind; [apply product_consumes|].
    intros d ts2. apply consumes_action. intros acc'. apply IH.
  - apply consumes_cons; [done|]. apply consumes_bind; [apply product_consumes|].
    intros d ts2. apply consumes_action. intros acc'. apply IH.
Qed.

Lemma sum_consumes ts : consumes (sum atm fuel ts) ts.
Proof.
  unfold sum. apply consumes_bind; [apply product_consumes|].
  intros d ts1. apply sum_loop_consumes.
Qed.
End Consumes.

Lemma atom_consumes f ts : consumes (atom f ts) ts.
Proof.
  revert ts. induction f as [|f IH]; intros ts; [apply consumes_raise|].
  rewrite atom_S. destruct ts as [|[] ts1]; try apply consumes_raise.
  - apply consumes_cons; [done|]. apply consumes_action. intros r.
    by apply consumes_ret.
  - apply consumes_cons; [done|].
    destruct (follows_atom ts1); [|apply consumes_raise].
    apply consumes_action. intros r. by apply consumes_ret.
  - apply consumes_cons; [done|]. apply consumes_bind; [apply IH|].
    intros a ts2. apply consumes_action. intros r. by apply consumes_ret.
  - apply consumes_cons; [done|].
    apply consumes_bind; [by apply sum_consumes|]. intros s ts2.
    destruct ts2 as [|[] ts3]; try apply consumes_raise.
    apply consumes_cons; [done|]. apply consumes_action. intros r.
    by apply consumes_ret.
Qed.

Lemma parse_Ok_consumable (s : string) (st : state) (p : ParseResult)
    (st' : state) :
  parse s st = (Ok p, st') ->
  forallb consumable (expression_tokens (tokenize s)) = true.
Proof.
  unfold parse. cbn zeta. set (ts := tokenize s). set (f := parse_fuel ts).
  intros Hrun. apply bind_Ok_inv in Hrun as (r & st1 & Hstart & _).
  assert (forall ts0 (k : nat -> M nat),
            ('(s0, rest) ← sum (atom f) f ts0;
             match rest with
             | [] => k s0
             | _ => raise SyntaxError
             end) st = (Ok r, st1) ->
            forallb consumable ts0 = true) as Hsum.
  { intros ts0 k H. apply bind_Ok_inv in H as ([s0 rest] & st2 & Hs & Hk).
    destruct rest as [|t rest]; [|done].
    by apply (sum_consumes (atom f) f (atom_consumes f) ts0 st s0 [] st2). }
  destruct (assigned ts) as [x|] eqn:Ea.
  - apply assigned_Some in Ea as [ts1 Hts]. rewrite Hts in *.
    cbn [start expression_tokens] in *. by apply (Hsum ts1 (assign_var x)).
  - rewrite start_other in Hstart by done.
    assert (expression_tokens ts = ts) as ->
      by (by destruct ts as [|[] [|[] ?]]).
    by apply (Hsum ts mret).
Qed.

(** X19. A parse call returns only when every token of the expression is one
    that the grammar has a place for: an input with a character outside the
    language, or with "=" anywhere but after a name at its very start, raises
    whatever the state is, so an assignment cannot be nested or chained. *)
Theorem parse_rejects_unconsumable (s : string) (st : state) :
  forallb consumable (expression_tokens (tokenize s)) = false ->
  exists e, (parse s st).1 = Raise e.
Proof.
  intros Hs. destruct (parse s st) as [[p|e] st'] eqn:Hrun; [|by exists e].
  apply parse_Ok_consumable in Hrun. congruence.
Qed.

(** The chained assignment "x = y = 3" and the nested "(x = 3)" raise
    on a parser on which y is bound. *)
Lemma parse_rejects_unconsumable_witness :
  (exists e, (parse "x = y = 3" (parse "y = 1" (DiceParser_init (fun _ => 0))).2).1
             = Raise e) /\
  (exists e, (parse "(x = 3)" (parse "y = 1" (DiceParser_init (fun _ => 0))).2).1
             = Raise e).
Proof.
  split.
  - apply (parse_rejects_unconsumable "x = y = 3"). reflexivity.
  - apply (parse_rejects_unconsumable "(x = 3)"). reflexivity.
Defined.

(** * The environment across parse calls (C1) *)

(** C1, amended. The variable environment is made once, empty, when the
    [DiceParser] is constructed, so on a new parser every name is unbound;
    it is not made anew by a parse call.  When a parse call of an assignment
    to [name] returns with value v, the state it leaves binds [name] to a
    node of value v and text [name], and a reference to the name then yields
    v.  The binding stays for the later parse calls on that parser: after
    any number of calls, returning or raising, on inputs that are not
    assignments to [name], the parse of [name] returns, without changing
    the state, v, or 0 when v was below 1, which is what a call that takes
    the variable as the size of a roll makes of it. *)
Theorem C1_environment_per_parser :
  (forall random, vars (DiceParser_init random) = ∅) /\
  (forall random name,
      tokenize name = [NAME name] ->
      parse name (DiceParser_init random)
      = (Raise (KeyError name), DiceParser_init random)) /\
  (forall st s name ts p st1,
      tokenize s = NAME name :: EQUAL :: ts ->
      parse s st = (Ok p, st1) ->
      exists b,
        vars st1 !! name = Some b /\
        heap st1 !!! b = mkResult (VInt (pvalue p)) (Some name) None /\
        forall fuel,
          (r ← start (S fuel) [NAME name]; to_public_result r) st1
          = (Ok (mkPublic (pvalue p) name), st1)) /\
  (forall st s name ts p st1 st2,
      reachable st ->
      tokenize s = NAME name :: EQUAL :: ts ->
      parse s st = (Ok p, st1) ->
      later_calls name st1 st2 ->
      exists v',
        parse name st2 = (Ok (mkPublic v' name), st2) /\
        (v' = pvalue p \/ (pvalue p < 1 /\ v' = 0))).
Proof.
  split; [reflexivity|]. split; [|split].
  - intros random name Hname. unfold parse. rewrite Hname.
    unfold DiceParser_init. exec. rewrite lookup_empty. reflexivity.
  - intros st s name ts p st1. apply assignment_binds.
  - intros st s name ts p st1 st2 Hst Hlex Hrun Hlater.
    destruct (assignment_binds st s name ts p st1 Hlex Hrun) as (b & Hb & Hn & _).
    assert (reachable st1) as Hst1.
    { replace st1 with (parse s st).2 by (by rewrite Hrun).
      by apply reachable_parse. }
    assert (reachable st2 /\ vars st2 !! name = Some b /\
            exists v', heap st2 !!! b = mkResult (VInt v') (Some name) None /\
                       (v' = pvalue p \/ (pvalue p < 1 /\ v' = 0))) as (Hst2 & Hb2 & v' & Hn2 & Hv').
    { induction Hlater as [|s' st' Hlater IH Hs'].
      - split; [done|]. split; [done|]. exists (pvalue p). auto.
      - destruct IH as (Hst' & Hb' & v1 & Hn1 & Hv1).
        destruct (binding_after_call s' name st' b v1 (reachable_Inv st' Hst')
                    Hb' Hn1) as (Hb2 & v2 & Hn2 & Hv2); [by intros [? _]|].
        split; [by apply reachable_parse|]. split; [done|]. exists v2.
        split; [done|]. by eapply clamped_trans. }
    exists v'. split; [|done].
    destruct (proj2 (reachable_Inv st2 Hst2) name b Hb2) as (Hname & _).
    apply (parse_name name st2 b v' name); [done..| |]; by rewrite Hn2.
Qed.

(** The amended C1 on a new parser: "x" is unbound; after "x = 5" the name
    is bound to a node of value 5; and after "x = -2" and then the call
    "1dx", which does not assign to x, the parse of "x" returns 0. *)
Lemma C1_environment_per_parser_witness :
  parse "x" (DiceParser_init (fun _ => 0))
  = (Raise (KeyError "x"), DiceParser_init (fun _ => 0)) /\
  (exists b st1,
     vars st1 !! "x" = Some b /\
     heap st1 !!! b = mkResult (VInt 5) (Some "x") None /\
     forall fuel,
       (r ← start (S fuel) [NAME "x"]; to_public_result r) st1
       = (Ok (mkPublic 5 "x"), st1)) /\
  (exists v',
     parse "x" (parse "1dx" (parse "x = -2" (DiceParser_init (fun _ => 0))).2).2
     = (Ok (mkPublic v' "x"),
        (parse "1dx" (parse "x = -2" (DiceParser_init (fun _ => 0))).2).2) /\
     (v' = -2 \/ (-2 < 1 /\ v' = 0))).
Proof.
  split; [|split].
  - apply (proj1 (proj2 C1_environment_per_parser) (fun _ => 0) "x").
    reflexivity.
  - destruct (proj1 (proj2 (proj2 C1_environment_per_parser))
                (DiceParser_init (fun _ => 0))
                "x = 5" "x" [NUMBER "5"] (mkPublic 5 "x = 5")
                (snd (parse "x = 5" (DiceParser_init (fun _ => 0))))
                eq_refl eq_refl) as [b Hb].
    exists b. eexists. exact Hb.
  - apply (proj2 (proj2 (proj2 C1_environment_per_parser))
             (DiceParser_init (fun _ => 0))
             "x = -2" "x" [MINUS; NUMBER "2"] (mkPublic (-2) "x = -2")
             (parse "x = -2" (DiceParser_init (fun _ => 0))).2).
    + apply reachable_init.
    + reflexivity.
    + reflexivity.
    + apply later_call; [apply later_now|]. discriminate.
Defined.

(** * The defaults of a roll (C8) *)

Lemma tokenize_dM (M : Z) :
  0 <= M -> tokenize ("d" +:+ str M) = [KW_D; NUMBER (str M)].
Proof.
  intros HM. destruct (str_digits M HM) as (Hd & Hne & _).
  unfold tokenize. rewrite string_app_cons, string_app_nil_l.
  destruct (str M) as [|a w] eqn:Ew; [done|]. cbn [all_digits] in Hd.
  apply andb_true_iff in Hd as [Ha Hw].
  cbn [lex_from lex_step]. change (step_idle CtxDice "d"%char)
    with (@nil token, InName CtxDice "d").
  cbn [app lex_from lex_step].
  destruct (is_name_char a) eqn:Hn;
    [by rewrite (is_name_char_not_digit a Hn) in Ha|].
  cbn [classify String.eqb Ascii.eqb Bool.eqb ctx_after]. unfold step_idle.
  rewrite (is_digit_not_ws a Ha), Ha. cbn [app]. f_equal.
  rewrite <- (string_app_nil_r w) at 1.
  rewrite lex_digits_more by done. rewrite string_app_cons, string_app_nil_l.
  reflexivity.
Qed.

Lemma tokenize_Nd (N : Z) :
  0 <= N -> tokenize (str N +:+ "d") = [NUMBER (str N); KW_D].
Proof.
  intros HN. destruct (str_digits N HN) as (Hd & Hne & _). unfold tokenize.
  by rewrite lex_number by (done || reflexivity).
Qed.

Lemma tokenize_d_H (k : Z) :
  0 <= k -> tokenize ("d H" +:+ str k) = [KW_D; KW_H; NUMBER (str k)].
Proof.
  intros Hk. destruct (str_digits k Hk) as (Hd & Hne & _). unfold tokenize.
  rewrite !string_app_cons, string_app_nil_l. cbn [lex_from lex_step].
  change (step_idle CtxDice "d"%char) with (@nil token, InName CtxDice "d").
  cbn [app lex_from lex_step].
  change (is_name_char " ") with false.
  cbn [classify String.eqb Ascii.eqb Bool.eqb ctx_after].
  change (step_idle CtxSize " "%char) with (@nil token, Idle CtxSize).
  cbn [app lex_from lex_step].
  change (step_idle CtxSize "H"%char) with ([KW_H], Idle CtxAtom).
  cbn [app]. do 2 f_equal. rewrite <- (string_app_nil_r (str k)) at 1.
  by rewrite lex_number by (done || reflexivity).
Qed.

(** C8. [roll] starts from count 1, size 20 and the keep-all modifier and
    only a child tagged with a role replaces the default of that role; the
    keep-all modifier keeps the whole roll and drops nothing.  Whatever its
    children are, what [roll] returns is the roll of the roller made with
    the count, the size and the modifier so resolved, where a role without a
    child has its default.  So on every parser state: "d" draws once, the
    outcome is between 1 and 20, and it is the value and the only entry of
    the outcome list; "dM" rolls one die of M sides; "Nd" rolls N dice of 20
    sides and keeps them all; and "d H k" selects among the one outcome of a
    die of 20 sides. *)
Theorem C8_roll_defaults :
  (forall st args c s m st',
      roll_args (1, 20, NullDiceModifier) args st = (Ok (c, s, m), st') ->
      (no_role st args "dice_count" -> c = 1) /\
      (no_role st args "dice_size" -> s = 20) /\
      (no_role st args "dice_modifier" -> m = NullDiceModifier)) /\
  (forall dice, get_actual_dice NullDiceModifier dice = (dice, [])) /\
  (forall st, exists st',
      let v := 1 + tape st (drawn st) mod 20 in
      parse "d" st = (Ok (mkPublic v ("[" +:+ str v +:+ "]")), st') /\
      drawn st' = S (drawn st) /\
      1 <= v <= 20) /\
  (forall st args r st',
      roll args st = (Ok r, st') ->
      exists c s m v ds st1,
        roll_args (1, 20, NullDiceModifier) args st = (Ok (c, s, m), st) /\
        DiceRoller_roll c s m st = (Ok (v, ds), st1) /\
        r = length (heap st1) /\
        st' = mkState
                (heap st1 ++
                 [mkResult (VInt v)
                    (Some ("[" +:+ join ", " (map str ds) +:+ "]")) None])
                (vars st1) (tape st1) (drawn st1) /\
        (no_role st args "dice_count" -> c = 1) /\
        (no_role st args "dice_size" -> s = 20) /\
        (no_role st args "dice_modifier" -> m = NullDiceModifier)) /\
  (forall st M,
      1 <= M ->
      exists st',
        let v := 1 + tape st (drawn st) mod M in
        parse ("d" +:+ str M) st = (Ok (mkPublic v ("[" +:+ str v +:+ "]")), st') /\
        drawn st' = S (drawn st) /\
        1 <= v <= M) /\
  (forall st N,
      0 <= N ->
      exists st',
        let ds := rolled st (Z.to_nat N) 20 in
        parse (str N +:+ "d") st
        = (Ok (mkPublic (sum_list ds) ("[" +:+ join ", " (map str ds) +:+ "]")),
           st') /\
        drawn st' = (drawn st + Z.to_nat N)%nat /\
        len ds = N /\
        Forall (fun x => 1 <= x <= 20) ds) /\
  (forall st k,
      0 <= k ->
      exists st',
        let v := 1 + tape st (drawn st) mod 20 in
        parse ("d H" +:+ str k) st
        = (Ok (mkPublic (sum_list (get_actual_dice (HighestDiceModifier k) [v]).1)
                        ("[" +:+ str v +:+ "]")), st') /\
        drawn st' = S (drawn st)).
Proof.
  split; [|split; [|split; [|split; [|split; [|split]]]]].
  - intros st args c s m st' Hrun.
    apply roll_args_keeps in Hrun as (_ & Hc & Hs & Hm). auto.
  - reflexivity.
  - intros [h vs t d]. rewrite heap_nil_r. eexists. cbn zeta.
    cbn [tape drawn]. split; [|split].
    + run_parse. rewrite Z.add_0_r. reflexivity.
    + reflexivity.
    + pose proof (Z.mod_pos_bound (t d) 20 eq_refl). lia.
  - intros st args r st' Hrun. unfold roll in Hrun.
    apply bind_Ok_inv in Hrun as ([[c s] m] & st0 & Hargs & Hrun).
    destruct (roll_args_keeps _ _ _ _ _ _ _ Hargs) as (-> & Hc & Hs & Hm).
    apply bind_Ok_inv in Hrun as ([v ds] & st1 & Hroll & Hnew).
    exists c, s, m, v, ds, st1. unfold new in Hnew. injection Hnew as <- <-.
    cbn [fst snd] in *. auto 10.
  - intros [h vs t d] M HM. rewrite heap_nil_r. eexists. cbn zeta.
    cbn [tape drawn]. split; [|split].
    + unfold parse. rewrite tokenize_dM by lia. exec.
      rewrite !int_of_str_str by lia.
      destruct (Z.ltb_spec M 1) as [?|_]; [lia|]. exec.
      destruct (Z.leb_spec 1 M) as [_|?]; [|lia]. exec.
      rewrite Z.add_0_r. reflexivity.
    + reflexivity.
    + pose proof (Z.mod_pos_bound (t d) M). lia.
  - intros [h vs t d] N HN. rewrite heap_nil_r. eexists. cbn zeta.
    split; [|split; [|split]].
    + unfold parse. rewrite tokenize_Nd by lia. exec.
      rewrite !int_of_str_str by lia. rewrite roll_dice_run. exec.
      unfold rolled. cbn [tape drawn]. reflexivity.
    + reflexivity.
    + unfold len. rewrite rolled_length. lia.
    + by apply rolled_bounds.
  - intros [h vs t d] k Hk. rewrite heap_nil_r. eexists. cbn zeta.
    cbn [tape drawn]. split.
    + unfold parse. rewrite tokenize_d_H by lia. exec.
      rewrite !int_of_str_str by lia. exec. reflexivity.
    + reflexivity.
Qed.

(** C8 on a new parser whose random source yields 3, 7, 11, ...: the roll
    of the one child tagged as a size that "d6" leaves in the store, "d6",
    "3d" and "d H1". *)
Lemma C8_roll_defaults_witness :
  (exists c s m v ds st1,
     roll_args (1, 20, NullDiceModifier) [1%nat]
       (parse "d6" (DiceParser_init (fun i => Z.of_nat (3 + 4 * i)))).2
     = (Ok (c, s, m),
        (parse "d6" (DiceParser_init (fun i => Z.of_nat (3 + 4 * i)))).2) /\
     DiceRoller_roll c s m
       (parse "d6" (DiceParser_init (fun i => Z.of_nat (3 + 4 * i)))).2
     = (Ok (v, ds), st1) /\
     c = 1 /\ m = NullDiceModifier) /\
  (exists st',
     let v := 1 + 3 mod 6 in
     parse ("d" +:+ str 6) (DiceParser_init (fun i => Z.of_nat (3 + 4 * i)))
     = (Ok (mkPublic v ("[" +:+ str v +:+ "]")), st') /\
     drawn st' = 1%nat /\ 1 <= v <= 6) /\
  (exists st',
     let ds := rolled (DiceParser_init (fun i => Z.of_nat (3 + 4 * i))) 3 20 in
     parse (str 3 +:+ "d") (DiceParser_init (fun i => Z.of_nat (3 + 4 * i)))
     = (Ok (mkPublic (sum_list ds) ("[" +:+ join ", " (map str ds) +:+ "]")),
        st') /\
     drawn st' = 3%nat /\ len ds = 3 /\ Forall (fun x => 1 <= x <= 20) ds) /\
  (exists st',
     let v := 1 + 3 mod 20 in
     parse ("d H" +:+ str 1) (DiceParser_init (fun i => Z.of_nat (3 + 4 * i)))
     = (Ok (mkPublic (sum_list (get_actual_dice (HighestDiceModifier 1) [v]).1)
                     ("[" +:+ str v +:+ "]")), st') /\
     drawn st' = 1%nat).
Proof.
  split; [|split; [|split]].
  - destruct (proj1 (proj2 (proj2 (proj2 C8_roll_defaults)))
                (parse "d6" (DiceParser_init (fun i => Z.of_nat (3 + 4 * i)))).2
                [1%nat] 3%nat
                (roll [1%nat]
                   (parse "d6" (DiceParser_init (fun i => Z.of_nat (3 + 4 * i)))).2).2)
      as (c & s & m & v & ds & st1 & Hargs & Hroll & _ & _ & Hc & _ & Hm).
    { vm_compute. reflexivity. }
    exists c, s, m, v, ds, st1. split; [exact Hargs|]. split; [exact Hroll|].
    split; [apply Hc|apply Hm]; repeat constructor.
  - apply (proj1 (proj2 (proj2 (proj2 (proj2 C8_roll_defaults))))
             (DiceParser_init (fun i => Z.of_nat (3 + 4 * i))) 6). lia.
  - apply (proj1 (proj2 (proj2 (proj2 (proj2 (proj2 C8_roll_defaults)))))
             (DiceParser_init (fun i => Z.of_nat (3 + 4 * i))) 3). lia.
  - apply (proj2 (proj2 (proj2 (proj2 (proj2 (proj2 C8_roll_defaults)))))
             (DiceParser_init (fun i => Z.of_nat (3 + 4 * i))) 1). lia.
Defined.

